(** * bridge/helper: clipping and splitting of messages

    A shallow embedding of the text helpers of [bridge/helper/helper.go]
    ([GetSubLines], [RemoveEmptyNewLines], [ClipMessage],
    [ClipOrSplitMessage]) together with the parts of Go's [unicode/utf8],
    [unicode] and [strings] packages they call, and of the helpers on
    messages ([HandleExtra], [GetAvatar], [HandleDownloadSize],
    [HandleDownloadData], [ParseMarkdown]) and of the download helpers over
    a network that is a parameter; the properties of them that the
    specification states, and further properties that the code has.

    Conventions.
    - A Go [string] is a sequence of bytes: [str := list byte].
    - A Go [int] is a 64-bit two's complement integer, modelled as a [Z]
      with the wrap-around of [+] and [-] written out ([wrap]).
    - A slice expression [s[lo:hi]] panics when its indices are out of
      range; the functions that slice at computed indices return an
      [option], [None] standing for the run-time panic. *)

From Stdlib Require Import ZArith List Bool Lia.
From Stdlib Require Import Strings.String Strings.Byte.
From Stdlib Require Import DecimalString.
Import ListNotations.
Local Open Scope Z_scope.

(** ** Go integers *)

Module GoInt.

Definition intSize : Z := 64.
Definition minInt : Z := - 2 ^ (intSize - 1).
Definition maxInt : Z := 2 ^ (intSize - 1) - 1.

(** Two's complement wrap-around of an arithmetic result. *)
Definition wrap (z : Z) : Z :=
  (z + 2 ^ (intSize - 1)) mod 2 ^ intSize - 2 ^ (intSize - 1).

Definition add (a b : Z) : Z := wrap (a + b).
Definition sub (a b : Z) : Z := wrap (a - b).

(** The values an [int] variable can hold. *)
Definition is_int (z : Z) : Prop := minInt <= z <= maxInt.

End GoInt.

(** ** Go strings *)

Definition str := list byte.

(** A string literal as its bytes. *)
Definition bs (s : string) : str := list_byte_of_string s.

Definition b2z (b : byte) : Z := Z.of_N (Byte.to_N b).

(** [len(s)] *)
Definition len {A : Type} (s : list A) : Z := Z.of_nat (List.length s).

(** [s[i]] where the index is known to be in range; the default is never
    reached in the functions below, which check the length first. *)
Definition at_ (s : str) (i : Z) : Z := b2z (nth (Z.to_nat i) s x00).

(** [s[lo:hi]]: panics unless [0 <= lo <= hi <= len(s)]. *)
Definition slice (s : str) (lo hi : Z) : option str :=
  if (0 <=? lo) && (lo <=? hi) && (hi <=? len s)
  then Some (skipn (Z.to_nat lo) (firstn (Z.to_nat hi) s))
  else None.

(** [s[:hi]] *)
Definition slice_to (s : str) (hi : Z) : option str := slice s 0 hi.

(** [s[lo:]] *)
Definition slice_from (s : str) (lo : Z) : option str := slice s lo (len s).

(** Sequencing of computations that may panic. *)
Definition bind {A B : Type} (m : option A) (f : A -> option B) : option B :=
  match m with
  | Some a => f a
  | None => None
  end.

Notation "x <- m ;; k" := (bind m (fun x => k))
  (at level 61, m at next level, right associativity).

(** ** unicode/utf8 *)

Module utf8.

Definition RuneError : Z := 0xFFFD.
Definition RuneSelf : Z := 0x80.
Definition UTFMax : Z := 4.

Definition maskx : Z := 0x3F.
Definition mask2 : Z := 0x1F.
Definition mask3 : Z := 0x0F.
Definition mask4 : Z := 0x07.

Definition locb : Z := 0x80.
Definition hicb : Z := 0xBF.

(** The entries of the [first] table. *)
Definition xx : Z := 0xF1.
Definition as_ : Z := 0xF0.
Definition s1 : Z := 0x02.
Definition s2 : Z := 0x13.
Definition s3 : Z := 0x03.
Definition s4 : Z := 0x23.
Definition s5 : Z := 0x34.
Definition s6 : Z := 0x04.
Definition s7 : Z := 0x44.

(** [first[b]]: information about the first byte of an encoding.  The table
    of 256 entries is written by its runs. *)
Definition first (b : Z) : Z :=
  if b <? 0x80 then as_        (* 0x00-0x7F *)
  else if b <? 0xC2 then xx    (* 0x80-0xC1 *)
  else if b <? 0xE0 then s1    (* 0xC2-0xDF *)
  else if b =? 0xE0 then s2
  else if b <? 0xED then s3    (* 0xE1-0xEC *)
  else if b =? 0xED then s4
  else if b <? 0xF0 then s3    (* 0xEE-0xEF *)
  else if b =? 0xF0 then s5
  else if b <? 0xF4 then s6    (* 0xF1-0xF3 *)
  else if b =? 0xF4 then s7
  else xx.                     (* 0xF5-0xFF *)

Record acceptRange := { lo : Z; hi : Z }.

(** [acceptRanges[i]]; the table has 16 entries, those after the fifth are
    zero. *)
Definition acceptRanges (i : Z) : acceptRange :=
  if i =? 0 then {| lo := locb; hi := hicb |}
  else if i =? 1 then {| lo := 0xA0; hi := hicb |}
  else if i =? 2 then {| lo := locb; hi := 0x9F |}
  else if i =? 3 then {| lo := 0x90; hi := hicb |}
  else if i =? 4 then {| lo := locb; hi := 0x8F |}
  else {| lo := 0; hi := 0 |}.

(** [RuneStart(b)]: [b] is not a continuation byte. *)
Definition RuneStart (b : Z) : bool := negb (Z.land b 0xC0 =? 0x80).

(** [DecodeRuneInString(s)]: the first rune of [s] and its width in bytes;
    [(RuneError, 0)] for the empty string and [(RuneError, 1)] for an
    invalid encoding. *)
Definition DecodeRuneInString (s : str) : Z * Z :=
  let n := len s in
  if n <? 1 then (RuneError, 0) else
  let s0 := at_ s 0 in
  let x := first s0 in
  if x >=? as_ then
    (* mask := rune(x) << 31 >> 31 on 32 bits: all ones when x is odd *)
    let mask := if Z.testbit x 0 then (-1) else 0 in
    (Z.lor (Z.land s0 (Z.lnot mask)) (Z.land RuneError mask), 1)
  else
  let sz := Z.land x 7 in
  let accept := acceptRanges (Z.shiftr x 4) in
  if n <? sz then (RuneError, 1) else
  let s1 := at_ s 1 in
  if (s1 <? lo accept) || (hi accept <? s1) then (RuneError, 1) else
  if sz <=? 2 then
    (Z.lor (Z.shiftl (Z.land s0 mask2) 6) (Z.land s1 maskx), 2)
  else
  let s2 := at_ s 2 in
  if (s2 <? locb) || (hicb <? s2) then (RuneError, 1) else
  if sz <=? 3 then
    (Z.lor (Z.lor (Z.shiftl (Z.land s0 mask3) 12)
                  (Z.shiftl (Z.land s1 maskx) 6))
           (Z.land s2 maskx), 3)
  else
  let s3 := at_ s 3 in
  if (s3 <? locb) || (hicb <? s3) then (RuneError, 1) else
  (Z.lor (Z.lor (Z.lor (Z.shiftl (Z.land s0 mask4) 18)
                       (Z.shiftl (Z.land s1 maskx) 12))
                (Z.shiftl (Z.land s2 maskx) 6))
         (Z.land s3 maskx), 4).

(** The loop [for start--; start >= lim; start-- { if RuneStart(s[start])
    { break } }] of [DecodeLastRuneInString]; it runs at most [UTFMax - 1]
    times because [lim >= end - UTFMax]. *)
Fixpoint back_scan (fuel : nat) (s : str) (lim start : Z) : Z :=
  match fuel with
  | O => start
  | S fuel' =>
      if start >=? lim then
        if RuneStart (at_ s start) then start
        else back_scan fuel' s lim (start - 1)
      else start
  end.

(** [DecodeLastRuneInString(s)]: the last rune of [s] and its width. *)
Definition DecodeLastRuneInString (s : str) : Z * Z :=
  let end_ := len s in
  if end_ =? 0 then (RuneError, 0) else
  let start := end_ - 1 in
  let r := at_ s start in
  if r <? RuneSelf then (r, 1) else
  let lim := end_ - UTFMax in
  let lim := if lim <? 0 then 0 else lim in
  let start := back_scan 4 s lim (start - 1) in
  let start := if start <? 0 then 0 else start in
  let '(r, size) := DecodeRuneInString (skipn (Z.to_nat start) s) in
  if negb (start + size =? end_) then (RuneError, 1) else (r, size).

End utf8.

(** ** The [range] clause over a string *)

(** [for i, r := range s]: the successive byte offsets [i] at which a rune
    starts, with the rune [r] decoded there.  An invalid byte is a rune of
    width 1. *)
Fixpoint range_from (fuel : nat) (s : str) (i : Z) : list (Z * Z) :=
  match fuel with
  | O => []
  | S fuel' =>
      match s with
      | [] => []
      | _ :: _ =>
          let '(r, w) := utf8.DecodeRuneInString s in
          (i, r) :: range_from fuel' (skipn (Z.to_nat w) s) (i + w)
      end
  end.

Definition range (s : str) : list (Z * Z) := range_from (List.length s) s 0.

(** ** unicode *)

Module unicode.

Definition MaxLatin1 : Z := 0xFF.

(** [IsSpace(r)]: the Latin-1 spaces, and above Latin-1 the ranges of the
    [White_Space] table. *)
Definition IsSpace (r : Z) : bool :=
  if r <=? MaxLatin1 then
    (r =? 0x09) || (r =? 0x0A) || (r =? 0x0B) || (r =? 0x0C) || (r =? 0x0D)
    || (r =? 0x20) || (r =? 0x85) || (r =? 0xA0)
  else
    (r =? 0x1680) || ((0x2000 <=? r) && (r <=? 0x200A))
    || ((0x2028 <=? r) && (r <=? 0x2029)) || (r =? 0x202F) || (r =? 0x205F)
    || (r =? 0x3000).

End unicode.

(** ** strings *)

Module strings.

(** [asciiSpace[c] == 1] *)
Definition asciiSpace (c : Z) : bool :=
  (c =? 0x09) || (c =? 0x0A) || (c =? 0x0B) || (c =? 0x0C) || (c =? 0x0D)
  || (c =? 0x20).

(** [indexFunc(s, f, truth)]: the offset of the first rune [r] of [s] with
    [f(r) == truth], or [-1]. *)
Definition indexFunc (s : str) (f : Z -> bool) (truth : bool) : Z :=
  match find (fun ir => Bool.eqb (f (snd ir)) truth) (range s) with
  | Some ir => fst ir
  | None => -1
  end.

(** [lastIndexFunc(s, f, truth)]: the same from the end; the loop variable
    [i] decreases by the width of the last rune of [s[0:i]] each time. *)
Fixpoint lastIndexFunc_loop (fuel : nat) (s : str) (f : Z -> bool)
    (truth : bool) (i : Z) : Z :=
  match fuel with
  | O => -1
  | S fuel' =>
      if i >? 0 then
        let '(r, size) := utf8.DecodeLastRuneInString (firstn (Z.to_nat i) s) in
        let i := i - size in
        if Bool.eqb (f r) truth then i
        else lastIndexFunc_loop fuel' s f truth i
      else -1
  end.

Definition lastIndexFunc (s : str) (f : Z -> bool) (truth : bool) : Z :=
  lastIndexFunc_loop (List.length s) s f truth (len s).

Definition TrimLeftFunc (s : str) (f : Z -> bool) : str :=
  let i := indexFunc s f false in
  if i =? -1 then [] else skipn (Z.to_nat i) s.

Definition TrimRightFunc (s : str) (f : Z -> bool) : str :=
  let i := lastIndexFunc s f false in
  let i :=
    if (i >=? 0) && (at_ s i >=? utf8.RuneSelf) then
      let '(_, wid) := utf8.DecodeRuneInString (skipn (Z.to_nat i) s) in
      i + wid
    else i + 1 in
  firstn (Z.to_nat i) s.

Definition TrimFunc (s : str) (f : Z -> bool) : str :=
  TrimRightFunc (TrimLeftFunc s f) f.

(** The second loop of [TrimSpace], on [t = s[start:]]: [stop] runs down
    from the end over ASCII spaces and hands over to [TrimRightFunc] at the
    first non-ASCII byte. *)
Fixpoint TrimSpace_stop (t : str) (stop : nat) : str :=
  match stop with
  | O => firstn stop t
  | S stop' =>
      let c := at_ t (Z.of_nat stop') in
      if c >=? utf8.RuneSelf then
        TrimRightFunc (firstn stop t) unicode.IsSpace
      else if asciiSpace c then TrimSpace_stop t stop'
      else firstn stop t
  end.

(** [TrimSpace(s)]: the first loop advances [start] over ASCII spaces (the
    recursion is on [s[start:]]) and hands over to [TrimFunc] at the first
    non-ASCII byte. *)
Fixpoint TrimSpace (s : str) : str :=
  match s with
  | [] => []
  | c :: s' =>
      if b2z c >=? utf8.RuneSelf then TrimFunc s unicode.IsSpace
      else if asciiSpace (b2z c) then TrimSpace s'
      else TrimSpace_stop s (List.length s)
  end.

(** [IndexByte(s, c)]: the offset of the first [c] in [s]. *)
Fixpoint IndexByte (s : str) (c : byte) : option nat :=
  match s with
  | [] => None
  | b :: s' =>
      if Byte.eqb b c then Some O else option_map S (IndexByte s' c)
  end.

(** [Count(s, sep)] for a separator of one byte. *)
Definition Count (s : str) (c : byte) : nat :=
  List.length (filter (fun b => Byte.eqb b c) s).

(** [Split(s, sep)] for a separator [sep] of one byte: [genSplit] cuts at
    the successive occurrences of the separator, at most [Count(s, sep)]
    times, and ends with what is left. *)
Fixpoint genSplit (n : nat) (s : str) (sep : byte) : list str :=
  match n with
  | O => [s]
  | S n' =>
      match IndexByte s sep with
      | None => [s]
      | Some m => firstn m s :: genSplit n' (skipn (S m) s) sep
      end
  end.

Definition Split (s : str) (sep : byte) : list str :=
  genSplit (Count s sep) s sep.

(** [trimLeftByte] and [trimRightByte]. *)
Fixpoint trimLeftByte (s : str) (c : byte) : str :=
  match s with
  | b :: s' => if Byte.eqb b c then trimLeftByte s' c else s
  | [] => []
  end.

Definition trimRightByte (s : str) (c : byte) : str :=
  rev (trimLeftByte (rev s) c).

(** [Trim(s, cutset)] for a cutset of one ASCII byte. *)
Definition Trim (s : str) (c : byte) : str :=
  trimLeftByte (trimRightByte s c) c.

End strings.

(** ** bridge/helper *)

Definition newline : byte := x0a.

(** The marker used when the caller passes the empty string. *)
Definition defaultClippingMessage : str := bs " <clipped message>".

Definition effectiveClippingMessage (clippingMessage : str) : str :=
  match clippingMessage with
  | [] => defaultClippingMessage
  | _ :: _ => clippingMessage
  end.

(** [r == utf8.RuneError] for the rune of a decoding result. *)
Definition isRuneError (d : Z * Z) : bool := fst d =? utf8.RuneError.

(** *** GetSubLines *)

(** The variables of the splitting loop of [GetSubLines]. *)
Record subline_state := {
  sl_lines : list str;
  splitStart : Z;
  startOfPreviousRune : Z
}.

(** One iteration of [for i := range line]. *)
Definition subline_step (line : str) (maxLineLength : Z)
    (clippingMessage : str) (st : subline_state) (i : Z)
    : option subline_state :=
  st' <-
    (if GoInt.sub i (splitStart st)
        >? GoInt.sub maxLineLength (len clippingMessage)
     then
       piece <- slice line (splitStart st) (startOfPreviousRune st) ;;
       Some {| sl_lines := sl_lines st ++ [piece ++ clippingMessage];
               splitStart := startOfPreviousRune st;
               startOfPreviousRune := startOfPreviousRune st |}
     else Some st) ;;
  Some {| sl_lines := sl_lines st';
          splitStart := splitStart st';
          startOfPreviousRune := i |}.

Fixpoint subline_loop (line : str) (maxLineLength : Z)
    (clippingMessage : str) (idxs : list Z) (st : subline_state)
    : option subline_state :=
  match idxs with
  | [] => Some st
  | i :: idxs' =>
      st' <- subline_step line maxLineLength clippingMessage st i ;;
      subline_loop line maxLineLength clippingMessage idxs' st'
  end.

(** The body of the loop over the lines: [lines] is the result so far. *)
Definition subline_body (maxLineLength : Z) (clippingMessage : str)
    (lines : list str) (line : str) : option (list str) :=
  match line with
  | [] => Some lines
  | _ :: _ =>
      if (maxLineLength =? 0) || (len line <=? maxLineLength)
      then Some (lines ++ [line])
      else
        st <- subline_loop line maxLineLength clippingMessage
                (map fst (range line))
                {| sl_lines := lines; splitStart := 0;
                   startOfPreviousRune := 0 |} ;;
        rest <- slice_from line (splitStart st) ;;
        Some (sl_lines st ++ [rest])
  end.

Fixpoint sublines_of (maxLineLength : Z) (clippingMessage : str)
    (ls : list str) (lines : list str) : option (list str) :=
  match ls with
  | [] => Some lines
  | line :: ls' =>
      lines' <- subline_body maxLineLength clippingMessage lines line ;;
      sublines_of maxLineLength clippingMessage ls' lines'
  end.

Definition GetSubLines (message : str) (maxLineLength : Z)
    (clippingMessage : str) : option (list str) :=
  let clippingMessage := effectiveClippingMessage clippingMessage in
  sublines_of maxLineLength clippingMessage
    (strings.Split (strings.TrimSpace message) newline) [].

(** *** RemoveEmptyNewLines *)

(** [emptyLineMatcher.ReplaceAllString(s, "\n")] for the pattern ["\n+"]:
    every maximal run of newlines is a match and becomes one newline; the
    text between the matches is copied.  [in_match] tells that the byte
    before was part of the current match. *)
Fixpoint emptyLineMatcher_ReplaceAllString (in_match : bool) (s : str) : str :=
  match s with
  | [] => []
  | b :: s' =>
      if Byte.eqb b newline then
        if in_match then emptyLineMatcher_ReplaceAllString true s'
        else newline :: emptyLineMatcher_ReplaceAllString true s'
      else b :: emptyLineMatcher_ReplaceAllString false s'
  end.

Definition RemoveEmptyNewLines (msg : str) : str :=
  emptyLineMatcher_ReplaceAllString false (strings.Trim msg newline).

(** *** ClipMessage *)

(** The loop [for len(text) > 0] of [ClipMessage]: drop the last byte as
    long as the last rune decodes to [RuneError]. *)
Fixpoint clip_backup (fuel : nat) (text : str) : option str :=
  match fuel with
  | O => Some text
  | S fuel' =>
      if len text >? 0 then
        if isRuneError (utf8.DecodeLastRuneInString text) then
          text' <- slice_to text (GoInt.sub (len text) 1) ;;
          clip_backup fuel' text'
        else Some text
      else Some text
  end.

Definition ClipMessage (text : str) (length : Z) (clippingMessage : str)
    : option str :=
  let clippingMessage := effectiveClippingMessage clippingMessage in
  if len text >? length then
    text <- slice_to text (GoInt.sub length (len clippingMessage)) ;;
    text <- clip_backup (List.length text) text ;;
    Some (text ++ clippingMessage)
  else Some text.

(** *** ClipOrSplitMessage *)

(** The loop [for wasted < 4 && wasted < length] that looks for the cut
    point of a chunk; it returns the last [chunk] it assigned. *)
Fixpoint chunk_loop (fuel : nat) (remainingText : str) (length : Z)
    (chunk : str) (wasted : Z) : option str :=
  match fuel with
  | O => Some chunk
  | S fuel' =>
      if (wasted <? 4) && (wasted <? length) then
        chunk <- slice_to remainingText (GoInt.sub length wasted) ;;
        if isRuneError (utf8.DecodeLastRuneInString chunk) then
          chunk_loop fuel' remainingText length chunk (GoInt.add wasted 1)
        else Some chunk
      else Some chunk
  end.

(** The variables of the splitting loop. *)
Record split_state := {
  msgParts : list str;
  remainingText : str
}.

(** The loop condition. *)
Definition split_cond (length splitMax : Z) (st : split_state) : bool :=
  (len (msgParts st) <? GoInt.sub splitMax 1)
  && (len (remainingText st) >? length).

(** The loop body. *)
Definition split_body (length : Z) (st : split_state) : option split_state :=
  chunk <- chunk_loop 5 (remainingText st) length [] 0 ;;
  rest <- slice_from (remainingText st) (len chunk) ;;
  Some {| msgParts := msgParts st ++ [chunk]; remainingText := rest |}.

Fixpoint split_loop (fuel : nat) (length splitMax : Z) (st : split_state)
    : option split_state :=
  match fuel with
  | O => Some st
  | S fuel' =>
      if split_cond length splitMax st then
        st' <- split_body length st ;;
        split_loop fuel' length splitMax st'
      else Some st
  end.

(** Every iteration adds one part, so the loop runs at most [splitMax - 1]
    times. *)
Definition split_fuel (splitMax : Z) : nat := Z.to_nat (GoInt.sub splitMax 1).

Definition ClipOrSplitMessage (text : str) (length : Z)
    (clippingMessage : str) (splitMax : Z) : option (list str) :=
  st <- split_loop (split_fuel splitMax) length splitMax
          {| msgParts := []; remainingText := text |} ;;
  last <- ClipMessage (remainingText st) length clippingMessage ;;
  Some (msgParts st ++ [last]).

(** ** Go maps and formatting *)

(** [a == b] on strings. *)
Fixpoint str_eqb (a b : str) : bool :=
  match a, b with
  | [], [] => true
  | x :: a', y :: b' => Byte.eqb x y && str_eqb a' b'
  | _, _ => false
  end.

(** A [map[string]V]: [None] is the nil map, which reads as the empty map
    and panics when it is assigned to; a map that is not nil is the list of
    its assignments, the latest first. *)
Definition gomap (V : Type) : Type := option (list (str * V)).

(** [v, ok := m[k]] *)
Definition map_lookup {V : Type} (m : gomap V) (k : str) : option V :=
  match m with
  | None => None
  | Some kvs =>
      option_map snd (find (fun kv => str_eqb (fst kv) k) kvs)
  end.

(** [m[k]] where [V] is a slice type: the nil slice when [k] is missing. *)
Definition map_index {A : Type} (m : gomap (list A)) (k : str) : list A :=
  match map_lookup m k with
  | Some v => v
  | None => []
  end.

(** [m[k] = v] *)
Definition map_assign {V : Type} (m : gomap V) (k : str) (v : V)
    : option (gomap V) :=
  match m with
  | None => None
  | Some kvs => Some (Some ((k, v) :: kvs))
  end.





(** The verbs [%v] and [%#v] of [fmt] on a signed integer: its decimal
    digits. *)
Definition fmt_int (z : Z) : str := bs (NilZero.string_of_int (Z.to_int z)).

(** ** bridge/config *)

(** The declarations of [bridge/config] by what the helpers use of them:
    the fields they read or set. *)
Module config.

Record FileInfo := {
  Name : str;
  Data : option str;   (* a pointer to the bytes; [None] is nil *)
  Comment : str;
  URL : str;
  Size : Z;
  Avatar : bool;
  NativeID : str
}.

(** The values of type [interface{}] kept in [Message.Extra], by their
    dynamic type. *)
Inductive any :=
| FileInfoValue (fi : FileInfo)
| OtherValue.

Record Message := {
  Text : str;
  Channel : str;
  Username : str;
  Account : str;
  Event : str;
  Extra : gomap (list any)
}.

Record Protocol := {
  MediaDownloadBlackList : list str;
  MediaDownloadSize : Z;
  MediaServerDownload : str
}.

End config.

(** [msg.Event = event] *)
Definition set_Event (msg : config.Message) (event : str) : config.Message :=
  {| config.Text := config.Text msg;
     config.Channel := config.Channel msg;
     config.Username := config.Username msg;
     config.Account := config.Account msg;
     config.Event := event;
     config.Extra := config.Extra msg |}.

(** [msg.Extra = extra], for the map as an assignment to one of its keys
    leaves it. *)
Definition set_Extra (msg : config.Message) (extra : gomap (list config.any))
    : config.Message :=
  {| config.Text := config.Text msg;
     config.Channel := config.Channel msg;
     config.Username := config.Username msg;
     config.Account := config.Account msg;
     config.Event := config.Event msg;
     config.Extra := extra |}.

(** *** HandleExtra, GetAvatar, HandleDownloadSize, HandleDownloadData *)

(** The helpers take the message and the configuration by pointers that are
    not nil, and a logger whose output is not part of what they compute. *)

(** What the helpers take from other packages: the event names that
    [bridge/config] declares, [regexp.Compile], which fails on some
    patterns, with the method [MatchString] of a compiled expression, the
    verb [%#v] of [fmt] on a string (the string as a Go literal), and
    [markdown.ToHTML] with the parser and the renderer that [ParseMarkdown]
    sets up. *)
Class Imports := {
  EventFileFailureSize : str;
  EventAvatarDownload : str;
  Regexp : Type;
  regexp_Compile : str -> option Regexp;
  MatchString : Regexp -> str -> bool;
  fmt_GoString : str -> str;
  markdown_ToHTML : str -> str
}.

Section Helpers.

Context {imports : Imports}.

(** The message [HandleExtra] makes for a file that was too big. *)
Definition failureMessage (msg : config.Message) (general : config.Protocol)
    (fi : config.FileInfo) : config.Message :=
  let text :=
    bs "file " ++ config.Name fi ++ bs " too big to download ("
    ++ fmt_int (config.Size fi) ++ bs " > allowed size: "
    ++ fmt_int (config.MediaDownloadSize general) ++ bs ")" in
  {| config.Text := text;
     config.Channel := config.Channel msg;
     config.Username := bs "<system> ";
     config.Account := config.Account msg;
     config.Event := [];
     config.Extra := None |}.

(** The loop of [HandleExtra]; the type assertion [f.(config.FileInfo)]
    panics on a value of another type. *)
Fixpoint HandleExtra_loop (msg : config.Message) (general : config.Protocol)
    (fs : list config.any) (rmsg : list config.Message)
    : option (list config.Message) :=
  match fs with
  | [] => Some rmsg
  | f :: fs' =>
      match f with
      | config.FileInfoValue fi =>
          HandleExtra_loop msg general fs'
            (rmsg ++ [failureMessage msg general fi])
      | config.OtherValue => None
      end
  end.

Definition HandleExtra (msg : config.Message) (general : config.Protocol)
    : option (list config.Message) :=
  let extra := config.Extra msg in
  HandleExtra_loop msg general (map_index extra EventFileFailureSize) [].

Definition GetAvatar (av : gomap str) (userid : str)
    (general : config.Protocol) : str :=
  match map_lookup av userid with
  | Some sha =>
      config.MediaServerDownload general ++ bs "/" ++ sha ++ bs "/"
      ++ userid ++ bs ".png"
  | None => []
  end.

(** The loop of [HandleDownloadSize] over the blacklist: the error it
    returns, if any.  Empty entries and entries that do not compile are
    passed over. *)
Fixpoint blackListed (entries : list str) (name : str) : option str :=
  match entries with
  | [] => None
  | entry :: entries' =>
      match entry with
      | _ :: _ =>
          match regexp_Compile entry with
          | None => blackListed entries' name
          | Some re =>
              if MatchString re name then
                Some (bs "Matching blacklist " ++ entry
                      ++ bs ". Not downloading " ++ name)
              else blackListed entries' name
          end
      | [] => blackListed entries' name
      end
  end.

(** [HandleDownloadSize]: the message as the call leaves it, and the error
    returned ([None] for [nil]).  [int(size)] is [size], both types having
    64 bits. *)
Definition HandleDownloadSize (msg : config.Message) (name : str) (size : Z)
    (general : config.Protocol) : option (config.Message * option str) :=
  match blackListed (config.MediaDownloadBlackList general) name with
  | Some err => Some (msg, Some err)
  | None =>
      if size >? config.MediaDownloadSize general then
        let msg := set_Event msg EventFileFailureSize in
        extra <-
          map_assign (config.Extra msg) (config.Event msg)
            (map_index (config.Extra msg) (config.Event msg)
             ++ [config.FileInfoValue
                   {| config.Name := name;
                      config.Data := None;
                      config.Comment := config.Text msg;
                      config.URL := [];
                      config.Size := size;
                      config.Avatar := false;
                      config.NativeID := [] |}]) ;;
        Some (set_Extra msg extra,
              Some (bs "File " ++ fmt_GoString name
                    ++ bs " to large to download (" ++ fmt_int size
                    ++ bs "). MediaDownloadSize is "
                    ++ fmt_int (config.MediaDownloadSize general)))
      else Some (msg, None)
  end.

(** [HandleDownloadData2]: the message as the call leaves it.  The length
    of what [data] points to is taken first, for the logger. *)
Definition HandleDownloadData2 (msg : config.Message)
    (name id comment url : str) (data : option str)
    (general : config.Protocol) : option config.Message :=
  _ <- data ;;
  let avatar := false in
  let avatar :=
    if str_eqb (config.Event msg) EventAvatarDownload then true else avatar in
  extra <-
    map_assign (config.Extra msg) (bs "file")
      (map_index (config.Extra msg) (bs "file")
       ++ [config.FileInfoValue
             {| config.Name := name;
                config.Data := data;
                config.Comment := comment;
                config.URL := url;
                config.Size := 0;
                config.Avatar := avatar;
                config.NativeID := id |}]) ;;
  Some (set_Extra msg extra).

Definition HandleDownloadData (msg : config.Message)
    (name comment url : str) (data : option str)
    (general : config.Protocol) : option config.Message :=
  HandleDownloadData2 msg name [] comment url data general.


End Helpers.

(** *** DownloadFile, DownloadFileAuth, DownloadFileAuthRocket *)

(** The precision [n] of the verb [%.ns] of [fmt]: the argument up to its
    [n]-th rune. *)
Definition fmt_truncate (b : str) (n : nat) : str :=
  match nth_error (map fst (range b)) n with
  | Some i => firstn (Z.to_nat i) b
  | None => b
  end.

(** What the download helpers use of [net/http]: a request is its URL and
    its header (the method is [GET] and there is no body); a response is its
    status and its body, the body being what reading it to the end gives:
    the bytes read, and the error that ended the reading, if any. *)
Module http.

Definition StatusOK : Z := 200.

Record Request := {
  URL : str;
  Header : list (str * str)
}.

Record Response := {
  StatusCode : Z;
  Status : str;
  Body : str;
  BodyError : option str
}.

End http.

(** The network: the error of [http.NewRequest("GET", url, nil)], if the
    URL has one, and what [client.Do] answers to a request, a response or an
    error. *)
Class Network := {
  http_NewRequest_error : str -> option str;
  client_Do : http.Request -> http.Response + str
}.

Section Download.

Context {network : Network}.

(** [http.NewRequest("GET", url, nil)]: the request, or nil with an
    error. *)
Definition http_NewRequest (url : str) : option http.Request * option str :=
  match http_NewRequest_error url with
  | Some err => (None, Some err)
  | None => (Some {| http.URL := url; http.Header := [] |}, None)
  end.

(** [req.Header.Add(key, value)], which panics when [req] is nil. *)
Definition Header_Add (req : option http.Request) (key value : str)
    : option (option http.Request) :=
  match req with
  | None => None
  | Some r =>
      Some (Some {| http.URL := http.URL r;
                    http.Header := http.Header r ++ [(key, value)] |})
  end.

(** [client.Do(req)] *)
Definition Do (req : option http.Request) : option (http.Response + str) :=
  match req with
  | None => None
  | Some r => Some (client_Do r)
  end.

(** The results are the data, [None] for a nil pointer, and the error,
    [None] for [nil]. *)
Definition DownloadFileAuth (url auth : str)
    : option (option str * option str) :=
  let '(req, err) := http_NewRequest url in
  req <-
    match auth with
    | _ :: _ => Header_Add req (bs "Authorization") auth
    | [] => Some req
    end ;;
  match err with
  | Some e => Some (None, Some e)
  | None =>
      r <- Do req ;;
      match r with
      | inr e => Some (None, Some e)
      | inl resp =>
          if negb (http.StatusCode resp =? http.StatusOK) then
            let peek := http.Body resp in
            Some (None,
                  Some (bs "unexpected HTTP status: " ++ http.Status resp
                        ++ bs ", body: " ++ fmt_truncate peek 100))
          else
            let data := http.Body resp in
            Some (Some data, None)
      end
  end.

Definition DownloadFile (url : str) : option (option str * option str) :=
  DownloadFileAuth url [].

Definition DownloadFileAuthRocket (url token userID : str)
    : option (option str * option str) :=
  let '(req, err) := http_NewRequest url in
  req <- Header_Add req (bs "X-Auth-Token") token ;;
  req <- Header_Add req (bs "X-User-Id") userID ;;
  match err with
  | Some e => Some (None, Some e)
  | None =>
      r <- Do req ;;
      match r with
      | inr e => Some (None, Some e)
      | inl resp =>
          let err := http.BodyError resp in
          let data := http.Body resp in
          Some (Some data, err)
      end
  end.

End Download.

(** ** Notions used to state the properties *)

(** [line != ""] *)
Definition nonEmpty (s : str) : bool :=
  match s with
  | [] => false
  | _ :: _ => true
  end.

(** What the specification says [GetSubLines] returns when no maximal
    length is set: the non-empty lines of the trimmed message, in order. *)
Definition nonEmptyLines (message : str) : list str :=
  filter nonEmpty (strings.Split (strings.TrimSpace message) newline).

(** What [ClipOrSplitMessage] is when it does not split: the clipped text
    alone. *)
Definition clipOnly (text : str) (length : Z) (clippingMessage : str)
    : option (list str) :=
  c <- ClipMessage text length clippingMessage ;; Some [c].

(** The string does not begin with a newline. *)
Definition noLeadingNewline (s : str) : bool :=
  match s with
  | b :: _ => negb (Byte.eqb b newline)
  | [] => true
  end.

(** The string does not end with a newline. *)
Definition noTrailingNewline (s : str) : bool := noLeadingNewline (rev s).

(** The string has no two newlines in a row. *)
Fixpoint noDoubleNewline (s : str) : bool :=
  match s with
  | a :: (b :: _) as t =>
      negb (Byte.eqb a newline && Byte.eqb b newline) && noDoubleNewline t
  | _ => true
  end.

(** The states the splitting loop of [ClipOrSplitMessage] goes through on
    [text]: the initial one, and the one after each iteration whose
    condition holds. *)
Inductive split_reach (text : str) (length splitMax : Z)
    : split_state -> Prop :=
| reach_init :
    split_reach text length splitMax
      {| msgParts := []; remainingText := text |}
| reach_step (st st' : split_state) :
    split_reach text length splitMax st ->
    split_cond length splitMax st = true ->
    split_body length st = Some st' ->
    split_reach text length splitMax st'.

(** [piece] is a contiguous part of [text]. *)
Definition substring_of (piece text : str) : Prop :=
  exists before after : str, text = before ++ piece ++ after.

(** *** Well-formed UTF-8 *)

(** The well-formed byte sequences of the Unicode standard (table 3-7),
    stated without reference to the decoder. *)

Definition in_range (lo hi z : Z) : bool := (lo <=? z) && (z <=? hi).

(** A continuation byte, [10xxxxxx]. *)
Definition is_cont (z : Z) : bool := in_range 0x80 0xBF z.

Definition wf2 (z0 z1 : Z) : bool := in_range 0xC2 0xDF z0 && is_cont z1.

Definition wf3 (z0 z1 z2 : Z) : bool :=
  ((z0 =? 0xE0) && in_range 0xA0 0xBF z1
   || in_range 0xE1 0xEC z0 && is_cont z1
   || (z0 =? 0xED) && in_range 0x80 0x9F z1
   || in_range 0xEE 0xEF z0 && is_cont z1)
  && is_cont z2.

Definition wf4 (z0 z1 z2 z3 : Z) : bool :=
  ((z0 =? 0xF0) && in_range 0x90 0xBF z1
   || in_range 0xF1 0xF3 z0 && is_cont z1
   || (z0 =? 0xF4) && in_range 0x80 0x8F z1)
  && is_cont z2 && is_cont z3.

(** [c] is the encoding of exactly one character. *)
Definition is_char (c : str) : bool :=
  match c with
  | [b0] => b2z b0 <? 0x80
  | [b0; b1] => wf2 (b2z b0) (b2z b1)
  | [b0; b1; b2] => wf3 (b2z b0) (b2z b1) (b2z b2)
  | [b0; b1; b2; b3] => wf4 (b2z b0) (b2z b1) (b2z b2) (b2z b3)
  | _ => false
  end.

(** [s] is valid UTF-8: a sequence of encoded characters. *)
Fixpoint valid_utf8 (s : str) : bool :=
  match s with
  | [] => true
  | b0 :: t0 =>
      if b2z b0 <? 0x80 then valid_utf8 t0 else
      match t0 with
      | [] => false
      | b1 :: t1 =>
          if wf2 (b2z b0) (b2z b1) then valid_utf8 t1 else
          match t1 with
          | [] => false
          | b2 :: t2 =>
              if wf3 (b2z b0) (b2z b1) (b2z b2) then valid_utf8 t2 else
              match t2 with
              | [] => false
              | b3 :: t3 =>
                  if wf4 (b2z b0) (b2z b1) (b2z b2) (b2z b3)
                  then valid_utf8 t3 else false
              end
          end
      end
  end.

(** The same as an inductive predicate, for proofs by induction on the
    sequence of characters. *)
Inductive wf_utf8 : str -> Prop :=
| wf_nil : wf_utf8 []
| wf_char (c s : str) : is_char c = true -> wf_utf8 s -> wf_utf8 (c ++ s).

(** The rune encoded by a sequence of 2, 3 or 4 bytes. *)
Definition rune2 (z0 z1 : Z) : Z :=
  Z.lor (Z.shiftl (Z.land z0 utf8.mask2) 6) (Z.land z1 utf8.maskx).

Definition rune3 (z0 z1 z2 : Z) : Z :=
  Z.lor (Z.lor (Z.shiftl (Z.land z0 utf8.mask3) 12)
               (Z.shiftl (Z.land z1 utf8.maskx) 6))
        (Z.land z2 utf8.maskx).

Definition rune4 (z0 z1 z2 z3 : Z) : Z :=
  Z.lor (Z.lor (Z.lor (Z.shiftl (Z.land z0 utf8.mask4) 18)
                      (Z.shiftl (Z.land z1 utf8.maskx) 12))
               (Z.shiftl (Z.land z2 utf8.maskx) 6))
        (Z.land z3 utf8.maskx).

(** What [DecodeRuneInString] computes, in terms of the well-formed
    sequences: the character at the head of [s] if there is one, and
    [(RuneError, 1)] otherwise. *)
Definition decode_spec (s : str) : Z * Z :=
  match s with
  | [] => (utf8.RuneError, 0)
  | b0 :: t0 =>
      if b2z b0 <? 0x80 then (b2z b0, 1) else
      match t0 with
      | [] => (utf8.RuneError, 1)
      | b1 :: t1 =>
          if wf2 (b2z b0) (b2z b1) then (rune2 (b2z b0) (b2z b1), 2) else
          match t1 with
          | [] => (utf8.RuneError, 1)
          | b2 :: t2 =>
              if wf3 (b2z b0) (b2z b1) (b2z b2)
              then (rune3 (b2z b0) (b2z b1) (b2z b2), 3) else
              match t2 with
              | [] => (utf8.RuneError, 1)
              | b3 :: _ =>
                  if wf4 (b2z b0) (b2z b1) (b2z b2) (b2z b3)
                  then (rune4 (b2z b0) (b2z b1) (b2z b2) (b2z b3), 4)
                  else (utf8.RuneError, 1)
              end
          end
      end
  end.

(** The encoding of U+FFFD, the replacement character, whose rune is
    [utf8.RuneError]. *)
Definition replacementChar : str := [xef; xbf; xbd].

(** [s] contains the bytes of U+FFFD. *)
Fixpoint has_replacementChar (s : str) : bool :=
  match s with
  | [] => false
  | b0 :: t =>
      match t with
      | b1 :: b2 :: _ =>
          Byte.eqb b0 xef && Byte.eqb b1 xbf && Byte.eqb b2 xbd
      | _ => false
      end
      || has_replacementChar t
  end.

(** The offsets a [range] clause goes through from [i] to the end [e]:
    each step is the width of a rune, between 1 and [W] bytes, and every
    offset satisfies [B]. *)
Inductive Steps (B : Z -> Prop) (W : Z) : Z -> Z -> list Z -> Prop :=
| steps_nil (e : Z) : Steps B W e e []
| steps_cons (i w e : Z) (l : list Z) :
    B i -> 1 <= w <= W -> Steps B W (i + w) e l -> Steps B W i e (i :: l).

(** Every byte of [s] is an ASCII character. *)
Definition isASCII (s : str) : bool := forallb (fun b => b2z b <? 0x80) s.

(** A bound on the width of the characters of [s]: 1 byte for ASCII, 4
    bytes otherwise. *)
Definition runeWidthBound (s : str) : Z := if isASCII s then 1 else 4.

(** What one iteration of the splitting loop of [GetSubLines] makes of the
    state when its slice is in range. *)
Definition subline_next (line : str) (M : Z) (cm : str)
    (st : subline_state) (i : Z) : subline_state :=
  if GoInt.sub i (splitStart st) >? GoInt.sub M (len cm)
  then {| sl_lines :=
            sl_lines st
            ++ [skipn (Z.to_nat (splitStart st))
                  (firstn (Z.to_nat (startOfPreviousRune st)) line) ++ cm];
          splitStart := startOfPreviousRune st;
          startOfPreviousRune := i |}
  else {| sl_lines := sl_lines st;
          splitStart := splitStart st;
          startOfPreviousRune := i |}.

(** The positions kept by that loop, before the iteration at offset [i] of
    a line of [e] bytes: they stay in the line, and the start of the
    previous rune is before [i] once the loop has begun. *)
Definition subline_pos (e i : Z) (st : subline_state) : Prop :=
  0 <= splitStart st <= startOfPreviousRune st
  /\ startOfPreviousRune st <= i <= e
  /\ (0 < i -> startOfPreviousRune st < i).

(** *** The boundary back-up *)

(** The loop of [ClipMessage] that backs up to a character boundary, as an
    operation on a buffer and an offset: the length of what it leaves of
    [buffer[:offset]]. *)
Definition backUp_clip (buffer : str) (offset : Z) : option Z :=
  text <- slice_to buffer offset ;;
  text' <- clip_backup (List.length text) text ;;
  Some (len text').

(** The loop of [ClipOrSplitMessage] that looks for the cut point, in the
    same way: the length of the chunk it cuts from [buffer] for the budget
    [offset]. *)
Definition backUp_split (buffer : str) (offset : Z) : option Z :=
  chunk <- chunk_loop 5 buffer offset [] 0 ;;
  Some (len chunk).

(** [s] ends with a complete character (or is empty): one of its last
    1 to 4 bytes begins a character that ends with [s]. *)
Definition ends_complete (s : str) : bool :=
  match rev s with
  | [] => true
  | b3 :: r3 =>
      is_char [b3]
      || match r3 with
         | [] => false
         | b2 :: r2 =>
             is_char [b2; b3]
             || match r2 with
                | [] => false
                | b1 :: r1 =>
                    is_char [b1; b2; b3]
                    || match r1 with
                       | [] => false
                       | b0 :: _ => is_char [b0; b1; b2; b3]
                       end
                end
         end
  end.

(** [buffer[0:j]] ends at a complete character. *)
Definition boundary (buffer : str) (j : Z) : bool :=
  ends_complete (firstn (Z.to_nat j) buffer).

(** [j] is the largest index at most [offset] such that [buffer[0:j]] ends
    at a complete character. *)
Definition largest_boundary (buffer : str) (offset j : Z) : Prop :=
  0 <= j <= offset
  /\ boundary buffer j = true
  /\ forall j' : Z, j < j' <= offset -> boundary buffer j' = false.

(** *** Lines *)

(** The strings of [ls] with one separator between each two of them. *)
Definition join (sep : byte) (ls : list str) : str :=
  match ls with
  | [] => []
  | l :: ls' => l ++ List.concat (map (cons sep) ls')
  end.

(** The pieces of [s] between the occurrences of [sep], by recursion on
    [s]. *)
Fixpoint pieces (sep : byte) (s : str) : list str :=
  match s with
  | [] => [[]]
  | b :: s' =>
      if Byte.eqb b sep then [] :: pieces sep s'
      else
        match pieces sep s' with
        | l :: ls => (b :: l) :: ls
        | [] => [[b]]
        end
  end.

(** The bytes of [s] other than newlines, in order. *)
Definition withoutNewlines (s : str) : str :=
  filter (fun b => negb (Byte.eqb b newline)) s.

(** *** The fragments of a line *)

(** A line cut into pieces: the pieces that are followed by the marker, and
    the last piece. *)
Definition cutLine : Type := list str * str.

(** The fragments made of a cut line: each piece but the last with the
    marker, then the last piece. *)
Definition fragmentsOf (clippingMessage : str) (c : cutLine) : list str :=
  map (fun piece => piece ++ clippingMessage) (fst c) ++ [snd c].

(** The line that was cut: its pieces, concatenated. *)
Definition lineOf (c : cutLine) : str := List.concat (fst c) ++ snd c.

(** *** Scalar values *)

(** [r] is a Unicode scalar value whose encoding in UTF-8 has [n] bytes
    (Unicode standard, table 3-6); the surrogates are no scalar values. *)
Definition scalarOfWidth (r n : Z) : Prop :=
  (n = 1 /\ 0 <= r < 0x80)
  \/ (n = 2 /\ 0x80 <= r < 0x800)
  \/ (n = 3 /\ 0x800 <= r < 0x10000 /\ ~ 0xD800 <= r <= 0xDFFF)
  \/ (n = 4 /\ 0x10000 <= r <= 0x10FFFF).

(** *** Messages *)

(** The values of a slice of [Message.Extra] as files, when all of them
    are. *)
Fixpoint fileInfos (fs : list config.any) : option (list config.FileInfo) :=
  match fs with
  | [] => Some []
  | config.FileInfoValue fi :: fs' => option_map (cons fi) (fileInfos fs')
  | config.OtherValue :: _ => None
  end.

(** An entry of the blacklist that is not empty, compiles and matches
    [name]. *)
Definition blocks {imports : Imports} (name entry : str) : Prop :=
  entry <> []
  /\ exists re : Regexp,
       regexp_Compile entry = Some re /\ MatchString re name = true.

(** *** Examples *)

(** A toy instance for the examples: a pattern is a literal, matched
    against the whole name, and the pattern ["("] does not compile. *)
Definition exampleImports : Imports :=
  {| EventFileFailureSize := bs "file_failure_size";
     EventAvatarDownload := bs "avatar_download";
     Regexp := str;
     regexp_Compile :=
       fun pattern => if str_eqb pattern (bs "(") then None else Some pattern;
     MatchString := str_eqb;
     fmt_GoString := fun s => bs "'" ++ s ++ bs "'";
     markdown_ToHTML := fun s => bs "<p>" ++ s ++ bs "</p>" ++ [newline] |}.

Definition exampleMessage : config.Message :=
  {| config.Text := bs "look at this";
     config.Channel := bs "#general";
     config.Username := bs "alice";
     config.Account := bs "irc.libera";
     config.Event := [];
     config.Extra := Some [] |}.

Definition exampleProtocol : config.Protocol :=
  {| config.MediaDownloadBlackList := [[]; bs "("; bs "virus.exe"];
     config.MediaDownloadSize := 1000000;
     config.MediaServerDownload := bs "https://media.example" |}.

(** A toy network for the examples: a URL that begins with a colon has no
    scheme, one file exists, and the server answers every request. *)
Definition exampleNetwork : Network :=
  {| http_NewRequest_error :=
       fun url =>
         match url with
         | ":"%byte :: _ => Some (bs "missing protocol scheme")
         | _ => None
         end;
     client_Do :=
       fun req =>
         if str_eqb (http.URL req) (bs "https://example/cat.png") then
           inl {| http.StatusCode := 200;
                  http.Status := bs "200 OK";
                  http.Body := bs "PNG";
                  http.BodyError := None |}
         else
           inl {| http.StatusCode := 404;
                  http.Status := bs "404 Not Found";
                  http.Body := bs "no such file";
                  http.BodyError := None |} |}.

(** * Properties *)

(** ** Integers, lengths and slices *)

Lemma wrap_small (z : Z) : GoInt.is_int z -> GoInt.wrap z = z.
Proof.
  unfold GoInt.is_int, GoInt.wrap, GoInt.minInt, GoInt.maxInt, GoInt.intSize.
  intros H. rewrite Z.mod_small; lia.
Qed.

Lemma len_nonneg {A : Type} (s : list A) : 0 <= len s.
Proof. unfold len. lia. Qed.

Lemma len_app {A : Type} (s t : list A) : len (s ++ t) = len s + len t.
Proof. unfold len. rewrite length_app. lia. Qed.

Lemma len_nil_inv {A : Type} (s : list A) : len s = 0 -> s = [].
Proof. destruct s; [reflexivity|]. unfold len. simpl. lia. Qed.

Lemma slice_to_Some (s : str) (k : Z) :
  0 <= k <= len s -> slice_to s k = Some (firstn (Z.to_nat k) s).
Proof.
  intros H. unfold slice_to, slice.
  replace (0 <=? 0) with true by reflexivity.
  destruct (Z.leb_spec 0 k); [|lia].
  destruct (Z.leb_spec k (len s)); [|lia].
  reflexivity.
Qed.

Lemma slice_Some_inv (s t : str) (lo hi : Z) :
  slice s lo hi = Some t ->
  0 <= lo <= hi /\ hi <= len s
  /\ t = skipn (Z.to_nat lo) (firstn (Z.to_nat hi) s).
Proof.
  unfold slice.
  destruct (Z.leb_spec 0 lo), (Z.leb_spec lo hi), (Z.leb_spec hi (len s));
    simpl; intros E; inversion E; repeat split; lia.
Qed.

Lemma slice_to_Some_inv (s t : str) (k : Z) :
  slice_to s k = Some t ->
  0 <= k <= len s /\ t = firstn (Z.to_nat k) s.
Proof.
  unfold slice_to. intros E. apply slice_Some_inv in E.
  destruct E as (H1 & H2 & ->). split; [lia|reflexivity].
Qed.

Lemma slice_from_Some (s : str) (k : Z) :
  0 <= k <= len s -> slice_from s k = Some (skipn (Z.to_nat k) s).
Proof.
  intros H. unfold slice_from, slice.
  destruct (Z.leb_spec 0 k); [|lia].
  destruct (Z.leb_spec k (len s)); [|lia].
  rewrite Z.leb_refl. simpl.
  unfold len. rewrite Nat2Z.id, firstn_all. reflexivity.
Qed.

Lemma len_firstn (s : str) (k : Z) :
  0 <= k <= len s -> len (firstn (Z.to_nat k) s) = k.
Proof. unfold len. intros H. rewrite length_firstn. lia. Qed.

Lemma effectiveClippingMessage_nonempty (cm : str) :
  effectiveClippingMessage cm <> [].
Proof. destruct cm; discriminate. Qed.

Lemma effectiveClippingMessage_idem (cm : str) :
  effectiveClippingMessage (effectiveClippingMessage cm)
  = effectiveClippingMessage cm.
Proof. destruct cm; reflexivity. Qed.

(** ** GetSubLines without a maximal length *)

Lemma sublines_of_unbounded (cm : str) (ls lines : list str) :
  sublines_of 0 cm ls lines = Some (lines ++ filter nonEmpty ls).
Proof.
  revert lines. induction ls as [|line ls IH]; intros lines; simpl.
  - now rewrite app_nil_r.
  - destruct line as [|b line]; simpl.
    + apply IH.
    + rewrite IH, <- app_assoc. reflexivity.
Qed.

(** C7: with [maxLineLength == 0], [GetSubLines] returns exactly the
    non-empty lines of the trimmed message split on the newline, in order
    and unmodified, whatever the marker; and
    [GetSubLines("hello\n\nworld", 0, "")] is [["hello", "world"]]. *)
Theorem C7_GetSubLines_unbounded :
  (forall message clippingMessage : str,
      GetSubLines message 0 clippingMessage = Some (nonEmptyLines message))
  /\ GetSubLines (bs "hello" ++ [newline; newline] ++ bs "world") 0 []
     = Some [bs "hello"; bs "world"].
Proof.
  split.
  - intros message cm. unfold GetSubLines, nonEmptyLines.
    now rewrite sublines_of_unbounded.
  - vm_compute. reflexivity.
Qed.

(** ** The scenarios of the specification *)

(** [splitLines("abcdef", 3, "_")] *)
Example scenario_splitLines_marked :
  GetSubLines (bs "abcdef") 3 (bs "_")
  = Some [bs "ab_"; bs "cd_"; bs "ef"].
Proof. vm_compute. reflexivity. Qed.

(** [clip("hello world", 8, "...")] *)
Example scenario_clip_long :
  ClipMessage (bs "hello world") 8 (bs "...") = Some (bs "hello...").
Proof. vm_compute. reflexivity. Qed.

(** [segment("abcdefghij", 4, "_", 3)] *)
Example scenario_segment :
  ClipOrSplitMessage (bs "abcdefghij") 4 (bs "_") 3
  = Some [bs "abcd"; bs "efgh"; bs "ij"].
Proof. vm_compute. reflexivity. Qed.

(** [clip("short", 10, "...")] *)
Example scenario_clip_short :
  ClipMessage (bs "short") 10 (bs "...") = Some (bs "short").
Proof. vm_compute. reflexivity. Qed.

(** [splitLines("", 5, "x")] *)
Example scenario_splitLines_empty : GetSubLines [] 5 (bs "x") = Some [].
Proof. vm_compute. reflexivity. Qed.

(** The example of the comment in [ClipMessage]: a cut inside the euro
    sign goes back to its first byte. *)
Example scenario_clip_euro :
  ClipMessage (bs "ab" ++ [xe2; x82; xac] ++ bs "cdef") 5 (bs "_")
  = Some (bs "ab_").
Proof. vm_compute. reflexivity. Qed.

(** ** RemoveEmptyNewLines *)

Section NewLines.

Local Abbreviation collapse := emptyLineMatcher_ReplaceAllString.

Lemma noDoubleNewline_cons (a : byte) (t : str) :
  noDoubleNewline (a :: t)
  = (negb (Byte.eqb a newline) || noLeadingNewline t) && noDoubleNewline t.
Proof.
  destruct t as [|b t]; simpl.
  - now rewrite orb_true_r.
  - now rewrite negb_andb.
Qed.

Lemma collapse_in_match_noLeading (s : str) :
  noLeadingNewline (collapse true s) = true.
Proof.
  induction s as [|b s IH]; simpl; [reflexivity|].
  destruct (Byte.eqb b newline) eqn:E; [exact IH|].
  simpl. now rewrite E.
Qed.

Lemma collapse_noDouble (m : bool) (s : str) :
  noDoubleNewline (collapse m s) = true.
Proof.
  revert m. induction s as [|b s IH]; intros m; [reflexivity|].
  cbn [emptyLineMatcher_ReplaceAllString].
  destruct (Byte.eqb b newline) eqn:E.
  - destruct m; [apply IH|].
    rewrite noDoubleNewline_cons, collapse_in_match_noLeading, IH.
    now rewrite orb_true_r.
  - rewrite noDoubleNewline_cons, E, IH. reflexivity.
Qed.

Lemma collapse_noLeading (s : str) :
  noLeadingNewline s = true -> noLeadingNewline (collapse false s) = true.
Proof.
  destruct s as [|b s]; simpl; [reflexivity|].
  destruct (Byte.eqb b newline) eqn:E; [discriminate|].
  simpl. now rewrite E.
Qed.

Lemma collapse_snoc (m : bool) (s : str) (b : byte) :
  Byte.eqb b newline = false -> collapse m (s ++ [b]) = collapse m s ++ [b].
Proof.
  intros Hb. revert m. induction s as [|a s IH]; intros m; simpl.
  - now rewrite Hb.
  - destruct (Byte.eqb a newline); [destruct m|]; now rewrite IH.
Qed.

Lemma noTrailingNewline_snoc (s : str) (b : byte) :
  noTrailingNewline (s ++ [b]) = negb (Byte.eqb b newline).
Proof. unfold noTrailingNewline. now rewrite rev_app_distr. Qed.

Lemma collapse_noTrailing (m : bool) (s : str) :
  noTrailingNewline s = true -> noTrailingNewline (collapse m s) = true.
Proof.
  destruct s as [|b s _] using rev_ind; [reflexivity|].
  rewrite noTrailingNewline_snoc. intros Hb.
  apply negb_true_iff in Hb.
  now rewrite collapse_snoc, noTrailingNewline_snoc, Hb.
Qed.

Lemma collapse_fixed (m : bool) (s : str) :
  noDoubleNewline s = true ->
  (m = true -> noLeadingNewline s = true) ->
  collapse m s = s.
Proof.
  revert m. induction s as [|b s IH]; intros m Hd Hl; [reflexivity|].
  rewrite noDoubleNewline_cons in Hd. apply andb_true_iff in Hd.
  destruct Hd as [Hh Hd]. cbn [emptyLineMatcher_ReplaceAllString].
  destruct (Byte.eqb b newline) eqn:E.
  - simpl in Hh. destruct m.
    + specialize (Hl eq_refl). simpl in Hl. rewrite E in Hl. discriminate.
    + f_equal; [symmetry; now apply Byte.byte_dec_bl|].
      apply IH; auto.
  - f_equal. apply IH; [assumption|discriminate].
Qed.

Lemma trimLeftByte_noLeading (s : str) :
  noLeadingNewline (strings.trimLeftByte s newline) = true.
Proof.
  induction s as [|b s IH]; simpl; [reflexivity|].
  destruct (Byte.eqb b newline) eqn:E; [exact IH|].
  simpl. now rewrite E.
Qed.

Lemma trimLeftByte_fixed (s : str) :
  noLeadingNewline s = true -> strings.trimLeftByte s newline = s.
Proof.
  destruct s as [|b s]; simpl; [reflexivity|].
  destruct (Byte.eqb b newline); [discriminate|reflexivity].
Qed.

Lemma noTrailingNewline_tail (b : byte) (s : str) :
  noTrailingNewline (b :: s) = true -> noTrailingNewline s = true.
Proof.
  destruct s as [|c s _] using rev_ind; [reflexivity|].
  rewrite app_comm_cons, !noTrailingNewline_snoc. auto.
Qed.

Lemma trimLeftByte_noTrailing (s : str) :
  noTrailingNewline s = true ->
  noTrailingNewline (strings.trimLeftByte s newline) = true.
Proof.
  induction s as [|b s IH]; simpl; [reflexivity|].
  intros H. destruct (Byte.eqb b newline); [|exact H].
  apply IH. now apply noTrailingNewline_tail in H.
Qed.

Lemma trimRightByte_noTrailing (s : str) :
  noTrailingNewline (strings.trimRightByte s newline) = true.
Proof.
  unfold noTrailingNewline, strings.trimRightByte.
  rewrite rev_involutive. apply trimLeftByte_noLeading.
Qed.

Lemma Trim_fixed (s : str) :
  noLeadingNewline s = true -> noTrailingNewline s = true ->
  strings.Trim s newline = s.
Proof.
  intros Hl Ht. unfold strings.Trim, strings.trimRightByte.
  rewrite (trimLeftByte_fixed (rev s)) by exact Ht.
  rewrite rev_involutive. now apply trimLeftByte_fixed.
Qed.

Lemma RemoveEmptyNewLines_shape (s : str) :
  noDoubleNewline (RemoveEmptyNewLines s) = true
  /\ noLeadingNewline (RemoveEmptyNewLines s) = true
  /\ noTrailingNewline (RemoveEmptyNewLines s) = true.
Proof.
  unfold RemoveEmptyNewLines, strings.Trim. repeat split.
  - apply collapse_noDouble.
  - apply collapse_noLeading, trimLeftByte_noLeading.
  - apply collapse_noTrailing, trimLeftByte_noTrailing,
      trimRightByte_noTrailing.
Qed.

End NewLines.

(** C10: [RemoveEmptyNewLines] is idempotent, because its result has no
    two newlines in a row and neither begins nor ends with a newline. *)
Theorem C10_RemoveEmptyNewLines_idempotent (s : str) :
  RemoveEmptyNewLines (RemoveEmptyNewLines s) = RemoveEmptyNewLines s
  /\ noDoubleNewline (RemoveEmptyNewLines s) = true
  /\ noLeadingNewline (RemoveEmptyNewLines s) = true
  /\ noTrailingNewline (RemoveEmptyNewLines s) = true.
Proof.
  destruct (RemoveEmptyNewLines_shape s) as (Hd & Hl & Ht).
  repeat split; try assumption.
  unfold RemoveEmptyNewLines at 1.
  rewrite Trim_fixed by assumption.
  apply collapse_fixed; auto.
Qed.

(** ** ClipMessage *)

Lemma clip_backup_spec (n : nat) (text : str) :
  (List.length text <= n)%nat -> len text <= GoInt.maxInt ->
  exists k : nat,
    (k <= List.length text)%nat
    /\ clip_backup n text = Some (firstn k text)
    /\ (k = O \/ isRuneError (utf8.DecodeLastRuneInString (firstn k text))
                 = false)
    /\ forall j : nat, (k < j <= List.length text)%nat ->
         isRuneError (utf8.DecodeLastRuneInString (firstn j text)) = true.
Proof.
  revert text. induction n as [|n IH]; intros text Hn Hmax.
  - exists O. destruct text; [|simpl in Hn; lia].
    repeat split; auto. intros j Hj. simpl in Hj. lia.
  - cbn [clip_backup].
    destruct (Z.gtb_spec (len text) 0) as [Hpos|Hzero].
    + destruct (isRuneError (utf8.DecodeLastRuneInString text)) eqn:E.
      * unfold GoInt.sub. rewrite wrap_small
          by (unfold GoInt.is_int, GoInt.minInt, GoInt.intSize in *; lia).
        rewrite slice_to_Some by lia. cbn [bind].
        set (t1 := firstn (Z.to_nat (len text - 1)) text).
        assert (Hl1 : List.length t1 = (List.length text - 1)%nat).
        { unfold t1. rewrite length_firstn. unfold len in *. lia. }
        destruct (IH t1) as (k & Hk & Hr & Hok & Hbad).
        { lia. } { unfold len in *. lia. }
        exists k. split; [lia|].
        assert (Hff : forall j : nat, (j <= List.length t1)%nat ->
                   firstn j t1 = firstn j text).
        { intros j Hj. unfold t1. rewrite firstn_firstn. f_equal.
          unfold len in *. lia. }
        rewrite Hff in Hr, Hok by lia.
        repeat split; [exact Hr|exact Hok|].
        intros j Hj.
        destruct (Nat.eq_dec j (List.length text)) as [->|Hne].
        -- now rewrite firstn_all.
        -- rewrite <- Hff by lia. apply Hbad. lia.
      * exists (List.length text). rewrite firstn_all.
        repeat split; auto. intros j Hj. lia.
    + exists (List.length text). rewrite firstn_all.
      assert (text = [])
        by (apply len_nil_inv; pose proof (len_nonneg text); lia).
      subst. repeat split; auto. intros j Hj. simpl in Hj. lia.
Qed.

Lemma clip_backup_prefix (text : str) :
  len text <= GoInt.maxInt ->
  exists k : nat,
    (k <= List.length text)%nat
    /\ clip_backup (List.length text) text = Some (firstn k text).
Proof.
  intros H.
  destruct (clip_backup_spec (List.length text) text) as (k & ? & ? & _);
    eauto.
Qed.

Lemma ClipMessage_short (text : str) (length : Z) (cm : str) :
  len text <= length -> ClipMessage text length cm = Some text.
Proof.
  intros H. unfold ClipMessage.
  destruct (Z.gtb_spec (len text) length); [lia|reflexivity].
Qed.

(** A clipped text fits the budget, as long as the subtraction
    [length - len(clippingMessage)] did not wrap around. *)
Lemma ClipMessage_fits (text : str) (length : Z) (cm y : str) :
  GoInt.is_int length ->
  len text + len (effectiveClippingMessage cm) <= GoInt.maxInt ->
  len text > length ->
  ClipMessage text length cm = Some y ->
  exists t : str,
    y = t ++ effectiveClippingMessage cm
    /\ len y <= length
    /\ exists k : nat, t = firstn k text.
Proof.
  intros Hint Hfit Hlong. unfold ClipMessage.
  set (cm' := effectiveClippingMessage cm) in *.
  destruct (Z.gtb_spec (len text) length); [|lia].
  destruct (slice_to text (GoInt.sub length (len cm'))) as [t|] eqn:Es;
    [|discriminate].
  apply slice_to_Some_inv in Es. destruct Es as [Hk ->].
  cbn [bind].
  set (t := firstn _ text).
  pose proof (len_nonneg cm') as Hcm.
  assert (Hlt : len t = GoInt.sub length (len cm'))
    by (unfold t; now apply len_firstn).
  destruct (clip_backup_prefix t) as (k & Hkt & ->); [lia|].
  cbn [bind]. intros E. inversion E; subst y; clear E.
  exists (firstn k t). split; [reflexivity|]. split.
  - rewrite len_app.
    assert (len (firstn k t) <= len t).
    { unfold len. rewrite length_firstn. lia. }
    assert (GoInt.sub length (len cm') + len cm' <= length); [|lia].
    revert Hk. unfold GoInt.sub, GoInt.wrap.
    unfold GoInt.is_int, GoInt.minInt, GoInt.maxInt, GoInt.intSize in *.
    intros Hk.
    change (2 ^ (64 - 1)) with 9223372036854775808 in *.
    change (2 ^ 64) with 18446744073709551616 in *.
    Z.div_mod_to_equations. lia.
  - exists (Nat.min k (Z.to_nat (GoInt.sub length (len cm')))).
    unfold t. now rewrite firstn_firstn.
Qed.

(** C5: a text within the budget is returned unchanged, and clipping the
    result of a clip again changes nothing (a panic of the first clip is a
    panic of the composition).  The budget is a value of type [int] and
    the text and the marker fit together in the address space, as any two
    Go strings do. *)
Theorem C5_ClipMessage_idempotent (text : str) (length : Z) (cm : str) :
  (len text <= length -> ClipMessage text length cm = Some text)
  /\ (GoInt.is_int length ->
      len text + len (effectiveClippingMessage cm) <= GoInt.maxInt ->
      (y <- ClipMessage text length cm ;; ClipMessage y length cm)
      = ClipMessage text length cm).
Proof.
  split; [apply ClipMessage_short|].
  intros Hint Hfit.
  destruct (Z.le_gt_cases (len text) length) as [Hshort|Hlong].
  - rewrite ClipMessage_short by assumption. cbn [bind].
    now apply ClipMessage_short.
  - destruct (ClipMessage text length cm) as [y|] eqn:E; [|reflexivity].
    cbn [bind].
    destruct (ClipMessage_fits text length cm y) as (t & _ & Hy & _);
      try assumption; try lia.
    now apply ClipMessage_short.
Qed.

Lemma C5_witness :
  ClipMessage (bs "short") 10 (bs "...") = Some (bs "short")
  /\ (y <- ClipMessage (bs "hello world") 8 (bs "...") ;;
      ClipMessage y 8 (bs "..."))
     = ClipMessage (bs "hello world") 8 (bs "...").
Proof.
  split.
  - apply (proj1 (C5_ClipMessage_idempotent (bs "short") 10 (bs "..."))).
    vm_compute. discriminate.
  - apply (proj2 (C5_ClipMessage_idempotent (bs "hello world") 8 (bs "..."))).
    + vm_compute. split; discriminate.
    + vm_compute. discriminate.
Defined.

(** When the budget leaves room for the marker, [ClipMessage] does not
    panic. *)
Lemma ClipMessage_total (text : str) (length : Z) (cm : str) :
  GoInt.is_int length ->
  len (effectiveClippingMessage cm) <= length ->
  exists y : str, ClipMessage text length cm = Some y.
Proof.
  intros Hint Hcm. unfold ClipMessage.
  set (cm' := effectiveClippingMessage cm) in *.
  pose proof (len_nonneg cm') as Hnn.
  destruct (Z.gtb_spec (len text) length) as [Hlong|Hshort]; [|eauto].
  unfold GoInt.sub. rewrite wrap_small
    by (unfold GoInt.is_int, GoInt.minInt, GoInt.maxInt, GoInt.intSize in *;
        lia).
  rewrite slice_to_Some by lia. cbn [bind].
  set (t := firstn _ text).
  destruct (clip_backup_prefix t) as (k & _ & ->).
  - unfold t. rewrite len_firstn by lia.
    unfold GoInt.is_int in Hint. lia.
  - cbn [bind]. eauto.
Qed.

(** ** The splitting loop of ClipOrSplitMessage *)

Lemma chunk_loop_prefix (n : nat) (rem : str) (L : Z) (chunk c : str)
    (w : Z) :
  chunk_loop n rem L chunk w = Some c ->
  c = chunk \/ exists k : nat, (k <= List.length rem)%nat /\ c = firstn k rem.
Proof.
  revert chunk w. induction n as [|n IH]; intros chunk w; cbn [chunk_loop].
  - intros E. left. now inversion E.
  - destruct ((w <? 4) && (w <? L)); [|intros E; left; now inversion E].
    destruct (slice_to rem (GoInt.sub L w)) as [c1|] eqn:Es; [|discriminate].
    cbn [bind]. apply slice_to_Some_inv in Es. destruct Es as [Hk ->].
    assert (Hpre : exists k : nat, (k <= List.length rem)%nat
              /\ firstn (Z.to_nat (GoInt.sub L w)) rem = firstn k rem).
    { exists (Z.to_nat (GoInt.sub L w)). split; [unfold len in Hk; lia|auto]. }
    destruct (isRuneError _).
    + intros E. apply IH in E. destruct E as [->|E]; right; assumption.
    + intros E. inversion E; subst c. right. assumption.
Qed.

Lemma split_body_inv (L : Z) (st st' : split_state) :
  split_body L st = Some st' ->
  exists chunk : str,
    msgParts st' = msgParts st ++ [chunk]
    /\ remainingText st = chunk ++ remainingText st'.
Proof.
  unfold split_body.
  destruct (chunk_loop 5 (remainingText st) L [] 0) as [chunk|] eqn:Ec;
    [|discriminate].
  cbn [bind].
  destruct (slice_from (remainingText st) (len chunk)) as [rest|] eqn:Er;
    [|discriminate].
  cbn [bind]. intros E. inversion E; subst st'; clear E. cbn.
  exists chunk. split; [reflexivity|].
  unfold slice_from in Er. apply slice_Some_inv in Er.
  destruct Er as (_ & _ & ->).
  unfold len. rewrite !Nat2Z.id, firstn_all.
  apply chunk_loop_prefix in Ec.
  destruct Ec as [->|(k & Hk & ->)]; [reflexivity|].
  rewrite length_firstn, Nat.min_l by assumption.
  symmetry. apply firstn_skipn.
Qed.

Lemma split_reach_invariant (text : str) (L M : Z) (st : split_state) :
  split_reach text L M st ->
  List.concat (msgParts st) ++ remainingText st = text.
Proof.
  induction 1 as [|st st' _ IH _ Hbody]; [reflexivity|].
  apply split_body_inv in Hbody. destruct Hbody as (chunk & -> & Hrem).
  rewrite concat_app. cbn [List.concat].
  rewrite app_nil_r, <- app_assoc, <- Hrem.
  exact IH.
Qed.

Lemma split_loop_reach (text : str) (L M : Z) (n : nat)
    (st st' : split_state) :
  split_reach text L M st ->
  split_loop n L M st = Some st' ->
  split_reach text L M st'.
Proof.
  revert st. induction n as [|n IH]; intros st Hr; cbn [split_loop].
  - intros E. now inversion E; subst.
  - destruct (split_cond L M st) eqn:Ec; [|intros E; now inversion E; subst].
    destruct (split_body L st) as [st1|] eqn:Eb; [|discriminate].
    cbn [bind]. apply IH. eapply reach_step; eauto.
Qed.

(** The loop stops because its condition fails, not for lack of fuel, and
    it has made at most [fuel] parts. *)
Lemma split_loop_parts (L M : Z) (n : nat) (st st' : split_state) :
  split_loop n L M st = Some st' ->
  len (msgParts st') <= len (msgParts st) + Z.of_nat n
  /\ (split_cond L M st' = false
      \/ len (msgParts st') = len (msgParts st) + Z.of_nat n).
Proof.
  revert st. induction n as [|n IH]; intros st; cbn [split_loop].
  - intros E. inversion E; subst. split; [lia|right; lia].
  - destruct (split_cond L M st) eqn:Ec.
    + destruct (split_body L st) as [st1|] eqn:Eb; [|discriminate].
      cbn [bind]. intros E. apply IH in E.
      apply split_body_inv in Eb. destruct Eb as (chunk & Hp & _).
      rewrite Hp, len_app in E. change (len [chunk]) with 1 in E.
      destruct E as [E1 [E2|E2]]; (split; [lia|]); [now left|right; lia].
    + intros E. inversion E; subst. split; [lia|now left].
Qed.

Lemma split_loop_exit (L M : Z) (text : str) (st : split_state) :
  split_loop (split_fuel M) L M {| msgParts := []; remainingText := text |}
  = Some st ->
  split_cond L M st = false.
Proof.
  intros E. apply split_loop_parts in E. cbn in E.
  destruct E as [_ [E|E]]; [exact E|].
  unfold split_cond. apply andb_false_iff. left.
  apply Z.ltb_ge. unfold split_fuel in E. change (len []) with 0 in E. lia.
Qed.

(** What the search for the cut point returns. *)
Lemma chunk_loop_spec (n : nat) (rem : str) (L : Z) (chunk : str) (w : Z) :
  GoInt.is_int L -> L <= len rem -> 0 <= w ->
  (Z.to_nat (4 - w) < n)%nat ->
  (~ (w < 4 /\ w < L) -> chunk_loop n rem L chunk w = Some chunk)
  /\ (w < 4 /\ w < L ->
      exists j : Z,
        w <= j < 4 /\ j < L
        /\ chunk_loop n rem L chunk w = Some (firstn (Z.to_nat (L - j)) rem)
        /\ (forall j' : Z, w <= j' < j ->
              isRuneError (utf8.DecodeLastRuneInString
                             (firstn (Z.to_nat (L - j')) rem)) = true)
        /\ (isRuneError (utf8.DecodeLastRuneInString
                           (firstn (Z.to_nat (L - j)) rem)) = true ->
            j = 3 \/ j = L - 1)).
Proof.
  intros Hint Hlen. revert chunk w.
  induction n as [|n IH]; intros chunk w Hw Hn; [lia|].
  cbn [chunk_loop].
  destruct (Z.ltb_spec w 4) as [H4|H4], (Z.ltb_spec w L) as [HL|HL];
    cbn [andb]; split; try lia; try reflexivity; intros _.
  assert (Hsub : GoInt.sub L w = L - w).
  { apply wrap_small.
    unfold GoInt.is_int, GoInt.minInt, GoInt.maxInt, GoInt.intSize in *. lia. }
  assert (Hadd : GoInt.add w 1 = w + 1).
  { apply wrap_small.
    unfold GoInt.is_int, GoInt.minInt, GoInt.maxInt, GoInt.intSize in *. lia. }
  rewrite Hsub, slice_to_Some by lia. cbn [bind].
  destruct (isRuneError _) eqn:E.
  - rewrite Hadd.
    destruct (IH (firstn (Z.to_nat (L - w)) rem) (w + 1)) as [Hstop Hgo];
      try lia.
    destruct (Z.lt_ge_cases (w + 1) 4) as [H4'|H4'];
      [destruct (Z.lt_ge_cases (w + 1) L) as [HL'|HL']|].
    + destruct Hgo as (j & Hj & HjL & Hr & Hbad & Hend); [lia|].
      exists j. repeat split; try lia; try assumption.
      intros j' Hj'. destruct (Z.eq_dec j' w) as [->|Hne]; [exact E|].
      apply Hbad. lia.
    + exists w. rewrite Hstop by lia.
      repeat split; try lia; reflexivity.
    + exists w. rewrite Hstop by lia.
      repeat split; try lia; reflexivity.
  - exists w. repeat split; try lia; try reflexivity. congruence.
Qed.

Lemma split_body_spec (L : Z) (st : split_state) :
  GoInt.is_int L -> len (remainingText st) > L ->
  exists chunk rest : str,
    split_body L st
    = Some {| msgParts := msgParts st ++ [chunk]; remainingText := rest |}
    /\ remainingText st = chunk ++ rest
    /\ chunk_loop 5 (remainingText st) L [] 0 = Some chunk
    /\ len chunk <= Z.max L 0
    /\ (1 <= L -> 1 <= len chunk).
Proof.
  intros Hint Hlong. unfold split_body.
  destruct (chunk_loop_spec 5 (remainingText st) L [] 0) as [Hstop Hgo];
    try assumption; try lia.
  assert (Hc : exists chunk : str,
             chunk_loop 5 (remainingText st) L [] 0 = Some chunk
             /\ (exists k : nat, (k <= List.length (remainingText st))%nat
                                 /\ chunk = firstn k (remainingText st))
             /\ len chunk <= Z.max L 0
             /\ (1 <= L -> 1 <= len chunk)).
  { destruct (Z.lt_ge_cases 0 L) as [Hpos|Hneg].
    - destruct Hgo as (j & Hj & HjL & Hr & _); [lia|].
      eexists. split; [exact Hr|]. rewrite len_firstn by lia.
      split; [|lia]. eexists. split; [|reflexivity]. unfold len in *. lia.
    - exists []. split; [apply Hstop; lia|]. change (len []) with 0.
      split; [|lia]. exists O. split; [lia|reflexivity]. }
  destruct Hc as (chunk & Ec & (k & Hk & Hpre) & Hle & Hge).
  rewrite Ec. cbn [bind].
  assert (Hlk : len chunk = Z.of_nat k).
  { subst chunk. unfold len. rewrite length_firstn. lia. }
  rewrite slice_from_Some by (unfold len in *; lia). cbn [bind].
  exists chunk, (skipn (Z.to_nat (len chunk)) (remainingText st)).
  repeat split; try assumption.
  rewrite Hlk, Nat2Z.id. subst chunk. symmetry. apply firstn_skipn.
Qed.

(** The loop itself never panics. *)
Lemma split_loop_total (L M : Z) (n : nat) (st : split_state) :
  GoInt.is_int L -> exists st' : split_state, split_loop n L M st = Some st'.
Proof.
  intros Hint. revert st. induction n as [|n IH]; intros st; cbn [split_loop].
  - eauto.
  - destruct (split_cond L M st) eqn:Ec; [|eauto].
    unfold split_cond in Ec. apply andb_true_iff in Ec.
    destruct Ec as [_ Ec]. apply Z.gtb_lt in Ec.
    destruct (split_body_spec L st) as (chunk & rest & -> & _);
      [assumption|lia|].
    cbn [bind]. apply IH.
Qed.

(** [splitMax-1] when it does not wrap around. *)
Lemma split_fuel_le_1 (M : Z) :
  GoInt.minInt < M -> M <= 1 ->
  GoInt.sub M 1 = M - 1 /\ split_fuel M = O.
Proof.
  intros Hmin Hle.
  assert (Hsub : GoInt.sub M 1 = M - 1).
  { apply wrap_small.
    unfold GoInt.is_int, GoInt.minInt, GoInt.maxInt, GoInt.intSize in *. lia. }
  split; [exact Hsub|]. unfold split_fuel. rewrite Hsub. lia.
Qed.

Lemma ClipOrSplitMessage_no_split (text : str) (L : Z) (cm : str) (M : Z) :
  GoInt.minInt < M -> M <= 1 ->
  ClipOrSplitMessage text L cm M = clipOnly text L cm.
Proof.
  intros Hmin Hle. destruct (split_fuel_le_1 M Hmin Hle) as [_ Hfuel].
  unfold ClipOrSplitMessage, clipOnly. rewrite Hfuel. cbn.
  destruct (ClipMessage text L cm); reflexivity.
Qed.

(** C9, as amended: for every [splitMax <= 1] other than the least [int]
    (for which [splitMax-1] wraps around to the greatest),
    [ClipOrSplitMessage] does not enter its splitting loop and returns the
    one fragment [ClipMessage(text, length, clippingMessage)], panicking
    exactly when [ClipMessage] does. *)
Theorem C9_no_split_when_splitMax_le_1 (text : str) (length : Z) (cm : str)
    (splitMax : Z) :
  GoInt.minInt < splitMax -> splitMax <= 1 ->
  split_cond length splitMax {| msgParts := []; remainingText := text |}
  = false
  /\ ClipOrSplitMessage text length cm splitMax = clipOnly text length cm.
Proof.
  intros Hmin Hle. destruct (split_fuel_le_1 splitMax Hmin Hle) as [Hsub Hfuel].
  split.
  - unfold split_cond. cbn [msgParts]. rewrite Hsub. change (len []) with 0.
    destruct (Z.ltb_spec 0 (splitMax - 1)) as [Hlt|_]; [lia|reflexivity].
  - unfold ClipOrSplitMessage, clipOnly. rewrite Hfuel.
    cbn [split_loop bind remainingText msgParts app].
    destruct (ClipMessage text length cm) as [c|]; reflexivity.
Qed.

Lemma C9_witness :
  (GoInt.minInt < 1 /\ 1 <= 1)
  /\ split_cond 8 1 {| msgParts := []; remainingText := bs "hello world" |}
     = false
  /\ ClipOrSplitMessage (bs "hello world") 8 (bs "...") 1
     = clipOnly (bs "hello world") 8 (bs "...").
Proof.
  split.
  - split; [reflexivity|lia].
  - apply (C9_no_split_when_splitMax_le_1 (bs "hello world") 8 (bs "...") 1).
    + reflexivity.
    + lia.
Defined.

(** C9 as stated fails at the least [int]: [splitMax-1] wraps around, the
    loop runs and the text is split in three. *)
Lemma C9_counterexample :
  GoInt.is_int GoInt.minInt /\ GoInt.minInt <= 1
  /\ ClipOrSplitMessage (bs "abcdef") 2 (bs "_") GoInt.minInt
     = Some [bs "ab"; bs "cd"; bs "ef"]
  /\ clipOnly (bs "abcdef") 2 (bs "_") = Some [bs "a_"].
Proof.
  split; [split; discriminate|]. split; [discriminate|]. split.
  - lazy. reflexivity.
  - vm_compute. reflexivity.
Qed.

Lemma ClipMessage_inv (text : str) (L : Z) (cm y : str) :
  ClipMessage text L cm = Some y ->
  (len text <= L /\ y = text)
  \/ (L < len text
      /\ exists t t' : str,
          slice_to text (GoInt.sub L (len (effectiveClippingMessage cm)))
          = Some t
          /\ clip_backup (List.length t) t = Some t'
          /\ y = t' ++ effectiveClippingMessage cm).
Proof.
  unfold ClipMessage.
  destruct (Z.gtb_spec (len text) L) as [Hlong|Hshort].
  - destruct (slice_to text _) as [t|] eqn:Es; [|discriminate]. cbn [bind].
    destruct (clip_backup _ t) as [t'|] eqn:Eb; [|discriminate]. cbn [bind].
    intros E. inversion E. right. split; [lia|].
    exists t, t'. repeat split. exact Eb.
  - intros E. inversion E; subst y. left. split; [lia|reflexivity].
Qed.

(** With a budget smaller than the marker, clipping a text that is too
    long panics: the bound of [text[:length-len(clippingMessage)]] is
    negative. *)
Lemma ClipMessage_panics (text : str) (L : Z) (cm : str) :
  GoInt.is_int L ->
  len text + len (effectiveClippingMessage cm) <= GoInt.maxInt ->
  L < len (effectiveClippingMessage cm) ->
  len text > L ->
  ClipMessage text L cm = None.
Proof.
  intros Hint Hfit Hcm Hlong.
  destruct (ClipMessage text L cm) as [y|] eqn:E; [|reflexivity].
  apply ClipMessage_inv in E. destruct E as [[E _]|(_ & t & _ & Es & _)];
    [lia|].
  apply slice_to_Some_inv in Es. destruct Es as [Hk _]. exfalso.
  pose proof (len_nonneg text).
  revert Hk. unfold GoInt.sub, GoInt.wrap.
  unfold GoInt.is_int, GoInt.minInt, GoInt.maxInt, GoInt.intSize in *.
  change (2 ^ (64 - 1)) with 9223372036854775808 in *.
  change (2 ^ 64) with 18446744073709551616 in *.
  intros Hk. Z.div_mod_to_equations. lia.
Qed.

Lemma ClipOrSplitMessage_inv (text : str) (L : Z) (cm : str) (M : Z)
    (r : list str) :
  ClipOrSplitMessage text L cm M = Some r ->
  exists (st : split_state) (last : str),
    split_loop (split_fuel M) L M {| msgParts := []; remainingText := text |}
    = Some st
    /\ ClipMessage (remainingText st) L cm = Some last
    /\ r = msgParts st ++ [last].
Proof.
  unfold ClipOrSplitMessage.
  destruct (split_loop _ L M _) as [st|] eqn:El; [|discriminate].
  cbn [bind].
  destruct (ClipMessage _ L cm) as [last|] eqn:Ec; [|discriminate].
  cbn [bind]. intros E. inversion E. exists st, last. auto.
Qed.

Lemma concat_substrings (parts : list str) (before after : str) :
  Forall (fun piece => substring_of piece
                         (before ++ List.concat parts ++ after)) parts.
Proof.
  revert before. induction parts as [|p parts IH]; intros before;
    constructor.
  - exists before, (List.concat parts ++ after). cbn [List.concat].
    now rewrite <- app_assoc.
  - specialize (IH (before ++ p)). cbn [List.concat].
    now rewrite <- !app_assoc in *.
Qed.

(** C2: the loop invariant of [ClipOrSplitMessage] holds at every
    iteration (the parts made so far followed by the remaining text are
    the original text); hence the pieces emitted before the final clipped
    one are contiguous parts of the input whose concatenation, in order,
    is a prefix of it; and the loop body never panics for a budget of type
    [int], so the loop runs to the end. *)
Theorem C2_split_loses_no_text (text : str) (length : Z) (cm : str)
    (splitMax : Z) :
  (forall st : split_state,
      split_reach text length splitMax st ->
      List.concat (msgParts st) ++ remainingText st = text)
  /\ (forall r : list str,
        ClipOrSplitMessage text length cm splitMax = Some r ->
        exists (st : split_state) (last : str),
          split_reach text length splitMax st
          /\ split_cond length splitMax st = false
          /\ r = msgParts st ++ [last]
          /\ ClipMessage (remainingText st) length cm = Some last
          /\ text = List.concat (msgParts st) ++ remainingText st
          /\ Forall (fun piece => substring_of piece text) (msgParts st))
  /\ (GoInt.is_int length ->
      (forall st : split_state,
          split_cond length splitMax st = true ->
          exists st' : split_state, split_body length st = Some st')
      /\ exists st : split_state,
           split_loop (split_fuel splitMax) length splitMax
             {| msgParts := []; remainingText := text |} = Some st).
Proof.
  split; [|split].
  - intros st. apply split_reach_invariant.
  - intros r E. apply ClipOrSplitMessage_inv in E.
    destruct E as (st & last & Eloop & Eclip & ->).
    exists st, last.
    assert (Hr : split_reach text length splitMax st).
    { eapply split_loop_reach; [apply reach_init|exact Eloop]. }
    pose proof (split_reach_invariant _ _ _ _ Hr) as Hinv.
    repeat split; try assumption.
    + eapply split_loop_exit; exact Eloop.
    + now symmetry.
    + rewrite <- Hinv. apply (concat_substrings (msgParts st) []).
  - intros Hint. split; [|now apply split_loop_total].
    intros st Hc. unfold split_cond in Hc. apply andb_true_iff in Hc.
    destruct Hc as [_ Hc]. apply Z.gtb_lt in Hc.
    destruct (split_body_spec length st) as (chunk & rest & -> & _);
      [assumption|lia|eauto].
Qed.

Lemma C2_witness :
  exists (st : split_state) (last : str),
    split_reach (bs "abcdefghij") 4 3 st
    /\ split_cond 4 3 st = false
    /\ [bs "abcd"; bs "efgh"; bs "ij"] = msgParts st ++ [last]
    /\ ClipMessage (remainingText st) 4 (bs "_") = Some last
    /\ bs "abcdefghij" = List.concat (msgParts st) ++ remainingText st
    /\ Forall (fun piece => substring_of piece (bs "abcdefghij"))
         (msgParts st).
Proof.
  apply (proj1 (proj2
           (C2_split_loses_no_text (bs "abcdefghij") 4 (bs "_") 3))).
  vm_compute. reflexivity.
Defined.

(** ** The number of parts *)

(** C6, as amended: for [splitMax >= 1], whenever [ClipOrSplitMessage]
    returns, it returns at least one and at most [splitMax] fragments; for
    [splitMax <= 0] (the least [int] apart) it returns one fragment; and
    it does return when the budget leaves room for the marker. *)
Theorem C6_parts_bounded (text : str) (length : Z) (cm : str)
    (splitMax : Z) :
  GoInt.is_int length -> GoInt.is_int splitMax ->
  (1 <= splitMax ->
   forall r : list str,
     ClipOrSplitMessage text length cm splitMax = Some r ->
     1 <= len r <= splitMax)
  /\ (GoInt.minInt < splitMax -> splitMax <= 0 ->
      forall r : list str,
        ClipOrSplitMessage text length cm splitMax = Some r -> len r = 1)
  /\ (len (effectiveClippingMessage cm) <= length ->
      exists r : list str,
        ClipOrSplitMessage text length cm splitMax = Some r).
Proof.
  intros HintL HintM. split; [|split].
  - intros HM r E. apply ClipOrSplitMessage_inv in E.
    destruct E as (st & last & Eloop & _ & ->).
    apply split_loop_parts in Eloop. destruct Eloop as [Hle _].
    cbn in Hle. change (len []) with 0 in Hle.
    rewrite len_app. change (len [last]) with 1.
    pose proof (len_nonneg (msgParts st)).
    unfold split_fuel, GoInt.sub in Hle. rewrite wrap_small in Hle.
    + lia.
    + unfold GoInt.is_int, GoInt.minInt, GoInt.maxInt, GoInt.intSize in *.
      lia.
  - intros Hmin HM r.
    rewrite ClipOrSplitMessage_no_split by lia. unfold clipOnly.
    destruct (ClipMessage text length cm) as [c|]; [|discriminate].
    cbn [bind]. intros E. inversion E. reflexivity.
  - intros Hcm. unfold ClipOrSplitMessage.
    destruct (split_loop_total length splitMax (split_fuel splitMax)
                {| msgParts := []; remainingText := text |}) as (st & ->);
      [assumption|].
    cbn [bind].
    destruct (ClipMessage_total (remainingText st) length cm) as (y & ->);
      try assumption.
    cbn [bind]. eauto.
Qed.

Lemma C6_witness :
  1 <= len [bs "abcd"; bs "efgh"; bs "ij"] <= 3
  /\ len [bs "a"] = 1
  /\ exists r : list str,
       ClipOrSplitMessage (bs "abcdefghij") 4 (bs "_") 3 = Some r.
Proof.
  split; [|split].
  - destruct (C6_parts_bounded (bs "abcdefghij") 4 (bs "_") 3) as (H & _).
    + vm_compute. split; discriminate.
    + vm_compute. split; discriminate.
    + apply H; [lia|]. vm_compute. reflexivity.
  - destruct (C6_parts_bounded (bs "a") 5 [] 0) as (_ & H & _).
    + vm_compute. split; discriminate.
    + vm_compute. split; discriminate.
    + apply H; [reflexivity|lia|]. vm_compute. reflexivity.
  - destruct (C6_parts_bounded (bs "abcdefghij") 4 (bs "_") 3)
      as (_ & _ & H).
    + vm_compute. split; discriminate.
    + vm_compute. split; discriminate.
    + apply H. vm_compute. discriminate.
Defined.

(** C6 as stated fails for [splitMax = 0]: one fragment is returned, more
    than [splitMax]. *)
Lemma C6_counterexample :
  ClipOrSplitMessage (bs "a") 5 [] 0 = Some [bs "a"]
  /\ ~ (1 <= len [bs "a"] <= 0).
Proof.
  split; [vm_compute; reflexivity|]. unfold len. simpl. lia.
Qed.

(** ** A budget without room for the marker *)

(** C4, as amended: for a text longer than the budget, when the budget is
    smaller than the byte length of the effective marker [ClipMessage]
    does not return, the Go run time panics on the negative slice bound;
    [ClipOrSplitMessage] panics in the same way exactly when the text left
    by its splitting loop is still longer than the budget, as it is when
    [splitMax <= 1].  When the budget equals the length of the marker
    nothing is reported: [ClipMessage] returns the marker alone. *)
Theorem C4_budget_within_marker (text : str) (length : Z) (cm : str) :
  GoInt.is_int length ->
  len text + len (effectiveClippingMessage cm) <= GoInt.maxInt ->
  len text > length ->
  (length < len (effectiveClippingMessage cm) ->
   ClipMessage text length cm = None
   /\ (forall splitMax : Z,
          GoInt.minInt < splitMax -> splitMax <= 1 ->
          ClipOrSplitMessage text length cm splitMax = None)
   /\ (forall (splitMax : Z) (st : split_state),
          split_loop (split_fuel splitMax) length splitMax
            {| msgParts := []; remainingText := text |} = Some st ->
          (ClipOrSplitMessage text length cm splitMax = None
           <-> len (remainingText st) > length)))
  /\ (length = len (effectiveClippingMessage cm) ->
      ClipMessage text length cm = Some (effectiveClippingMessage cm)).
Proof.
  intros Hint Hfit Hlong. split.
  - intros Hcm.
    assert (Hclip : ClipMessage text length cm = None)
      by now apply ClipMessage_panics.
    split; [exact Hclip|]. split.
    + intros M Hmin HM.
      rewrite (ClipOrSplitMessage_no_split text length cm M Hmin HM).
      unfold clipOnly. now rewrite Hclip.
    + intros M st Eloop. unfold ClipOrSplitMessage. rewrite Eloop.
      cbn [bind].
      assert (Hr : split_reach text length M st).
      { eapply split_loop_reach; [apply reach_init|exact Eloop]. }
      apply split_reach_invariant in Hr.
      assert (Hle : len (remainingText st) <= len text).
      { rewrite <- Hr, len_app.
        pose proof (len_nonneg (List.concat (msgParts st))). lia. }
      destruct (Z.le_gt_cases (len (remainingText st)) length) as [Hs|Hl].
      * rewrite ClipMessage_short by assumption. cbn [bind].
        split; [discriminate|lia].
      * rewrite ClipMessage_panics; try assumption; try lia.
        cbn [bind]. split; [lia|reflexivity].
  - intros Hcm. unfold ClipMessage.
    destruct (Z.gtb_spec (len text) length); [|lia].
    rewrite <- Hcm. unfold GoInt.sub. rewrite Z.sub_diag.
    change (GoInt.wrap 0) with 0.
    rewrite slice_to_Some by (pose proof (len_nonneg text); lia).
    reflexivity.
Qed.

Lemma C4_witness :
  (ClipMessage (bs "hello world") 2 (bs "...") = None
   /\ (forall splitMax : Z,
          GoInt.minInt < splitMax -> splitMax <= 1 ->
          ClipOrSplitMessage (bs "hello world") 2 (bs "...") splitMax = None)
   /\ (forall (splitMax : Z) (st : split_state),
          split_loop (split_fuel splitMax) 2 splitMax
            {| msgParts := []; remainingText := bs "hello world" |} = Some st ->
          (ClipOrSplitMessage (bs "hello world") 2 (bs "...") splitMax = None
           <-> len (remainingText st) > 2)))
  /\ ClipMessage (bs "hello") 1 (bs "_") = Some (bs "_").
Proof.
  split.
  - destruct (C4_budget_within_marker (bs "hello world") 2 (bs "..."))
      as [H _].
    + vm_compute. split; discriminate.
    + vm_compute. discriminate.
    + reflexivity.
    + apply H. reflexivity.
  - destruct (C4_budget_within_marker (bs "hello") 1 (bs "_")) as [_ H].
    + vm_compute. split; discriminate.
    + vm_compute. discriminate.
    + reflexivity.
    + apply H. reflexivity.
Defined.

(** C4 as stated fails: with a budget equal to the length of the marker
    [ClipMessage] returns the bare marker, and with a budget below it
    [ClipOrSplitMessage] returns its parts when the splitting leaves a
    remainder that fits; no error is reported in either case. *)
Lemma C4_counterexample :
  (len (bs "hello") > 1 /\ 1 <= len (effectiveClippingMessage (bs "_"))
   /\ ClipMessage (bs "hello") 1 (bs "_") = Some (bs "_"))
  /\ (len (bs "abc") > 2 /\ 2 <= len (effectiveClippingMessage [])
      /\ ClipOrSplitMessage (bs "abc") 2 [] 5 = Some [bs "ab"; bs "c"]).
Proof.
  repeat split; try discriminate; vm_compute; reflexivity.
Qed.

(** ** The decoder and the well-formed sequences *)

Lemma b2z_range (b : byte) : 0 <= b2z b < 256.
Proof. unfold b2z. pose proof (Byte.to_N_bounded b). lia. Qed.

Lemma len_cons {A : Type} (a : A) (s : list A) : len (a :: s) = 1 + len s.
Proof. unfold len. cbn [List.length]. lia. Qed.

(** The classes of first bytes. *)
Lemma first_cases (z : Z) :
  0 <= z < 256 ->
  (z < 0x80 /\ utf8.first z = utf8.as_)
  \/ ((0x80 <= z < 0xC2 \/ 0xF5 <= z) /\ utf8.first z = utf8.xx)
  \/ (0xC2 <= z < 0xE0 /\ utf8.first z = utf8.s1)
  \/ (z = 0xE0 /\ utf8.first z = utf8.s2)
  \/ ((0xE1 <= z < 0xED \/ 0xEE <= z < 0xF0) /\ utf8.first z = utf8.s3)
  \/ (z = 0xED /\ utf8.first z = utf8.s4)
  \/ (z = 0xF0 /\ utf8.first z = utf8.s5)
  \/ (0xF1 <= z < 0xF4 /\ utf8.first z = utf8.s6)
  \/ (z = 0xF4 /\ utf8.first z = utf8.s7).
Proof.
  intros H. unfold utf8.first.
  repeat match goal with
  | |- context [Z.ltb ?a ?b] => destruct (Z.ltb_spec a b)
  | |- context [Z.eqb ?a ?b] => destruct (Z.eqb_spec a b)
  end; intuition lia.
Qed.

(** Case analysis on the comparisons of the goal, closing the impossible
    cases by arithmetic. *)
Ltac cmp_cases :=
  repeat (match goal with
  | |- context [Z.ltb ?a ?b] => destruct (Z.ltb_spec a b)
  | |- context [Z.leb ?a ?b] => destruct (Z.leb_spec a b)
  | |- context [Z.eqb ?a ?b] => destruct (Z.eqb_spec a b)
  end; try lia; cbn [andb orb negb]).

(** Evaluate the table entries of a class [x] of first bytes. *)
Ltac eval_closed t := let v := eval vm_compute in t in change t with v.

Ltac norm_class x :=
  eval_closed (x >=? utf8.as_);
  eval_closed (Z.testbit x 0);
  eval_closed (Z.land x 7);
  eval_closed (utf8.lo (utf8.acceptRanges (Z.shiftr x 4)));
  eval_closed (utf8.hi (utf8.acceptRanges (Z.shiftr x 4)));
  cbv beta iota.

(** Case analysis on the next byte of the string, when there is one. *)
Ltac shape :=
  match goal with
  | |- context [match ?t with nil => _ | cons _ _ => _ end] =>
      is_var t;
      let b := fresh "b" in let t' := fresh "t" in
      destruct t as [|b t'];
      [|pose proof (b2z_range b); pose proof (len_nonneg t')];
      cbn [nth]; rewrite ?len_cons; change (len (@nil byte)) with 0
  end.

(** [DecodeRuneInString], with its tables, decodes exactly the well-formed
    sequences. *)
Lemma DecodeRune_eq (s : str) : utf8.DecodeRuneInString s = decode_spec s.
Proof.
  destruct s as [|b0 t0]; [reflexivity|].
  unfold utf8.DecodeRuneInString, decode_spec.
  pose proof (b2z_range b0) as R0.
  pose proof (len_nonneg t0) as Ht0.
  rewrite len_cons.
  destruct (Z.ltb_spec (1 + len t0) 1) as [?|_]; [lia|].
  unfold wf2, wf3, wf4, is_cont, in_range, rune2, rune3, rune4, at_.
  change (Z.to_nat 0) with 0%nat. change (Z.to_nat 1) with 1%nat.
  change (Z.to_nat 2) with 2%nat. change (Z.to_nat 3) with 3%nat.
  cbn [nth]. unfold utf8.locb, utf8.hicb.
  destruct (first_cases (b2z b0) R0)
    as [[C ->]|[[C ->]|[[C ->]|[[C ->]|[[C ->]|[[C ->]|[[C ->]|[[C ->]
       |[C ->]]]]]]]]].
  - norm_class utf8.as_.
    rewrite Z.land_0_r, Z.lor_0_r. change (Z.lnot 0) with (-1).
    rewrite Z.land_m1_r. cmp_cases. reflexivity.
  - norm_class utf8.xx. change (Z.lnot (-1)) with 0.
    rewrite Z.land_0_r, Z.lor_0_l, Z.land_m1_r.
    repeat shape; cmp_cases; reflexivity.
  - norm_class utf8.s1.
    repeat shape; cmp_cases; try reflexivity.
  - norm_class utf8.s2.
    repeat shape; cmp_cases; try reflexivity.
  - norm_class utf8.s3.
    repeat shape; cmp_cases; try reflexivity.
  - norm_class utf8.s4.
    repeat shape; cmp_cases; try reflexivity.
  - norm_class utf8.s5.
    repeat shape; cmp_cases; try reflexivity.
  - norm_class utf8.s6.
    repeat shape; cmp_cases; try reflexivity.
  - norm_class utf8.s7.
    repeat shape; cmp_cases; try reflexivity.
Qed.

(** Turn the boolean conditions of the hypotheses into arithmetic. *)
Ltac wf_hyps :=
  unfold wf2, wf3, wf4, is_cont, in_range in *;
  repeat match goal with
  | H : _ && _ = true |- _ => apply andb_true_iff in H; destruct H
  | H : _ || _ = true |- _ => apply orb_true_iff in H; destruct H
  | H : _ && _ = false |- _ => apply andb_false_iff in H; destruct H
  | H : _ || _ = false |- _ => apply orb_false_iff in H; destruct H
  | H : (_ <=? _) = true |- _ => apply Z.leb_le in H
  | H : (_ <=? _) = false |- _ => apply Z.leb_gt in H
  | H : (_ <? _) = true |- _ => apply Z.ltb_lt in H
  | H : (_ <? _) = false |- _ => apply Z.ltb_ge in H
  | H : (_ =? _) = true |- _ => apply Z.eqb_eq in H
  | H : (_ =? _) = false |- _ => apply Z.eqb_neq in H
  end.

(** The same for the goal. *)
Ltac wf_goal :=
  unfold wf2, wf3, wf4, is_cont, in_range; cmp_cases.

Lemma wf2_lead (z0 z1 : Z) :
  wf2 z0 z1 = true -> (z0 <? 0x80) = false /\ is_cont z1 = true
                      /\ is_cont z0 = false.
Proof. intros H. wf_hyps. repeat split; wf_goal; reflexivity. Qed.

Lemma wf3_lead (z0 z1 z2 : Z) :
  wf3 z0 z1 z2 = true ->
  (z0 <? 0x80) = false /\ (forall y, wf2 z0 y = false)
  /\ is_cont z1 = true /\ is_cont z2 = true /\ is_cont z0 = false.
Proof.
  intros H. wf_hyps; repeat split; intros; wf_goal; reflexivity.
Qed.

Lemma wf4_lead (z0 z1 z2 z3 : Z) :
  wf4 z0 z1 z2 z3 = true ->
  (z0 <? 0x80) = false /\ (forall y, wf2 z0 y = false)
  /\ (forall y y', wf3 z0 y y' = false)
  /\ is_cont z1 = true /\ is_cont z2 = true /\ is_cont z3 = true
  /\ is_cont z0 = false.
Proof.
  intros H. wf_hyps; repeat split; intros; wf_goal; reflexivity.
Qed.

(** The shapes of a character. *)
Lemma is_char_cases (c : str) :
  is_char c = true ->
  (exists b0, c = [b0] /\ (b2z b0 <? 0x80) = true)
  \/ (exists b0 b1, c = [b0; b1] /\ wf2 (b2z b0) (b2z b1) = true)
  \/ (exists b0 b1 b2, c = [b0; b1; b2]
                       /\ wf3 (b2z b0) (b2z b1) (b2z b2) = true)
  \/ (exists b0 b1 b2 b3, c = [b0; b1; b2; b3]
        /\ wf4 (b2z b0) (b2z b1) (b2z b2) (b2z b3) = true).
Proof.
  destruct c as [|b0 [|b1 [|b2 [|b3 [|b4 c]]]]]; cbn [is_char];
    try discriminate; intros H.
  - left. eauto.
  - right. left. eauto.
  - right. right. left. eauto.
  - right. right. right. eauto 6.
Qed.

(** Case analysis on the length of a character. *)
Ltac char_cases H :=
  apply is_char_cases in H;
  destruct H as [(?b & -> & H)|[(?b & ?b & -> & H)|[(?b & ?b & ?b & -> & H)
                |(?b & ?b & ?b & ?b & -> & H)]]].

Lemma decode_spec_char (c s : str) :
  is_char c = true ->
  decode_spec (c ++ s) = decode_spec c /\ snd (decode_spec c) = len c.
Proof.
  intros H. char_cases H; cbn [app decode_spec].
  - rewrite H. split; reflexivity.
  - destruct (wf2_lead _ _ H) as (-> & _). rewrite H. split; reflexivity.
  - destruct (wf3_lead _ _ _ H) as (-> & E2 & _). rewrite E2, H.
    split; reflexivity.
  - destruct (wf4_lead _ _ _ _ H) as (-> & E2 & E3 & _). rewrite E2, E3, H.
    split; reflexivity.
Qed.

Lemma is_char_len (c : str) : is_char c = true -> 1 <= len c <= 4.
Proof. intros H. char_cases H; unfold len; cbn; lia. Qed.

Lemma decode_spec_size (s : str) :
  s <> [] -> 1 <= snd (decode_spec s) <= 4 /\ snd (decode_spec s) <= len s.
Proof.
  intros Hs. destruct s as [|b0 t0]; [congruence|]. clear Hs.
  unfold decode_spec.
  repeat (match goal with
          | |- context [match ?t with nil => _ | cons _ _ => _ end] =>
              is_var t; destruct t
          | |- context [if ?c then _ else _] => destruct c
          end; rewrite ?len_cons; cbn [snd]);
    repeat match goal with |- context [len ?t] =>
             is_var t; pose proof (len_nonneg t);
             generalize dependent (len t); intros
           end;
    change (len (@nil byte)) with 0; lia.
Qed.

(** A decoding that consumes the whole string and is not an error is the
    decoding of a character. *)
Lemma decode_spec_full (t : str) :
  t <> [] ->
  snd (decode_spec t) = len t ->
  (fst (decode_spec t) = utf8.RuneError -> snd (decode_spec t) <> 1) ->
  is_char t = true.
Proof.
  destruct t as [|b0 [|b1 [|b2 [|b3 [|b4 t]]]]]; unfold decode_spec, is_char;
    repeat match goal with
           | |- context [if ?c then _ else _] => destruct c eqn:?
           end; cbn [fst snd]; unfold len; cbn [List.length];
    intros H0 H1 H2; try reflexivity; try congruence; try lia;
    try (exfalso; apply H2; reflexivity).
Qed.

Lemma char_head (c : str) :
  is_char c = true ->
  exists b t, c = b :: t /\ is_cont (b2z b) = false
              /\ Forall (fun x => is_cont (b2z x) = true) t.
Proof.
  intros H. char_cases H.
  - exists b, []. repeat split; [|constructor].
    apply Z.ltb_lt in H. wf_goal; reflexivity.
  - destruct (wf2_lead _ _ H) as (_ & ? & ?).
    exists b, [b0]. repeat split; auto.
  - destruct (wf3_lead _ _ _ H) as (_ & _ & ? & ? & ?).
    exists b, [b0; b1]. repeat split; auto.
  - destruct (wf4_lead _ _ _ _ H) as (_ & _ & _ & ? & ? & ? & ?).
    exists b, [b0; b1; b2]. repeat split; auto.
Qed.

(** No character is a prefix of another. *)
Lemma char_prefix_unique (c c' q q' : str) :
  is_char c = true -> is_char c' = true -> c ++ q = c' ++ q' ->
  c = c' /\ q = q'.
Proof.
  intros H H' E.
  destruct (decode_spec_char c q H) as [E1 E2].
  destruct (decode_spec_char c' q' H') as [E1' E2'].
  assert (El : len c = len c').
  { rewrite <- E2, <- E2', <- E1, <- E1', E. reflexivity. }
  assert (List.length c = List.length c') by (unfold len in El; lia).
  split.
  - apply (f_equal (firstn (List.length c))) in E.
    rewrite firstn_app, firstn_all, Nat.sub_diag, firstn_O, app_nil_r in E.
    rewrite H0, firstn_app, firstn_all, Nat.sub_diag, firstn_O, app_nil_r
      in E. exact E.
  - apply (f_equal (skipn (List.length c))) in E.
    rewrite skipn_app, skipn_all, Nat.sub_diag in E. cbn in E.
    rewrite H0, skipn_app, skipn_all, Nat.sub_diag in E. cbn in E. exact E.
Qed.

(** An incomplete character does not decode. *)
Lemma decode_spec_incomplete (q q' : str) :
  is_char (q ++ q') = true -> q <> [] -> q' <> [] ->
  decode_spec q = (utf8.RuneError, 1).
Proof.
  intros H Hq Hq'.
  remember (q ++ q') as c eqn:Ec. char_cases H.
  - destruct q as [|? [|]]; destruct q'; cbn in Ec; congruence.
  - destruct (wf2_lead _ _ H) as (E1 & _).
    destruct q as [|x [|y q]];
      [congruence|
      |destruct q, q'; cbn in Ec; try congruence; discriminate].
    cbn in Ec. inversion Ec; subst. cbn. now rewrite E1.
  - destruct (wf3_lead _ _ _ H) as (E1 & E2 & _).
    destruct q as [|x [|y [|z q]]];
      [congruence| |
      |destruct q, q'; cbn in Ec; try congruence; discriminate];
    cbn in Ec; inversion Ec; subst; cbn; now rewrite E1, ?E2.
  - destruct (wf4_lead _ _ _ _ H) as (E1 & E2 & E3 & _).
    destruct q as [|x [|y [|z [|u q]]]];
      [congruence| | |
      |destruct q, q'; cbn in Ec; try congruence; discriminate];
    cbn in Ec; inversion Ec; subst; cbn; now rewrite E1, ?E2, ?E3.
Qed.

(** ** Valid strings *)

Lemma is_char_nonempty (c : str) : is_char c = true -> c <> [].
Proof. destruct c; [discriminate|discriminate]. Qed.

Lemma wf_one (c : str) : is_char c = true -> wf_utf8 c.
Proof.
  intros H. rewrite <- (app_nil_r c). apply wf_char; [exact H|constructor].
Qed.

Lemma valid_utf8_wf (s : str) : valid_utf8 s = true -> wf_utf8 s.
Proof.
  remember (List.length s) as n eqn:En.
  assert (Hn : (List.length s <= n)%nat) by lia. clear En.
  revert s Hn. induction n as [|n IH]; intros s Hn.
  - destruct s; [constructor|cbn in Hn; lia].
  - destruct s as [|b0 t0]; [constructor|]. cbn [valid_utf8]. cbn in Hn.
    destruct (b2z b0 <? 0x80) eqn:E0.
    { intros H. apply (wf_char [b0]); [exact E0|apply IH; [lia|exact H]]. }
    destruct t0 as [|b1 t1]; [discriminate|]. cbn in Hn.
    destruct (wf2 _ _) eqn:E2.
    { intros H. apply (wf_char [b0; b1]); [exact E2|apply IH; [lia|exact H]]. }
    destruct t1 as [|b2 t2]; [discriminate|]. cbn in Hn.
    destruct (wf3 _ _ _) eqn:E3.
    { intros H. apply (wf_char [b0; b1; b2]);
        [exact E3|apply IH; [lia|exact H]]. }
    destruct t2 as [|b3 t3]; [discriminate|]. cbn in Hn.
    destruct (wf4 _ _ _ _) eqn:E4; [|discriminate].
    intros H. apply (wf_char [b0; b1; b2; b3]);
      [exact E4|apply IH; [lia|exact H]].
Qed.

Lemma wf_valid_utf8 (s : str) : wf_utf8 s -> valid_utf8 s = true.
Proof.
  induction 1 as [|c s Hc _ IH]; [reflexivity|].
  char_cases Hc; cbn [app valid_utf8].
  - now rewrite Hc.
  - destruct (wf2_lead _ _ Hc) as (-> & _). now rewrite Hc.
  - destruct (wf3_lead _ _ _ Hc) as (-> & E2 & _). now rewrite E2, Hc.
  - destruct (wf4_lead _ _ _ _ Hc) as (-> & E2 & E3 & _).
    now rewrite E2, E3, Hc.
Qed.

Lemma valid_utf8_iff (s : str) : valid_utf8 s = true <-> wf_utf8 s.
Proof. split; [apply valid_utf8_wf|apply wf_valid_utf8]. Qed.

Lemma wf_app (p q : str) : wf_utf8 p -> wf_utf8 q -> wf_utf8 (p ++ q).
Proof.
  induction 1 as [|c s Hc _ IH]; intros Hq; [exact Hq|].
  rewrite <- app_assoc. apply wf_char; auto.
Qed.

Lemma wf_char_inv (c s : str) :
  is_char c = true -> wf_utf8 (c ++ s) -> wf_utf8 s.
Proof.
  intros Hc H. remember (c ++ s) as t eqn:Et.
  destruct H as [|c' s' Hc' Hs'].
  - apply is_char_nonempty in Hc. destruct c; [congruence|discriminate].
  - symmetry in Et.
    destruct (char_prefix_unique c c' s s' Hc Hc' Et) as [_ ->]. exact Hs'.
Qed.

Lemma wf_app_inv_r (p q : str) :
  wf_utf8 p -> wf_utf8 (p ++ q) -> wf_utf8 q.
Proof.
  induction 1 as [|c s Hc _ IH]; intros H; [exact H|].
  rewrite <- app_assoc in H. apply wf_char_inv in H; auto.
Qed.

(** In a valid string, a byte that is not a continuation byte begins a
    character. *)
Lemma wf_split_at_start (p q : str) (b : byte) :
  is_cont (b2z b) = false -> wf_utf8 (p ++ b :: q) ->
  wf_utf8 p /\ wf_utf8 (b :: q).
Proof.
  intros Hb H. remember (p ++ b :: q) as s eqn:Es. revert p Es.
  induction H as [|c s Hc Hs IH]; intros p Es.
  - destruct p; discriminate.
  - apply app_eq_app in Es. destruct Es as (l & [[E1 E2]|[E1 E2]]).
    + destruct l as [|x l].
      * rewrite app_nil_r in E1. cbn in E2. subst.
        split; [now apply wf_one|exact Hs].
      * cbn in E2. inversion E2; subst x q; clear E2.
        destruct (char_head c Hc) as (h & t & Ec & _ & Ht).
        destruct p as [|y p].
        -- cbn in E1. split; [constructor|].
           change (wf_utf8 ((b :: l) ++ s)). rewrite <- E1.
           now apply wf_char.
        -- rewrite Ec in E1. cbn in E1. inversion E1; subst.
           rewrite Forall_forall in Ht.
           rewrite (Ht b) in Hb; [discriminate|].
           apply in_or_app. right. now left.
    + subst p. destruct (IH l E2) as [Hl Hbq].
      split; [now apply wf_char|exact Hbq].
Qed.

Lemma wf_last (s : str) :
  wf_utf8 s -> s <> [] ->
  exists p c, s = p ++ c /\ wf_utf8 p /\ is_char c = true.
Proof.
  induction 1 as [|c s Hc Hs IH]; intros Hne; [congruence|].
  destruct s as [|x s].
  - exists [], c. rewrite app_nil_r. repeat split; [constructor|exact Hc].
  - destruct IH as (p & c' & E & Hp & Hc'); [discriminate|].
    exists (c ++ p), c'. rewrite E, app_assoc.
    repeat split; [now apply wf_char|exact Hc'].
Qed.

(** A prefix that ends with a character ends where a character of the
    whole string ends. *)
Lemma wf_prefix_char (p c q : str) :
  is_char c = true -> wf_utf8 (p ++ c ++ q) ->
  wf_utf8 (p ++ c) /\ wf_utf8 q.
Proof.
  intros Hc H. destruct (char_head c Hc) as (h & t & Ec & Hh & _).
  rewrite Ec in H. cbn [app] in H.
  apply wf_split_at_start in H; [|exact Hh]. destruct H as [Hp Hcq].
  change (h :: t ++ q) with ((h :: t) ++ q) in Hcq. rewrite <- Ec in Hcq.
  split.
  - apply wf_app; [exact Hp|now apply wf_one].
  - now apply wf_char_inv in Hcq.
Qed.

Lemma wf_skipn (s : str) (j : nat) :
  wf_utf8 s -> wf_utf8 (firstn j s) -> wf_utf8 (skipn j s).
Proof.
  intros Hs Hj. apply (wf_app_inv_r (firstn j s)); [exact Hj|].
  now rewrite firstn_skipn.
Qed.

(** Among four successive offsets of a valid string there is a character
    boundary. *)
Lemma boundary_near (s : str) :
  wf_utf8 s -> forall off : Z, 0 <= off <= len s ->
  exists j : Z, 0 <= j /\ off - 3 <= j <= off
                /\ wf_utf8 (firstn (Z.to_nat j) s).
Proof.
  induction 1 as [|c s Hc Hs IH]; intros off Hoff.
  - exists 0. change (len []) with 0 in Hoff.
    repeat split; try lia. constructor.
  - pose proof (is_char_len c Hc) as Hl. rewrite len_app in Hoff.
    destruct (Z.lt_ge_cases off (len c)) as [Hlt|Hge].
    + exists 0. repeat split; try lia. constructor.
    + destruct (IH (off - len c)) as (j & Hj0 & Hj & Hw); [lia|].
      exists (len c + j). repeat split; try lia.
      replace (Z.to_nat (len c + j))
        with (List.length c + Z.to_nat j)%nat by (unfold len; lia).
      rewrite firstn_app_2. now apply wf_char.
Qed.

(** ** The last rune of a string *)

Lemma RuneStart_spec (b : byte) :
  utf8.RuneStart (b2z b) = negb (is_cont (b2z b)).
Proof. destruct b; vm_compute; reflexivity. Qed.

Lemma b2z_inj (b b' : byte) : b2z b = b2z b' -> b = b'.
Proof.
  unfold b2z. intros H. apply N2Z.inj in H.
  pose proof (Byte.of_to_N b) as E. rewrite H, Byte.of_to_N in E.
  now inversion E.
Qed.

Lemma at_app_r (p t : str) (i : Z) :
  0 <= i -> at_ (p ++ t) (len p + i) = at_ t i.
Proof.
  intros Hi. unfold at_, len.
  replace (Z.to_nat (Z.of_nat (List.length p) + i))
    with (List.length p + Z.to_nat i)%nat by lia.
  now rewrite app_nth2_plus.
Qed.

Lemma back_scan_find (fuel : nat) (s : str) (lim start j : Z) :
  lim <= j <= start -> start - j < Z.of_nat fuel ->
  utf8.RuneStart (at_ s j) = true ->
  (forall i : Z, j < i <= start -> utf8.RuneStart (at_ s i) = false) ->
  utf8.back_scan fuel s lim start = j.
Proof.
  revert start. induction fuel as [|fuel IH]; intros start Hj Hf Hs Hn;
    [lia|].
  cbn [utf8.back_scan].
  destruct (Z.geb_spec start lim) as [_|?]; [|lia].
  destruct (Z.eq_dec start j) as [->|Hne].
  - now rewrite Hs.
  - rewrite Hn by lia. apply IH; try lia; try assumption.
    intros i Hi. apply Hn. lia.
Qed.

Lemma back_scan_range (fuel : nat) (s : str) (lim start : Z) :
  Z.min start (lim - 1) <= utf8.back_scan fuel s lim start <= start.
Proof.
  revert start. induction fuel as [|fuel IH]; intros start;
    cbn [utf8.back_scan]; [lia|].
  destruct (Z.geb_spec start lim); [|lia].
  destruct (utf8.RuneStart _); [lia|].
  specialize (IH (start - 1)). lia.
Qed.

Lemma skipn_len_app (p c : str) : skipn (Z.to_nat (len p)) (p ++ c) = c.
Proof.
  unfold len. rewrite Nat2Z.id, skipn_app, skipn_all, Nat.sub_diag.
  reflexivity.
Qed.

(** The last rune of a string that ends with a character is this
    character. *)
Lemma DecodeLast_char (p c : str) :
  is_char c = true ->
  utf8.DecodeLastRuneInString (p ++ c) = decode_spec c.
Proof.
  intros Hc.
  pose proof (len_nonneg p) as Hp.
  pose proof (is_char_len c Hc) as Hl.
  destruct (decode_spec_char c [] Hc) as [_ Hsz].
  unfold utf8.DecodeLastRuneInString. rewrite len_app.
  destruct (Z.eqb_spec (len p + len c) 0); [lia|].
  replace (len p + len c - 1) with (len p + (len c - 1)) by lia.
  rewrite at_app_r by lia.
  assert (Hscan : (at_ c (len c - 1) <? utf8.RuneSelf) = false ->
     utf8.back_scan 4 (p ++ c)
       (if len p + len c - utf8.UTFMax <? 0 then 0
        else len p + len c - utf8.UTFMax)
       (len p + (len c - 1) - 1) = len p).
  { intros Hlast.
    assert (H2 : 2 <= len c).
    { destruct c as [|x [|y c]]; [discriminate| |rewrite !len_cons;
        pose proof (len_nonneg c); lia].
      cbn in Hc. change (at_ [x] (len [x] - 1)) with (b2z x) in Hlast.
      unfold utf8.RuneSelf in Hlast. congruence. }
    apply back_scan_find.
    - unfold utf8.UTFMax.
      destruct (Z.ltb_spec (len p + len c - 4) 0); lia.
    - cbn. lia.
    - replace (len p) with (len p + 0) by lia. rewrite at_app_r by lia.
      destruct (char_head c Hc) as (h & t & -> & Hh & _).
      change (at_ (h :: t) 0) with (b2z h).
      now rewrite RuneStart_spec, Hh.
    - intros i Hi. replace i with (len p + (i - len p)) by lia.
      rewrite at_app_r by lia.
      char_cases Hc; rewrite ?len_cons in Hi;
        change (len (@nil byte)) with 0 in Hi; try lia.
      + destruct (wf3_lead _ _ _ Hc) as (_ & _ & H1 & _).
        replace (i - len p) with 1 by lia.
        change (at_ [b; b0; b1] 1) with (b2z b0).
        now rewrite RuneStart_spec, H1.
      + destruct (wf4_lead _ _ _ _ Hc) as (_ & _ & _ & C1 & C2 & _).
        assert (Hi' : i - len p = 1 \/ i - len p = 2) by lia.
        destruct Hi' as [-> | ->].
        * change (at_ [b; b0; b1; b2] 1) with (b2z b0).
          now rewrite RuneStart_spec, C1.
        * change (at_ [b; b0; b1; b2] 2) with (b2z b1).
          now rewrite RuneStart_spec, C2. }
  destruct (at_ c (len c - 1) <? utf8.RuneSelf) eqn:Elast.
  - (* the last byte is ASCII: the character is this byte *)
    char_cases Hc.
    + cbn. now rewrite Hc.
    + destruct (wf2_lead _ _ Hc) as (_ & H1 & _). exfalso.
      change (at_ [b; b0] (len [b; b0] - 1)) with (b2z b0) in Elast.
      apply Z.ltb_lt in Elast. unfold utf8.RuneSelf in Elast. wf_hyps; lia.
    + destruct (wf3_lead _ _ _ Hc) as (_ & _ & _ & H1 & _). exfalso.
      change (at_ [b; b0; b1] (len [b; b0; b1] - 1)) with (b2z b1) in Elast.
      apply Z.ltb_lt in Elast. unfold utf8.RuneSelf in Elast. wf_hyps; lia.
    + destruct (wf4_lead _ _ _ _ Hc) as (_ & _ & _ & _ & _ & H1 & _).
      exfalso.
      change (at_ [b; b0; b1; b2] (len [b; b0; b1; b2] - 1)) with (b2z b2)
        in Elast.
      apply Z.ltb_lt in Elast. unfold utf8.RuneSelf in Elast. wf_hyps; lia.
  - rewrite Hscan by reflexivity.
    destruct (Z.ltb_spec (len p) 0); [lia|].
    rewrite skipn_len_app, DecodeRune_eq.
    destruct (decode_spec c) as [r size]. cbn [snd] in Hsz. subst size.
    now rewrite Z.eqb_refl.
Qed.

(** A string whose last rune is not [RuneError] ends with a character. *)
Lemma DecodeLast_ok_inv (s : str) :
  s <> [] ->
  isRuneError (utf8.DecodeLastRuneInString s) = false ->
  exists p c : str, s = p ++ c /\ is_char c = true.
Proof.
  intros Hs. destruct (exists_last Hs) as (p0 & b & ->). clear Hs.
  unfold utf8.DecodeLastRuneInString. rewrite len_app.
  change (len [b]) with 1. pose proof (len_nonneg p0) as Hp.
  destruct (Z.eqb_spec (len p0 + 1) 0); [lia|].
  replace (len p0 + 1 - 1) with (len p0 + 0) by lia.
  rewrite at_app_r by lia. change (at_ [b] 0) with (b2z b).
  destruct (b2z b <? utf8.RuneSelf) eqn:Eb.
  - intros _. exists p0, [b]. split; [reflexivity|exact Eb].
  - set (lim := if len p0 + 1 - utf8.UTFMax <? 0 then 0
                else len p0 + 1 - utf8.UTFMax).
    pose proof (back_scan_range 4 (p0 ++ [b]) lim (len p0 + 0 - 1)) as Hr.
    set (k := utf8.back_scan 4 (p0 ++ [b]) lim (len p0 + 0 - 1)) in *.
    assert (Hlim : 0 <= lim).
    { unfold lim. destruct (Z.ltb_spec (len p0 + 1 - utf8.UTFMax) 0); lia. }
    set (start := if k <? 0 then 0 else k).
    assert (Hstart : 0 <= start <= len p0).
    { unfold start. destruct (Z.ltb_spec k 0); lia. }
    rewrite DecodeRune_eq.
    set (t := skipn (Z.to_nat start) (p0 ++ [b])).
    assert (Hlt : len t = len p0 + 1 - start).
    { unfold t, len. rewrite length_skipn, length_app. cbn.
      unfold len in Hstart. lia. }
    destruct (decode_spec t) as [r size] eqn:Et.
    destruct (Z.eqb_spec (start + size) (len p0 + 1)) as [Esz|_];
      cbn [negb]; [|discriminate].
    unfold isRuneError. cbn [fst]. intros Hr'. apply Z.eqb_neq in Hr'.
    exists (firstn (Z.to_nat start) (p0 ++ [b])), t. split.
    + unfold t. now rewrite firstn_skipn.
    + apply decode_spec_full.
      * intros E. rewrite E in Hlt. change (len []) with 0 in Hlt. lia.
      * rewrite Et. cbn. lia.
      * rewrite Et. cbn. intros. contradiction.
Qed.

(** In a valid string, a prefix whose last rune decodes ends at a
    character boundary. *)
Lemma DecodeLast_ok_boundary (s : str) (j : nat) :
  wf_utf8 s -> (1 <= j <= List.length s)%nat ->
  isRuneError (utf8.DecodeLastRuneInString (firstn j s)) = false ->
  wf_utf8 (firstn j s).
Proof.
  intros Hs Hj Hd. apply DecodeLast_ok_inv in Hd.
  - destruct Hd as (p & c & E & Hc). rewrite E.
    rewrite <- (firstn_skipn j s), E, <- app_assoc in Hs.
    now apply wf_prefix_char in Hs.
  - intros E. apply (f_equal (@List.length byte)) in E.
    rewrite length_firstn in E. cbn in E. lia.
Qed.

(** ** The rune of a character *)

Lemma land_shiftl_low (hi lo k : Z) :
  0 <= k -> 0 <= lo < 2 ^ k -> Z.land (Z.shiftl hi k) lo = 0.
Proof.
  intros Hk Hlo. apply Z.bits_inj'. intros n Hn.
  rewrite Z.land_spec, Z.bits_0.
  destruct (Z.lt_ge_cases n k) as [Hlt|Hge].
  - now rewrite Z.shiftl_spec_low.
  - rewrite andb_comm.
    destruct (Z.eq_dec lo 0) as [->|Hne]; [now rewrite Z.bits_0|].
    rewrite Z.bits_above_log2; [reflexivity|lia|].
    apply Z.log2_lt_pow2; [lia|].
    apply Z.lt_le_trans with (2 ^ k); [lia|].
    apply Z.pow_le_mono_r; lia.
Qed.

Lemma lor_shiftl_add (hi lo k : Z) :
  0 <= k -> 0 <= lo < 2 ^ k -> Z.lor (Z.shiftl hi k) lo = hi * 2 ^ k + lo.
Proof.
  intros Hk Hlo.
  pose proof (Z.add_lor_land (Z.shiftl hi k) lo) as E.
  rewrite land_shiftl_low in E by assumption.
  rewrite <- (Z.shiftl_mul_pow2 hi k) by assumption. lia.
Qed.

Lemma land_maskx (z : Z) : Z.land z utf8.maskx = z mod 64.
Proof. change utf8.maskx with (Z.ones 6). now rewrite Z.land_ones. Qed.

Lemma rune2_eq (z0 z1 : Z) :
  rune2 z0 z1 = (z0 mod 32) * 64 + z1 mod 64.
Proof.
  unfold rune2. rewrite land_maskx.
  change utf8.mask2 with (Z.ones 5). rewrite Z.land_ones by lia.
  rewrite lor_shiftl_add; [reflexivity|lia|].
  change (2 ^ 6) with 64. apply Z.mod_pos_bound. lia.
Qed.

Lemma rune3_eq (z0 z1 z2 : Z) :
  rune3 z0 z1 z2 = ((z0 mod 16) * 64 + z1 mod 64) * 64 + z2 mod 64.
Proof.
  unfold rune3. rewrite !land_maskx.
  change utf8.mask3 with (Z.ones 4). rewrite Z.land_ones by lia.
  change 12 with (6 + 6). rewrite <- Z.shiftl_shiftl by lia.
  rewrite <- Z.shiftl_lor.
  rewrite !lor_shiftl_add; [reflexivity|..]; try lia; change (2 ^ 6) with 64;
    apply Z.mod_pos_bound; lia.
Qed.

Lemma rune4_eq (z0 z1 z2 z3 : Z) :
  rune4 z0 z1 z2 z3
  = (((z0 mod 8) * 64 + z1 mod 64) * 64 + z2 mod 64) * 64 + z3 mod 64.
Proof.
  unfold rune4. rewrite !land_maskx.
  change utf8.mask4 with (Z.ones 3). rewrite Z.land_ones by lia.
  change 18 with (6 + (6 + 6)). change 12 with (6 + 6).
  rewrite <- !Z.shiftl_shiftl by lia.
  rewrite <- !Z.shiftl_lor.
  rewrite !lor_shiftl_add; [reflexivity|..]; try lia; change (2 ^ 6) with 64;
    apply Z.mod_pos_bound; lia.
Qed.

(** The only character whose rune is [RuneError] is U+FFFD. *)
Lemma decode_spec_RuneError (c : str) :
  is_char c = true -> fst (decode_spec c) = utf8.RuneError ->
  c = replacementChar.
Proof.
  intros Hc. destruct (decode_spec_char c [] Hc) as [_ Hsz].
  char_cases Hc; cbn [decode_spec] in *.
  - rewrite Hc. cbn [fst]. apply Z.ltb_lt in Hc. unfold utf8.RuneError. lia.
  - destruct (wf2_lead _ _ Hc) as (E1 & _). rewrite E1, Hc. cbn [fst].
    rewrite rune2_eq. unfold utf8.RuneError.
    pose proof (b2z_range b). pose proof (b2z_range b0).
    intros E. exfalso. Z.div_mod_to_equations. lia.
  - destruct (wf3_lead _ _ _ Hc) as (E1 & E2 & _). rewrite E1, E2, Hc.
    cbn [fst]. rewrite rune3_eq. unfold utf8.RuneError.
    pose proof (b2z_range b). pose proof (b2z_range b0).
    pose proof (b2z_range b1). intros E.
    assert (b2z b = b2z xef /\ b2z b0 = b2z xbf /\ b2z b1 = b2z xbd)
      as (A0 & A1 & A2).
    { change (b2z xef) with 239. change (b2z xbf) with 191.
      change (b2z xbd) with 189. wf_hyps; Z.div_mod_to_equations; lia. }
    apply b2z_inj in A0, A1, A2. now subst.
  - destruct (wf4_lead _ _ _ _ Hc) as (E1 & E2 & E3 & _).
    rewrite E1, E2, E3, Hc. cbn [fst]. rewrite rune4_eq.
    unfold utf8.RuneError.
    pose proof (b2z_range b). pose proof (b2z_range b0).
    pose proof (b2z_range b1). pose proof (b2z_range b2).
    intros E. exfalso. wf_hyps; Z.div_mod_to_equations; lia.
Qed.

Lemma has_replacementChar_here (p q : str) :
  has_replacementChar (p ++ replacementChar ++ q) = true.
Proof.
  induction p as [|a p IH]; [reflexivity|].
  cbn [app has_replacementChar]. rewrite IH. apply orb_true_r.
Qed.

Lemma has_replacementChar_skipn (s : str) (n : nat) :
  has_replacementChar s = false -> has_replacementChar (skipn n s) = false.
Proof.
  revert s. induction n as [|n IH]; intros s H; [exact H|].
  destruct s as [|a s]; [reflexivity|]. cbn [skipn]. apply IH.
  cbn [has_replacementChar] in H. apply orb_false_iff in H. apply H.
Qed.

(** In a valid string without U+FFFD, the last rune of a prefix that ends
    at a character boundary decodes. *)
Lemma DecodeLast_boundary_ok (s : str) (j : nat) :
  has_replacementChar s = false ->
  (1 <= j <= List.length s)%nat ->
  wf_utf8 (firstn j s) ->
  isRuneError (utf8.DecodeLastRuneInString (firstn j s)) = false.
Proof.
  intros Hno Hj Hw.
  destruct (wf_last _ Hw) as (p & c & E & _ & Hc).
  { intros E. apply (f_equal (@List.length byte)) in E.
    rewrite length_firstn in E. cbn in E. lia. }
  rewrite E, DecodeLast_char by exact Hc.
  unfold isRuneError. apply Z.eqb_neq. intros Hr.
  apply decode_spec_RuneError in Hr; [|exact Hc]. subst c.
  rewrite <- (firstn_skipn j s), E, <- app_assoc in Hno.
  now rewrite has_replacementChar_here in Hno.
Qed.

(** ** Backing up to a character boundary *)

Lemma ends_complete_inv (s : str) :
  ends_complete s = true ->
  s = [] \/ exists p c : str, s = p ++ c /\ is_char c = true.
Proof.
  unfold ends_complete.
  assert (Es : s = rev (rev s)) by (now rewrite rev_involutive).
  revert Es. generalize (rev s) as r. intros r ->.
  destruct r as [|b3 [|b2 [|b1 [|b0 r]]]]; [now left|..];
    intros H; right;
    repeat match type of H with
           | _ || _ = true => apply orb_true_iff in H; destruct H as [H|H]
           end; try discriminate.
  - exists [], [b3]. auto.
  - exists [b2], [b3]. auto.
  - exists [], [b2; b3]. auto.
  - exists [b1; b2], [b3]. auto.
  - exists [b1], [b2; b3]. auto.
  - exists [], [b1; b2; b3]. auto.
  - exists (rev r ++ [b0; b1; b2]), [b3]. cbn [rev].
    now rewrite <- !app_assoc.
  - exists (rev r ++ [b0; b1]), [b2; b3]. cbn [rev].
    now rewrite <- !app_assoc.
  - exists (rev r ++ [b0]), [b1; b2; b3]. cbn [rev].
    now rewrite <- !app_assoc.
  - exists (rev r), [b0; b1; b2; b3]. cbn [rev].
    now rewrite <- !app_assoc.
Qed.

Lemma ends_complete_char (p c : str) :
  is_char c = true -> ends_complete (p ++ c) = true.
Proof.
  intros Hc. unfold ends_complete. rewrite rev_app_distr.
  char_cases Hc; cbn [rev app].
  - cbn [is_char]. now rewrite Hc.
  - replace (is_char [b; b0]) with true by (symmetry; exact Hc).
    apply orb_true_r.
  - replace (is_char [b; b0; b1]) with true by (symmetry; exact Hc).
    now rewrite !orb_true_r.
  - replace (is_char [b; b0; b1; b2]) with true by (symmetry; exact Hc).
    now rewrite !orb_true_r.
Qed.

(** In a valid string, the prefixes that end at a complete character are
    the valid ones. *)
Lemma boundary_wf (s : str) (j : Z) :
  wf_utf8 s ->
  boundary s j = true <-> wf_utf8 (firstn (Z.to_nat j) s).
Proof.
  intros Hs. unfold boundary. split; intros H.
  - apply ends_complete_inv in H. destruct H as [->|(p & c & E & Hc)].
    + constructor.
    + rewrite E. rewrite <- (firstn_skipn (Z.to_nat j) s), E, <- app_assoc
        in Hs.
      now apply wf_prefix_char in Hs.
  - destruct (firstn (Z.to_nat j) s) as [|b t] eqn:E; [reflexivity|].
    destruct (wf_last _ H) as (p & c & -> & _ & Hc); [discriminate|].
    now apply ends_complete_char.
Qed.

Lemma boundary_false (s : str) (j : Z) :
  wf_utf8 s ->
  ~ wf_utf8 (firstn (Z.to_nat j) s) -> boundary s j = false.
Proof.
  intros Hs H. destruct (boundary s j) eqn:E; [|reflexivity].
  apply boundary_wf in E; [contradiction|exact Hs].
Qed.

(** What the back-up loop of [ClipMessage] leaves of [s[:off]] when [s] is
    valid: a prefix that ends at a character boundary; without U+FFFD in
    [s], the longest such prefix, at most 3 bytes shorter. *)
Lemma clip_backup_boundary (s : str) (off : Z) :
  wf_utf8 s -> 0 <= off <= len s -> len s <= GoInt.maxInt ->
  exists k : Z,
    0 <= k <= off
    /\ clip_backup (List.length (firstn (Z.to_nat off) s))
         (firstn (Z.to_nat off) s)
       = Some (firstn (Z.to_nat k) s)
    /\ wf_utf8 (firstn (Z.to_nat k) s)
    /\ (has_replacementChar s = false ->
        largest_boundary s off k /\ off - k <= 3).
Proof.
  intros Hs Hoff Hmax.
  set (t := firstn (Z.to_nat off) s).
  assert (Hlt : List.length t = Z.to_nat off).
  { unfold t. rewrite length_firstn. unfold len in Hoff. lia. }
  assert (Hff : forall j : nat, (j <= Z.to_nat off)%nat ->
             firstn j t = firstn j s).
  { intros j Hj. unfold t. rewrite firstn_firstn. f_equal. lia. }
  destruct (clip_backup_spec (List.length t) t) as (k & Hk & Hr & Hok & Hbad).
  { lia. } { unfold len in *. lia. }
  rewrite Hff in Hr, Hok by lia.
  assert (Hwk : wf_utf8 (firstn k s)).
  { destruct Hok as [->|Hok]; [constructor|].
    destruct k as [|k]; [constructor|].
    apply DecodeLast_ok_boundary; try assumption. unfold len in *. lia. }
  exists (Z.of_nat k). rewrite Nat2Z.id.
  split; [lia|]. split; [exact Hr|]. split; [exact Hwk|].
  intros Hno.
  assert (Hlarge : forall j' : Z, Z.of_nat k < j' <= off ->
             ~ wf_utf8 (firstn (Z.to_nat j') s)).
  { intros j' Hj' Hw.
    apply DecodeLast_boundary_ok in Hw; try assumption.
    - rewrite <- Hff, Hbad in Hw by lia. discriminate.
    - unfold len in *. lia. }
  split.
  - split; [lia|]. split.
    + apply boundary_wf; [exact Hs|]. now rewrite Nat2Z.id.
    + intros j' Hj'. apply boundary_false; [exact Hs|]. now apply Hlarge.
  - destruct (boundary_near s Hs off Hoff) as (j & Hj0 & Hj & Hw).
    destruct (Z.le_gt_cases j (Z.of_nat k)); [lia|].
    exfalso. apply (Hlarge j); [lia|exact Hw].
Qed.

(** What the search for the cut point of [ClipOrSplitMessage] returns on a
    valid [s] without U+FFFD, when some character boundary lies between 1
    and [off]: the longest prefix of at most [off] bytes that ends at a
    character boundary, at most 3 bytes shorter than [off]. *)
Lemma chunk_loop_boundary (s : str) (off : Z) :
  wf_utf8 s -> has_replacementChar s = false ->
  0 <= off <= len s -> len s <= GoInt.maxInt ->
  (exists j0 : Z, 1 <= j0 <= off /\ boundary s j0 = true) ->
  exists k : Z,
    1 <= k
    /\ chunk_loop 5 s off [] 0 = Some (firstn (Z.to_nat k) s)
    /\ largest_boundary s off k /\ off - k <= 3.
Proof.
  intros Hs Hno Hoff Hmax (j0 & Hj0 & Hb0).
  destruct (clip_backup_boundary s off Hs Hoff Hmax)
    as (k & Hk & _ & Hwk & Hlarge).
  destruct (Hlarge Hno) as [(_ & Hbk & Hmaxk) Hnear]. clear Hlarge.
  assert (Hk1 : 1 <= k).
  { destruct (Z.le_gt_cases j0 k); [lia|].
    rewrite Hmaxk in Hb0 by lia. discriminate. }
  destruct (chunk_loop_spec 5 s off [] 0) as [_ Hgo]; try lia.
  { unfold GoInt.is_int, GoInt.minInt, GoInt.maxInt, GoInt.intSize in *.
    lia. }
  destruct Hgo as (j & Hj & HjL & Hr & Hbad & Hend); [lia|].
  assert (Herr : forall i : Z, 1 <= i <= off ->
            isRuneError (utf8.DecodeLastRuneInString
                           (firstn (Z.to_nat i) s)) = false
            <-> boundary s i = true).
  { intros i Hi. rewrite boundary_wf by exact Hs. split; intros H.
    - apply DecodeLast_ok_boundary; try assumption. unfold len in *. lia.
    - apply DecodeLast_boundary_ok; try assumption. unfold len in *. lia. }
  assert (E : off - j = k).
  { destruct (Z.lt_trichotomy (off - j) k) as [Hlt|[Heq|Hgt]];
      [|exact Heq|]; exfalso.
    - specialize (Hbad (off - k)). replace (off - (off - k)) with k in Hbad
        by lia.
      rewrite (proj2 (Herr k ltac:(lia)) Hbk) in Hbad.
      specialize (Hbad ltac:(lia)). discriminate.
    - assert (Hnb : boundary s (off - j) = false) by (apply Hmaxk; lia).
      destruct (isRuneError (utf8.DecodeLastRuneInString
                               (firstn (Z.to_nat (off - j)) s))) eqn:Ed.
      + destruct (Hend eq_refl); lia.
      + apply Herr in Ed; [congruence|lia]. }
  exists k. repeat split; try lia; try assumption.
  rewrite <- E. exact Hr.
Qed.

(** ** The range clause *)

Lemma Steps_le (B : Z -> Prop) (W i e : Z) (l : list Z) :
  Steps B W i e l -> i <= e.
Proof. induction 1; lia. Qed.

Lemma Steps_In (B : Z -> Prop) (W i e : Z) (l : list Z) (x : Z) :
  Steps B W i e l -> In x l -> B x /\ i <= x < e.
Proof.
  induction 1 as [|i w e l Hb Hw Hs IH]; intros Hin; [contradiction|].
  pose proof (Steps_le _ _ _ _ _ Hs).
  destruct Hin as [<-|Hin]; [split; [assumption|lia]|].
  destruct (IH Hin). split; [assumption|lia].
Qed.

(** The offsets of a [range] clause, for an invariant [P] of the offset
    and of what is left of the string. *)
Lemma range_from_steps (B : Z -> Prop) (W : Z) (P : Z -> str -> Prop) :
  (forall (i : Z) (s : str), P i s -> s <> [] ->
     B i /\ snd (utf8.DecodeRuneInString s) <= W
     /\ P (i + snd (utf8.DecodeRuneInString s))
          (skipn (Z.to_nat (snd (utf8.DecodeRuneInString s))) s)) ->
  forall (fuel : nat) (s : str) (i : Z),
    (List.length s <= fuel)%nat -> P i s ->
    Steps B W i (i + len s) (map fst (range_from fuel s i)).
Proof.
  intros Hstep. induction fuel as [|fuel IH]; intros s i Hf HP.
  - destruct s; [|cbn in Hf; lia]. cbn. change (len []) with 0.
    rewrite Z.add_0_r. constructor.
  - destruct s as [|b s]; cbn [range_from].
    { cbn. change (len []) with 0. rewrite Z.add_0_r. constructor. }
    destruct (Hstep i (b :: s) HP) as (Hb & HW & HP'); [discriminate|].
    pose proof (decode_spec_size (b :: s)) as Hsz.
    rewrite <- DecodeRune_eq in Hsz.
    destruct (utf8.DecodeRuneInString (b :: s)) as [r w].
    cbn [snd] in *. destruct Hsz as [Hw Hwl]; [discriminate|].
    cbn [map fst]. apply steps_cons with (w := w); [exact Hb|lia|].
    assert (El : len (b :: s) = w + len (skipn (Z.to_nat w) (b :: s))).
    { unfold len in *. rewrite length_skipn. lia. }
    rewrite El, Z.add_assoc. apply IH; [|exact HP'].
    rewrite length_skipn. cbn [List.length] in *. lia.
Qed.

Lemma range_steps (s : str) :
  Steps (fun _ => True) 4 0 (len s) (map fst (range s)).
Proof.
  unfold range. change (len s) with (0 + len s).
  apply (range_from_steps (fun _ => True) 4 (fun _ _ => True)); auto.
  intros i t _ Hne. repeat split.
  rewrite DecodeRune_eq. now apply decode_spec_size.
Qed.

Lemma isASCII_skipn (s : str) (n : nat) :
  isASCII s = true -> isASCII (skipn n s) = true.
Proof.
  unfold isASCII. rewrite !forallb_forall. intros H x Hx.
  apply H. rewrite <- (firstn_skipn n s). apply in_or_app. now right.
Qed.

Lemma isASCII_firstn (s : str) (n : nat) :
  isASCII s = true -> isASCII (firstn n s) = true.
Proof.
  unfold isASCII. rewrite !forallb_forall. intros H x Hx.
  apply H. rewrite <- (firstn_skipn n s). apply in_or_app. now left.
Qed.

Lemma isASCII_wf (s : str) : isASCII s = true -> wf_utf8 s.
Proof.
  induction s as [|b s IH]; [constructor|]. cbn [isASCII forallb].
  intros H. apply andb_true_iff in H. destruct H as [Hb Hs].
  apply (wf_char [b]); [exact Hb|now apply IH].
Qed.

(** In an ASCII string every rune has one byte. *)
Lemma range_steps_ascii (s : str) :
  isASCII s = true ->
  Steps (fun _ => True) 1 0 (len s) (map fst (range s)).
Proof.
  intros Hs. unfold range. change (len s) with (0 + len s).
  apply (range_from_steps (fun _ => True) 1
           (fun _ t => isASCII t = true)); auto.
  intros i t Ht Hne. destruct t as [|b t]; [congruence|].
  rewrite DecodeRune_eq. cbn [decode_spec].
  pose proof Ht as Hb. cbn [isASCII forallb] in Hb.
  apply andb_true_iff in Hb. destruct Hb as [-> _]. cbn [snd].
  repeat split; [lia|]. now apply isASCII_skipn.
Qed.

Lemma range_steps_bound (s : str) :
  Steps (fun _ => True) (runeWidthBound s) 0 (len s) (map fst (range s)).
Proof.
  unfold runeWidthBound. destruct (isASCII s) eqn:E.
  - now apply range_steps_ascii.
  - apply range_steps.
Qed.

Lemma wf_cons_inv (s : str) :
  wf_utf8 s -> s <> [] ->
  exists c s' : str, s = c ++ s' /\ is_char c = true /\ wf_utf8 s'.
Proof. destruct 1; [congruence|eauto]. Qed.

(** In a valid string the [range] clause goes through character
    boundaries. *)
Lemma range_steps_wf (s : str) :
  wf_utf8 s ->
  Steps (fun i => 0 <= i /\ wf_utf8 (firstn (Z.to_nat i) s)) 4 0 (len s)
    (map fst (range s)).
Proof.
  intros Hs. unfold range. change (len s) with (0 + len s).
  apply (range_from_steps _ 4
           (fun i t => 0 <= i /\ t = skipn (Z.to_nat i) s
                       /\ wf_utf8 (firstn (Z.to_nat i) s))).
  - intros i t (Hi & Et & Hw) Hne. split; [auto|].
    assert (Ht : wf_utf8 t) by (subst t; now apply wf_skipn).
    destruct (wf_cons_inv t Ht Hne) as (c & t' & E & Hc & Ht').
    assert (Hd : snd (utf8.DecodeRuneInString t) = len c).
    { rewrite DecodeRune_eq, E.
      now destruct (decode_spec_char c t' Hc) as [-> ->]. }
    rewrite Hd.
    pose proof (is_char_len c Hc). split; [lia|]. split; [lia|].
    replace (Z.to_nat (len c)) with (List.length c) by (unfold len; lia).
    replace (Z.to_nat (i + len c)) with (Z.to_nat i + List.length c)%nat
      by (unfold len; lia).
    split.
    + rewrite Nat.add_comm, <- skipn_skipn, <- Et. reflexivity.
    + assert (Ef : firstn (Z.to_nat i + List.length c) s
                   = firstn (Z.to_nat i) s ++ c).
      { rewrite <- (firstn_skipn (Z.to_nat i) s) at 1.
        rewrite <- Et, E.
        assert (Hl : (Z.to_nat i <= List.length s)%nat).
        { destruct (Nat.le_gt_cases (Z.to_nat i) (List.length s)); auto.
          rewrite skipn_all2 in Et by lia. congruence. }
        rewrite firstn_app, length_firstn, Nat.min_l by exact Hl.
        rewrite firstn_all2 by (rewrite length_firstn; lia).
        replace (Z.to_nat i + List.length c - Z.to_nat i)%nat
          with (List.length c) by lia.
        rewrite firstn_app, firstn_all, Nat.sub_diag. cbn.
        now rewrite app_nil_r. }
      rewrite Ef. apply wf_app; [exact Hw|now apply wf_one].
  - lia.
  - repeat split; [lia|constructor].
Qed.

(** ** The splitting loop of GetSubLines *)

Lemma subline_step_eq (line : str) (M : Z) (cm : str) (st : subline_state)
    (i : Z) :
  0 <= splitStart st <= startOfPreviousRune st ->
  startOfPreviousRune st <= len line ->
  subline_step line M cm st i = Some (subline_next line M cm st i).
Proof.
  intros H1 H2. unfold subline_step, subline_next.
  destruct (_ >? _); [|reflexivity].
  unfold slice.
  destruct (Z.leb_spec 0 (splitStart st)); [|lia].
  destruct (Z.leb_spec (splitStart st) (startOfPreviousRune st)); [|lia].
  destruct (Z.leb_spec (startOfPreviousRune st) (len line)); [|lia].
  reflexivity.
Qed.

(** Proving an invariant [I] of the loop, indexed by the offset of the
    next iteration. *)
Lemma subline_loop_inv (B : Z -> Prop) (W : Z)
    (I : Z -> subline_state -> Prop) (line : str) (M : Z) (cm : str)
    (e : Z) :
  (forall (i w : Z) (st : subline_state),
      B i -> 1 <= w <= W -> i + w <= e -> I i st ->
      exists st' : subline_state,
        subline_step line M cm st i = Some st' /\ I (i + w) st') ->
  forall (idxs : list Z) (i : Z) (st : subline_state),
    Steps B W i e idxs -> I i st ->
    exists st' : subline_state,
      subline_loop line M cm idxs st = Some st' /\ I e st'.
Proof.
  intros Hstep idxs i st Hs. revert st.
  induction Hs as [|i w e l Hb Hw Hs IH]; intros st HI; cbn [subline_loop].
  - eauto.
  - pose proof (Steps_le _ _ _ _ _ Hs).
    destruct (Hstep i w st Hb Hw ltac:(lia) HI) as (st1 & -> & HI1).
    cbn [bind]. apply IH; assumption.
Qed.

Lemma subline_pos_step (e i w : Z) (line : str) (M : Z) (cm : str)
    (st : subline_state) :
  1 <= w -> i + w <= e -> subline_pos e i st ->
  subline_pos e (i + w) (subline_next line M cm st i).
Proof.
  unfold subline_pos, subline_next. intros Hw He (H1 & H2 & H3).
  destruct (_ >? _); cbn; lia.
Qed.

(** The loop over the lines, for a property [Q] of the resulting lines
    that the body maintains on the lines that satisfy [R]. *)
Lemma sublines_of_Forall (Q R : str -> Prop) (M : Z) (cm : str) :
  (forall (lines : list str) (line : str),
      R line -> Forall Q lines ->
      exists lines' : list str,
        subline_body M cm lines line = Some lines' /\ Forall Q lines') ->
  forall ls lines : list str,
    Forall R ls -> Forall Q lines ->
    exists r : list str,
      sublines_of M cm ls lines = Some r /\ Forall Q r.
Proof.
  intros Hbody. induction ls as [|line ls IH]; intros lines HR HQ;
    cbn [sublines_of]; [eauto|].
  inversion HR; subst.
  destruct (Hbody lines line) as (lines' & -> & HQ'); try assumption.
  cbn [bind]. now apply IH.
Qed.

(** The body, for a property [Q] of the lines and an invariant [J] of the
    splitting loop. *)
Lemma subline_body_Forall (Q : str -> Prop) (B : Z -> Prop) (W : Z)
    (J : Z -> subline_state -> Prop) (M : Z) (cm : str)
    (lines : list str) (line : str) :
  Forall Q lines ->
  (line <> [] -> (M = 0 \/ len line <= M) -> Q line) ->
  Steps B W 0 (len line) (map fst (range line)) ->
  (forall st, sl_lines st = lines -> splitStart st = 0 ->
              startOfPreviousRune st = 0 -> J 0 st) ->
  (forall (i w : Z) (st : subline_state),
      B i -> 1 <= w <= W -> i + w <= len line ->
      subline_pos (len line) i st -> J i st ->
      J (i + w) (subline_next line M cm st i)) ->
  (forall st : subline_state,
      subline_pos (len line) (len line) st -> J (len line) st ->
      line <> [] ->
      Forall Q (sl_lines st)
      /\ Q (skipn (Z.to_nat (splitStart st)) line)) ->
  exists lines' : list str,
    subline_body M cm lines line = Some lines' /\ Forall Q lines'.
Proof.
  intros HQ Hshort Hsteps Hinit Hstep Hend. unfold subline_body.
  destruct line as [|b line']; [eauto|].
  set (line := b :: line') in *.
  destruct ((M =? 0) || (len line <=? M)) eqn:Ec.
  - eexists. split; [reflexivity|]. apply Forall_app. split; [exact HQ|].
    constructor; [|constructor]. apply Hshort; [discriminate|].
    apply orb_true_iff in Ec. destruct Ec as [Ec|Ec];
      [left; now apply Z.eqb_eq|right; now apply Z.leb_le].
  - set (st0 := {| sl_lines := lines; splitStart := 0;
                   startOfPreviousRune := 0 |}).
    pose proof (len_nonneg line) as Hlen.
    destruct (subline_loop_inv B W
                (fun i st => subline_pos (len line) i st /\ J i st)
                line M cm (len line)) with (idxs := map fst (range line))
                (i := 0) (st := st0) as (st & -> & Hpos & HJ).
    + intros i w st HB Hw He [Hpos HJ].
      exists (subline_next line M cm st i). split; [|split].
      * apply subline_step_eq; unfold subline_pos in Hpos; lia.
      * apply subline_pos_step; [lia|lia|exact Hpos].
      * now apply Hstep.
    + exact Hsteps.
    + split; [unfold subline_pos, st0; cbn; lia|].
      apply Hinit; reflexivity.
    + cbn [bind].
      assert (Hne : line <> []) by discriminate.
      destruct (Hend st Hpos HJ Hne) as [HQl HQr].
      rewrite slice_from_Some by (unfold subline_pos in Hpos; lia).
      cbn [bind]. eexists. split; [reflexivity|].
      apply Forall_app. split; [exact HQl|]. constructor; [exact HQr|].
      constructor.
Qed.

(** ** strings.Split and strings.TrimSpace on valid strings *)

Lemma IndexByte_Some (s : str) (c : byte) (m : nat) :
  strings.IndexByte s c = Some m ->
  s = firstn m s ++ c :: skipn (S m) s.
Proof.
  revert m. induction s as [|b s IH]; intros m; cbn [strings.IndexByte];
    [discriminate|].
  destruct (Byte.eqb b c) eqn:E.
  - intros H. inversion H; subst m. apply Byte.byte_dec_bl in E. now subst.
  - destruct (strings.IndexByte s c) as [m'|]; [|discriminate].
    cbn. intros H. inversion H; subst m. cbn. f_equal. now apply IH.
Qed.

Lemma len_firstn_le (s : str) (n : nat) : len (firstn n s) <= len s.
Proof. unfold len. rewrite length_firstn. lia. Qed.

Lemma len_skipn_le (s : str) (n : nat) : len (skipn n s) <= len s.
Proof. unfold len. rewrite length_skipn. lia. Qed.

Lemma genSplit_len (n : nat) (s : str) (c : byte) :
  Forall (fun l => len l <= len s) (strings.genSplit n s c).
Proof.
  revert s. induction n as [|n IH]; intros s; cbn [strings.genSplit].
  - constructor; [apply Z.le_refl|constructor].
  - destruct (strings.IndexByte s c) as [m|];
      [|constructor; [apply Z.le_refl|constructor]].
    constructor; [apply len_firstn_le|].
    eapply Forall_impl; [|apply IH]. intros l Hl. cbv beta in *.
    pose proof (len_skipn_le s (S m)). lia.
Qed.

Lemma newline_not_cont : is_cont (b2z newline) = false.
Proof. reflexivity. Qed.

Lemma genSplit_wf (n : nat) (s : str) :
  wf_utf8 s -> Forall wf_utf8 (strings.genSplit n s newline).
Proof.
  revert s. induction n as [|n IH]; intros s Hs; cbn [strings.genSplit].
  - constructor; [exact Hs|constructor].
  - destruct (strings.IndexByte s newline) as [m|] eqn:E;
      [|constructor; [exact Hs|constructor]].
    apply IndexByte_Some in E. rewrite E in Hs.
    apply wf_split_at_start in Hs; [|exact newline_not_cont].
    destruct Hs as [H1 H2].
    constructor; [exact H1|]. apply IH.
    apply (wf_char_inv [newline]); [reflexivity|exact H2].
Qed.

Section Trim.

Variable f : Z -> bool.

Lemma TrimLeftFunc_len (s : str) : len (strings.TrimLeftFunc s f) <= len s.
Proof.
  unfold strings.TrimLeftFunc. destruct (_ =? _).
  - apply len_nonneg.
  - apply len_skipn_le.
Qed.

Lemma TrimRightFunc_len (s : str) : len (strings.TrimRightFunc s f) <= len s.
Proof. unfold strings.TrimRightFunc. apply len_firstn_le. Qed.

Lemma TrimLeftFunc_wf (s : str) :
  wf_utf8 s -> wf_utf8 (strings.TrimLeftFunc s f).
Proof.
  intros Hs. unfold strings.TrimLeftFunc, strings.indexFunc.
  destruct (find _ (range s)) as [[i r]|] eqn:E; [|constructor].
  cbn [fst]. destruct (i =? -1); [constructor|].
  apply find_some in E. destruct E as [Hin _].
  apply (in_map fst) in Hin. cbn [fst] in Hin.
  destruct (Steps_In _ _ _ _ _ _ (range_steps_wf s Hs) Hin) as [[_ Hw] _].
  now apply wf_skipn.
Qed.

(** What [lastIndexFunc] returns on a valid string: [-1], or the offset
    of a character. *)
Lemma lastIndexFunc_loop_wf (s : str) (truth : bool) (fuel : nat) (i : Z) :
  wf_utf8 s -> 0 <= i <= len s -> wf_utf8 (firstn (Z.to_nat i) s) ->
  let k := strings.lastIndexFunc_loop fuel s f truth i in
  k = -1
  \/ (0 <= k
      /\ exists c : str,
           is_char c = true
           /\ firstn (Z.to_nat (k + len c)) s = firstn (Z.to_nat k) s ++ c).
Proof.
  intros Hs. revert i. induction fuel as [|fuel IH]; intros i Hi Hw;
    cbn [strings.lastIndexFunc_loop]; [now left|].
  destruct (Z.gtb_spec i 0) as [Hpos|_]; [|now left].
  destruct (wf_last _ Hw) as (p & c & E & Hp & Hc).
  { intros E. apply (f_equal (@List.length byte)) in E.
    rewrite length_firstn in E. unfold len in Hi. cbn in E. lia. }
  rewrite E, DecodeLast_char by exact Hc.
  destruct (decode_spec_char c [] Hc) as [_ Hsz].
  destruct (decode_spec c) as [r size]. cbn [snd] in Hsz. subst size.
  pose proof (is_char_len c Hc) as Hlc.
  assert (Hlen : len p + len c = i).
  { apply (f_equal len) in E. rewrite len_app in E.
    rewrite len_firstn in E by lia. lia. }
  pose proof (len_nonneg p) as Hlp.
  assert (Hfp : firstn (Z.to_nat (i - len c)) s = p).
  { replace (i - len c) with (len p) by lia.
    replace (firstn (Z.to_nat (len p)) s)
      with (firstn (Z.to_nat (len p)) (firstn (Z.to_nat i) s)).
    - rewrite E. unfold len. rewrite Nat2Z.id, firstn_app, firstn_all,
        Nat.sub_diag. cbn. now rewrite app_nil_r.
    - rewrite firstn_firstn. f_equal. lia. }
  destruct (Bool.eqb (f r) truth).
  - right. split; [lia|]. exists c. split; [exact Hc|].
    replace (i - len c + len c) with i by lia. now rewrite Hfp.
  - apply IH; [lia|]. rewrite Hfp. exact Hp.
Qed.

Lemma TrimRightFunc_wf (s : str) :
  wf_utf8 s -> wf_utf8 (strings.TrimRightFunc s f).
Proof.
  intros Hs. unfold strings.TrimRightFunc, strings.lastIndexFunc.
  pose proof (len_nonneg s) as Hl.
  destruct (lastIndexFunc_loop_wf s false (List.length s) (len s) Hs)
    as [->|(Hk & c & Hc & E)].
  - lia.
  - unfold len. rewrite Nat2Z.id, firstn_all. exact Hs.
  - cbn. constructor.
  - set (k := strings.lastIndexFunc_loop _ s f false (len s)) in *.
    assert (Hwk : wf_utf8 (firstn (Z.to_nat (k + len c)) s)).
    { rewrite <- (firstn_skipn (Z.to_nat (k + len c)) s) in Hs.
      rewrite E, <- app_assoc in Hs.
      apply wf_prefix_char in Hs; [|exact Hc]. rewrite E. apply Hs. }
    pose proof (is_char_len c Hc) as Hlc.
    assert (Hsk : exists q, skipn (Z.to_nat k) s = c ++ q).
    { exists (skipn (Z.to_nat (k + len c)) s).
      apply (app_inv_head (firstn (Z.to_nat k) s)).
      rewrite firstn_skipn, app_assoc, <- E. now rewrite firstn_skipn. }
    destruct Hsk as (q & Hq).
    destruct (Z.geb_spec k 0) as [_|?]; [|lia]. cbn [andb].
    assert (Hat : at_ s k = at_ c 0).
    { unfold at_. rewrite <- (firstn_skipn (Z.to_nat k) s) at 1.
      rewrite Hq.
      assert (Hlf : List.length (firstn (Z.to_nat k) s) = Z.to_nat k).
      { apply (f_equal (@List.length byte)) in E.
        rewrite length_app, !length_firstn in E. rewrite length_firstn.
        unfold len in *. lia. }
      rewrite app_nth2 by lia. rewrite Hlf, Nat.sub_diag.
      change (Z.to_nat 0) with O.
      destruct c; [discriminate|reflexivity]. }
    rewrite Hat.
    destruct (Z.geb_spec (at_ c 0) utf8.RuneSelf) as [Hge|Hlt].
    + rewrite Hq, DecodeRune_eq.
      destruct (decode_spec_char c q Hc) as [-> Hsz].
      destruct (decode_spec c) as [r size]. cbn [snd] in Hsz. subst size.
      exact Hwk.
    + replace 1 with (len c); [exact Hwk|].
      unfold utf8.RuneSelf in Hlt.
      char_cases Hc; [reflexivity|exfalso..];
        [destruct (wf2_lead _ _ Hc) as (C & _)
        |destruct (wf3_lead _ _ _ Hc) as (C & _)
        |destruct (wf4_lead _ _ _ _ Hc) as (C & _)];
        apply Z.ltb_ge in C; unfold at_ in Hlt; cbn in Hlt; lia.
Qed.

End Trim.

Lemma firstn_S_snoc (t : str) (k : nat) :
  (k < List.length t)%nat ->
  firstn (S k) t = firstn k t ++ [nth k t x00].
Proof.
  revert k. induction t as [|a t IH]; intros k Hk; [cbn in Hk; lia|].
  destruct k as [|k]; [reflexivity|].
  cbn in Hk. cbn [firstn nth app]. f_equal. apply IH. lia.
Qed.

Lemma TrimSpace_stop_len (t : str) (stop : nat) :
  len (strings.TrimSpace_stop t stop) <= len t.
Proof.
  induction stop as [|stop IH]; cbn [strings.TrimSpace_stop].
  - apply len_firstn_le.
  - destruct (_ >=? _).
    + etransitivity; [apply TrimRightFunc_len|apply len_firstn_le].
    + destruct (strings.asciiSpace _); [exact IH|apply len_firstn_le].
Qed.

Lemma TrimSpace_stop_wf (t : str) (stop : nat) :
  (stop <= List.length t)%nat -> wf_utf8 (firstn stop t) ->
  wf_utf8 (strings.TrimSpace_stop t stop).
Proof.
  induction stop as [|stop IH]; intros Hl Hw; cbn [strings.TrimSpace_stop].
  - constructor.
  - destruct (Z.geb_spec (at_ t (Z.of_nat stop)) utf8.RuneSelf) as [Hge|Hlt].
    + now apply TrimRightFunc_wf.
    + destruct (strings.asciiSpace _); [|exact Hw].
      apply IH; [lia|].
      rewrite firstn_S_snoc in Hw by lia.
      apply wf_split_at_start in Hw; [apply Hw|].
      unfold at_ in Hlt. rewrite Nat2Z.id in Hlt.
      unfold utf8.RuneSelf in Hlt. unfold is_cont, in_range.
      destruct (Z.leb_spec 128 (b2z (nth stop t x00))); [lia|reflexivity].
Qed.

Lemma TrimSpace_len (s : str) : len (strings.TrimSpace s) <= len s.
Proof.
  induction s as [|c s IH]; cbn [strings.TrimSpace]; [lia|].
  rewrite len_cons.
  destruct (_ >=? _).
  - unfold strings.TrimFunc.
    etransitivity; [apply TrimRightFunc_len|].
    etransitivity; [apply TrimLeftFunc_len|]. rewrite len_cons. lia.
  - destruct (strings.asciiSpace _); [lia|].
    etransitivity; [apply TrimSpace_stop_len|]. rewrite len_cons. lia.
Qed.

Lemma TrimSpace_wf (s : str) : wf_utf8 s -> wf_utf8 (strings.TrimSpace s).
Proof.
  induction s as [|c s IH]; intros Hs; cbn [strings.TrimSpace];
    [constructor|].
  destruct (Z.geb_spec (b2z c) utf8.RuneSelf) as [Hge|Hlt].
  - unfold strings.TrimFunc. now apply TrimRightFunc_wf, TrimLeftFunc_wf.
  - destruct (strings.asciiSpace _).
    + apply IH. apply (wf_char_inv [c]); [|exact Hs].
      cbn. apply Z.ltb_lt. exact Hlt.
    + apply TrimSpace_stop_wf; [lia|]. now rewrite firstn_all.
Qed.

Lemma GetSubLines_lines_len (message : str) :
  Forall (fun l => len l <= len message)
    (strings.Split (strings.TrimSpace message) newline).
Proof.
  eapply Forall_impl; [|apply genSplit_len]. intros l Hl. cbv beta in *.
  pose proof (TrimSpace_len message). lia.
Qed.

Lemma GetSubLines_lines_wf (message : str) :
  wf_utf8 message ->
  Forall wf_utf8 (strings.Split (strings.TrimSpace message) newline).
Proof. intros H. now apply genSplit_wf, TrimSpace_wf. Qed.

(** [TrimSpace] and [Split] keep ASCII strings ASCII. *)

Lemma TrimRightFunc_ascii (f : Z -> bool) (s : str) :
  isASCII s = true -> isASCII (strings.TrimRightFunc s f) = true.
Proof. intros H. unfold strings.TrimRightFunc. now apply isASCII_firstn. Qed.

Lemma TrimLeftFunc_ascii (f : Z -> bool) (s : str) :
  isASCII s = true -> isASCII (strings.TrimLeftFunc s f) = true.
Proof.
  intros H. unfold strings.TrimLeftFunc.
  destruct (_ =? _); [reflexivity|now apply isASCII_skipn].
Qed.

Lemma TrimSpace_stop_ascii (t : str) (stop : nat) :
  isASCII t = true -> isASCII (strings.TrimSpace_stop t stop) = true.
Proof.
  intros H. induction stop as [|stop IH]; cbn [strings.TrimSpace_stop].
  - reflexivity.
  - destruct (_ >=? _); [now apply TrimRightFunc_ascii, isASCII_firstn|].
    destruct (strings.asciiSpace _); [exact IH|now apply isASCII_firstn].
Qed.

Lemma TrimSpace_ascii (s : str) :
  isASCII s = true -> isASCII (strings.TrimSpace s) = true.
Proof.
  induction s as [|c s IH]; intros H; cbn [strings.TrimSpace];
    [reflexivity|].
  destruct (_ >=? _).
  - unfold strings.TrimFunc. now apply TrimRightFunc_ascii, TrimLeftFunc_ascii.
  - destruct (strings.asciiSpace _).
    + apply IH. cbn [isASCII forallb] in H. apply andb_true_iff in H. apply H.
    + now apply TrimSpace_stop_ascii.
Qed.

Lemma genSplit_ascii (n : nat) (s : str) (c : byte) :
  isASCII s = true ->
  Forall (fun l => isASCII l = true) (strings.genSplit n s c).
Proof.
  revert s. induction n as [|n IH]; intros s Hs; cbn [strings.genSplit].
  - constructor; [exact Hs|constructor].
  - destruct (strings.IndexByte s c) as [m|];
      [|constructor; [exact Hs|constructor]].
    constructor; [now apply isASCII_firstn|]. apply IH.
    now apply isASCII_skipn.
Qed.

Lemma GetSubLines_lines_bound (message : str) :
  Forall (fun l => runeWidthBound l <= runeWidthBound message)
    (strings.Split (strings.TrimSpace message) newline).
Proof.
  unfold runeWidthBound at 2. destruct (isASCII message) eqn:E.
  - eapply Forall_impl;
      [|apply genSplit_ascii, TrimSpace_ascii; exact E].
    intros l Hl. cbv beta in Hl. unfold runeWidthBound. rewrite Hl. lia.
  - apply Forall_forall. intros l _. unfold runeWidthBound.
    destruct (isASCII l); lia.
Qed.

(** ** The fragments of GetSubLines *)

Lemma len_slice (line : str) (a b : Z) :
  0 <= a <= b -> b <= len line ->
  len (skipn (Z.to_nat a) (firstn (Z.to_nat b) line)) = b - a.
Proof.
  intros H1 H2. unfold len in *. rewrite length_skipn, length_firstn. lia.
Qed.

(** [GetSubLines] never panics and returns no empty line. *)
Lemma GetSubLines_nonEmpty (message : str) (M : Z) (cm : str) :
  exists r : list str,
    GetSubLines message M cm = Some r /\ Forall (fun l => l <> []) r.
Proof.
  unfold GetSubLines. set (cm' := effectiveClippingMessage cm).
  apply (sublines_of_Forall (fun l => l <> []) (fun _ => True));
    [|apply Forall_forall; auto|constructor].
  intros lines line _ HQ.
  apply (subline_body_Forall (fun l => l <> []) (fun _ => True) 4
           (fun _ st => Forall (fun l => l <> []) (sl_lines st)));
    try assumption.
  - auto.
  - apply range_steps.
  - intros st -> _ _. exact HQ.
  - intros i w st _ _ _ _ HJ. unfold subline_next.
    destruct (_ >? _); cbn [sl_lines]; [|exact HJ].
    apply Forall_app. split; [exact HJ|]. constructor; [|constructor].
    intros E. apply app_eq_nil in E. destruct E as [_ E].
    now apply effectiveClippingMessage_nonempty in E.
  - intros st (H1 & H2 & H3) HJ Hne. split; [exact HJ|].
    intros E. apply (f_equal (@List.length byte)) in E.
    rewrite length_skipn in E. cbn in E.
    assert (0 < len line).
    { destruct line; [congruence|]. rewrite len_cons.
      pose proof (len_nonneg line). lia. }
    unfold len in *. lia.
Qed.

Lemma Steps_mono (B : Z -> Prop) (W W' i e : Z) (l : list Z) :
  W <= W' -> Steps B W i e l -> Steps B W' i e l.
Proof.
  intros HW. induction 1 as [|i w e l Hb Hw _ IH]; [constructor|].
  apply steps_cons with (w := w); [exact Hb|lia|exact IH].
Qed.

Lemma runeWidthBound_range (s : str) : 1 <= runeWidthBound s <= 4.
Proof. unfold runeWidthBound. destruct (isASCII s); lia. Qed.

(** When the marker is at least as long as the widest character of the
    message, and the budget leaves room for such a character besides the
    marker, every line fits the budget. *)
Lemma GetSubLines_fit (message : str) (M : Z) (cm : str) (r : list str) :
  GoInt.is_int M -> len message <= GoInt.maxInt ->
  runeWidthBound message <= len (effectiveClippingMessage cm) ->
  len (effectiveClippingMessage cm) + runeWidthBound message <= M ->
  GetSubLines message M cm = Some r ->
  Forall (fun l => len l <= M) r.
Proof.
  unfold GetSubLines. set (cm' := effectiveClippingMessage cm).
  set (W := runeWidthBound message).
  pose proof (runeWidthBound_range message) as HW. fold W in HW.
  intros HM Hmsg Hcm HD Hr.
  enough (Hbody : forall (lines : list str) (line : str),
             len line <= len message /\ runeWidthBound line <= W ->
             Forall (fun l => len l <= M) lines ->
             exists lines' : list str,
               subline_body M cm' lines line = Some lines'
               /\ Forall (fun l => len l <= M) lines').
  { destruct (sublines_of_Forall _ _ M cm' Hbody
                (strings.Split (strings.TrimSpace message) newline) [])
      as (r' & Er & HQ).
    - pose proof (GetSubLines_lines_len message) as H1.
      pose proof (GetSubLines_lines_bound message) as H2.
      rewrite Forall_forall in *. intros l Hl. split; [now apply H1|].
      now apply H2.
    - constructor.
    - rewrite Er in Hr. inversion Hr. now subst. }
  intros lines line [Hline Hbound] HQ.
  assert (HsubM : GoInt.sub M (len cm') = M - len cm').
  { apply wrap_small.
    unfold GoInt.is_int, GoInt.minInt, GoInt.maxInt, GoInt.intSize in *.
    lia. }
  apply (subline_body_Forall (fun l => len l <= M) (fun _ => True) W
           (fun i st =>
              Forall (fun l => len l <= M) (sl_lines st)
              /\ startOfPreviousRune st - splitStart st <= M - len cm'
              /\ i - startOfPreviousRune st <= W));
    try assumption.
  - intros _ [->|H]; [lia|exact H].
  - apply (Steps_mono _ (runeWidthBound line)); [exact Hbound|].
    apply range_steps_bound.
  - intros st -> -> ->. repeat split; [exact HQ|lia|lia].
  - intros i w st _ Hw He (H1 & H2 & H3) (HJ & HD' & H4).
    assert (Hsub : GoInt.sub i (splitStart st) = i - splitStart st).
    { apply wrap_small.
      unfold GoInt.is_int, GoInt.minInt, GoInt.maxInt, GoInt.intSize in *.
      lia. }
    unfold subline_next. rewrite Hsub, HsubM.
    destruct (Z.gtb_spec (i - splitStart st) (M - len cm'));
      cbn [sl_lines splitStart startOfPreviousRune].
    + repeat split; try lia.
      apply Forall_app. split; [exact HJ|]. constructor; [|constructor].
      rewrite len_app, len_slice by lia. lia.
    + repeat split; try lia. exact HJ.
  - intros st (H1 & H2 & H3) (HJ & HD' & H4) Hne. split; [exact HJ|].
    unfold len in *. rewrite length_skipn. lia.
Qed.

(** The lines of a valid message, with a valid marker, are valid. *)
Lemma GetSubLines_wf (message : str) (M : Z) (cm : str) (r : list str) :
  wf_utf8 message -> wf_utf8 (effectiveClippingMessage cm) ->
  GetSubLines message M cm = Some r ->
  Forall wf_utf8 r.
Proof.
  unfold GetSubLines. set (cm' := effectiveClippingMessage cm).
  intros Hmsg Hcm Hr.
  enough (Hbody : forall (lines : list str) (line : str),
             wf_utf8 line -> Forall wf_utf8 lines ->
             exists lines' : list str,
               subline_body M cm' lines line = Some lines'
               /\ Forall wf_utf8 lines').
  { destruct (sublines_of_Forall _ _ M cm' Hbody
                (strings.Split (strings.TrimSpace message) newline) [])
      as (r' & Er & HQ).
    - now apply GetSubLines_lines_wf.
    - constructor.
    - rewrite Er in Hr. inversion Hr. now subst. }
  intros lines line Hline HQ.
  apply (subline_body_Forall wf_utf8
           (fun i => 0 <= i /\ wf_utf8 (firstn (Z.to_nat i) line)) 4
           (fun _ st =>
              Forall wf_utf8 (sl_lines st)
              /\ wf_utf8 (firstn (Z.to_nat (splitStart st)) line)
              /\ wf_utf8 (firstn (Z.to_nat (startOfPreviousRune st)) line)));
    try assumption.
  - auto.
  - now apply range_steps_wf.
  - intros st -> -> ->. repeat split; [exact HQ|constructor|constructor].
  - intros i w st [_ HB] _ _ (H1 & H2 & H3) (HJ & Hss & Hsp).
    unfold subline_next.
    destruct (_ >? _); cbn [sl_lines splitStart startOfPreviousRune];
      repeat split; try assumption.
    apply Forall_app. split; [exact HJ|]. constructor; [|constructor].
    apply wf_app; [|exact Hcm]. apply wf_skipn; [exact Hsp|].
    rewrite firstn_firstn. replace (Nat.min _ _) with (Z.to_nat (splitStart st))
      by lia. exact Hss.
  - intros st _ (HJ & Hss & _) _. split; [exact HJ|].
    now apply wf_skipn.
Qed.

(** ** The fragments of ClipOrSplitMessage *)

(** For a budget of at least one byte, the parts are neither empty nor
    longer than the budget, and some text always remains. *)
Lemma split_reach_parts (text : str) (L M : Z) (st : split_state) :
  GoInt.is_int L -> 1 <= L -> text <> [] ->
  split_reach text L M st ->
  Forall (fun p => p <> [] /\ len p <= L) (msgParts st)
  /\ remainingText st <> [].
Proof.
  intros Hint HL Hne. induction 1 as [|st st' _ IH Hc Hb].
  - split; [constructor|exact Hne].
  - unfold split_cond in Hc. apply andb_true_iff in Hc.
    destruct Hc as [_ Hc]. apply Z.gtb_lt in Hc.
    destruct (split_body_spec L st Hint ltac:(lia))
      as (chunk & rest & Eb & Er & _ & Hle & Hge).
    rewrite Eb in Hb. inversion Hb; subst st'; clear Hb. cbn.
    destruct IH as [IH _]. split.
    + apply Forall_app. split; [exact IH|]. constructor; [|constructor].
      split; [|lia]. intros ->. change (len []) with 0 in Hge. lia.
    + intros ->. rewrite app_nil_r in Er. rewrite Er in Hc. lia.
Qed.

Lemma len_pos {A : Type} (s : list A) : s <> [] -> 0 < len s.
Proof.
  destruct s as [|a s]; [congruence|]. intros _. rewrite len_cons.
  pose proof (len_nonneg s). lia.
Qed.

(** Some text always remains to be clipped. *)
Lemma split_reach_remaining (text : str) (L M : Z) (st : split_state) :
  GoInt.is_int L -> text <> [] ->
  split_reach text L M st -> remainingText st <> [].
Proof.
  intros Hint Hne. induction 1 as [|st st' _ IH Hc Hb]; [exact Hne|].
  unfold split_cond in Hc. apply andb_true_iff in Hc.
  destruct Hc as [_ Hc]. apply Z.gtb_lt in Hc.
  destruct (split_body_spec L st Hint ltac:(lia))
    as (chunk & rest & Eb & Er & _ & Hle & _).
  rewrite Eb in Hb. inversion Hb; subst st'; clear Hb. cbn.
  intros ->. rewrite app_nil_r in Er. rewrite Er in Hc, IH.
  pose proof (len_nonneg chunk).
  destruct (Z.le_gt_cases 0 L); [lia|].
  apply IH, len_nil_inv. lia.
Qed.

Lemma isASCII_app_r (p q : str) : isASCII (p ++ q) = true -> isASCII q = true.
Proof.
  unfold isASCII. rewrite forallb_app. intros H.
  apply andb_true_iff in H. apply H.
Qed.

(** When the budget is at least the width of the widest character, the
    parts of a valid text without U+FFFD are valid, and so is the
    remaining text. *)
Lemma split_reach_wf (text : str) (L M : Z) (st : split_state) :
  GoInt.is_int L -> runeWidthBound text <= L -> len text <= GoInt.maxInt ->
  wf_utf8 text -> has_replacementChar text = false ->
  split_reach text L M st ->
  Forall wf_utf8 (msgParts st)
  /\ wf_utf8 (remainingText st)
  /\ has_replacementChar (remainingText st) = false.
Proof.
  intros Hint HL Hmax Hw Hno. induction 1 as [|st st' Hreach IH Hc Hb].
  - repeat split; [constructor|exact Hw|exact Hno].
  - unfold split_cond in Hc. apply andb_true_iff in Hc.
    destruct Hc as [_ Hc]. apply Z.gtb_lt in Hc.
    destruct IH as (IHp & IHw & IHno).
    pose proof (runeWidthBound_range text) as HW.
    destruct (split_body_spec L st Hint ltac:(lia))
      as (chunk & rest & Eb & Er & Ec & _).
    rewrite Eb in Hb. inversion Hb; subst st'; clear Hb. cbn.
    apply split_reach_invariant in Hreach.
    set (rem := remainingText st) in *.
    destruct (chunk_loop_boundary rem L IHw IHno)
      as (k & Hk1 & Ek & (Hk & Hbk & _) & _).
    + lia.
    + apply (f_equal len) in Hreach. rewrite len_app in Hreach.
      pose proof (len_nonneg (List.concat (msgParts st))). lia.
    + unfold runeWidthBound in HL. destruct (isASCII text) eqn:Ea.
      * exists 1. split; [lia|]. apply boundary_wf; [exact IHw|].
        apply isASCII_wf.
        apply isASCII_firstn. rewrite <- Hreach in Ea.
        now apply isASCII_app_r in Ea.
      * destruct (boundary_near rem IHw L ltac:(lia)) as (j & _ & Hj & Hwj).
        exists j. split; [lia|]. now apply boundary_wf.
    + rewrite Ek in Ec. inversion Ec; subst chunk; clear Ec.
      apply boundary_wf in Hbk; [|exact IHw].
      assert (Erest : rest = skipn (Z.to_nat k) rem).
      { apply (app_inv_head (firstn (Z.to_nat k) rem)).
        now rewrite firstn_skipn. }
      repeat split.
      * apply Forall_app. split; [exact IHp|]. constructor; [exact Hbk|].
        constructor.
      * rewrite Erest. now apply wf_skipn.
      * rewrite Erest. now apply has_replacementChar_skipn.
Qed.

Lemma ClipMessage_nonEmpty (text : str) (L : Z) (cm y : str) :
  text <> [] -> ClipMessage text L cm = Some y -> y <> [].
Proof.
  intros Hne E. apply ClipMessage_inv in E.
  destruct E as [[_ ->]|(_ & t & t' & _ & _ & ->)]; [exact Hne|].
  intros E. apply app_eq_nil in E. destruct E as [_ E].
  now apply effectiveClippingMessage_nonempty in E.
Qed.

Lemma ClipMessage_wf (text : str) (L : Z) (cm y : str) :
  len text <= GoInt.maxInt ->
  wf_utf8 text -> wf_utf8 (effectiveClippingMessage cm) ->
  ClipMessage text L cm = Some y -> wf_utf8 y.
Proof.
  intros Hmax Hw Hcm E. apply ClipMessage_inv in E.
  destruct E as [[_ ->]|(_ & t & t' & Es & Eb & ->)]; [exact Hw|].
  apply slice_to_Some_inv in Es. destruct Es as [Hk ->].
  destruct (clip_backup_boundary text _ Hw Hk Hmax) as (k & _ & Ek & Hwk & _).
  rewrite Ek in Eb. inversion Eb; subst t'.
  now apply wf_app.
Qed.

(** C8, as amended: [GetSubLines] never returns an empty string (and
    never panics); [ClipOrSplitMessage] returns no empty string when the
    text is not empty, and returns the empty string alone for the empty
    text. *)
Theorem C8_no_empty_fragment :
  (forall (message : str) (maxLineLength : Z) (cm : str),
      exists r : list str,
        GetSubLines message maxLineLength cm = Some r
        /\ Forall (fun l => l <> []) r)
  /\ (forall (text : str) (length : Z) (cm : str) (splitMax : Z)
             (r : list str),
         text <> [] -> GoInt.is_int length ->
         len text + len (effectiveClippingMessage cm) <= GoInt.maxInt ->
         ClipOrSplitMessage text length cm splitMax = Some r ->
         Forall (fun l => l <> []) r)
  /\ (forall (length : Z) (cm : str) (splitMax : Z),
         0 <= length ->
         ClipOrSplitMessage [] length cm splitMax = Some [[]]).
Proof.
  split; [|split].
  - apply GetSubLines_nonEmpty.
  - intros text L cm M r Hne Hint Hfit E.
    apply ClipOrSplitMessage_inv in E.
    destruct E as (st & last & Eloop & Eclip & ->).
    assert (Hr : split_reach text L M st).
    { eapply split_loop_reach; [apply reach_init|exact Eloop]. }
    pose proof (split_reach_remaining text L M st Hint Hne Hr) as Hrem.
    destruct (Z.le_gt_cases 1 L) as [HL|HL].
    + destruct (split_reach_parts text L M st Hint HL Hne Hr) as [Hp _].
      apply Forall_app. split.
      * eapply Forall_impl; [|exact Hp]. cbv beta. intros a [Ha _]. exact Ha.
      * constructor; [|constructor].
        eapply ClipMessage_nonEmpty; eassumption.
    + (* no budget: the final clip panics *)
      exfalso.
      pose proof (effectiveClippingMessage_nonempty cm) as Hcm.
      pose proof (len_pos _ Hcm). pose proof (len_pos _ Hrem).
      assert (len (remainingText st) <= len text).
      { apply split_reach_invariant in Hr.
        apply (f_equal len) in Hr. rewrite len_app in Hr.
        pose proof (len_nonneg (List.concat (msgParts st))). lia. }
      rewrite ClipMessage_panics in Eclip; try assumption; try lia.
      discriminate.
  - intros L cm M HL. unfold ClipOrSplitMessage.
    assert (El : forall n, split_loop n L M
                             {| msgParts := []; remainingText := [] |}
                           = Some {| msgParts := []; remainingText := [] |}).
    { intros [|n]; [reflexivity|]. cbn [split_loop].
      unfold split_cond. cbn [remainingText]. change (len []) with 0.
      destruct (Z.gtb_spec 0 L); [lia|]. now rewrite andb_false_r. }
    rewrite El. cbn [bind remainingText msgParts].
    rewrite ClipMessage_short by (change (len []) with 0; lia).
    reflexivity.
Qed.

Lemma C8_witness :
  Forall (fun l => l <> []) [bs "abcd"; bs "efgh"; bs "ij"]
  /\ ClipOrSplitMessage [] 5 [] 3 = Some [[]].
Proof.
  destruct C8_no_empty_fragment as (_ & H2 & H3). split.
  - apply (H2 (bs "abcdefghij") 4 (bs "_") 3).
    + discriminate.
    + vm_compute. split; discriminate.
    + vm_compute. discriminate.
    + vm_compute. reflexivity.
  - apply H3. lia.
Defined.

(** C8 as stated fails for [ClipOrSplitMessage]: the empty text gives the
    empty string as its only fragment. *)
Lemma C8_counterexample :
  ClipOrSplitMessage [] 5 [] 3 = Some [[]]
  /\ ~ Forall (fun l => l <> []) [@nil byte].
Proof.
  split; [vm_compute; reflexivity|].
  intros H. inversion H; subst. congruence.
Qed.

Lemma split_reach_fit (text : str) (L M : Z) (st : split_state) :
  GoInt.is_int L -> 1 <= L ->
  split_reach text L M st ->
  Forall (fun p => len p <= L) (msgParts st).
Proof.
  intros Hint HL. induction 1 as [|st st' _ IH Hc Hb]; [constructor|].
  unfold split_cond in Hc. apply andb_true_iff in Hc.
  destruct Hc as [_ Hc]. apply Z.gtb_lt in Hc.
  destruct (split_body_spec L st Hint ltac:(lia))
    as (chunk & rest & Eb & _ & _ & Hle & _).
  rewrite Eb in Hb. inversion Hb; subst st'; clear Hb. cbn.
  apply Forall_app. split; [exact IH|]. constructor; [lia|constructor].
Qed.

Lemma Forall_wf_valid (r : list str) :
  Forall wf_utf8 r -> Forall (fun l => valid_utf8 l = true) r.
Proof. apply Forall_impl. intros l. apply wf_valid_utf8. Qed.

(** C1, as amended.  Let the width bound of a text be 1 when all its
    bytes are ASCII and 4 otherwise.  [GetSubLines]: when the effective
    marker is at least as long as the width bound of the message and the
    budget is at least the marker plus the width bound, no fragment is
    longer than the budget; and the fragments of a valid UTF-8 message,
    with a valid marker, are valid UTF-8, whatever the budget.
    [ClipOrSplitMessage], whenever it returns: no fragment is longer than
    a budget greater than 0; and for a budget of at least the width bound
    of the text, the fragments of a valid UTF-8 text that does not contain
    U+FFFD, with a valid marker, are valid UTF-8. *)
Theorem C1_fragments_fit_and_are_valid :
  (forall (message : str) (maxLineLength : Z) (cm : str) (r : list str),
      GetSubLines message maxLineLength cm = Some r ->
      (GoInt.is_int maxLineLength -> len message <= GoInt.maxInt ->
       runeWidthBound message <= len (effectiveClippingMessage cm) ->
       len (effectiveClippingMessage cm) + runeWidthBound message
       <= maxLineLength ->
       Forall (fun l => len l <= maxLineLength) r)
      /\ (valid_utf8 message = true ->
          valid_utf8 (effectiveClippingMessage cm) = true ->
          Forall (fun l => valid_utf8 l = true) r))
  /\ (forall (text : str) (length : Z) (cm : str) (splitMax : Z)
             (r : list str),
         ClipOrSplitMessage text length cm splitMax = Some r ->
         GoInt.is_int length ->
         len text + len (effectiveClippingMessage cm) <= GoInt.maxInt ->
         (0 < length -> Forall (fun l => len l <= length) r)
         /\ (runeWidthBound text <= length ->
             valid_utf8 text = true -> has_replacementChar text = false ->
             valid_utf8 (effectiveClippingMessage cm) = true ->
             Forall (fun l => valid_utf8 l = true) r)).
Proof.
  split.
  - intros message M cm r Hr. split.
    + intros. eapply GetSubLines_fit; eassumption.
    + intros Hm Hcm. apply Forall_wf_valid.
      eapply GetSubLines_wf; [| |exact Hr]; now apply valid_utf8_wf.
  - intros text L cm M r E Hint Hfit.
    apply ClipOrSplitMessage_inv in E.
    destruct E as (st & last & Eloop & Eclip & ->).
    assert (Hr : split_reach text L M st).
    { eapply split_loop_reach; [apply reach_init|exact Eloop]. }
    pose proof (len_nonneg (effectiveClippingMessage cm)) as Hcm0.
    assert (Hrem : len (remainingText st) <= len text).
    { pose proof (split_reach_invariant _ _ _ _ Hr) as Hinv.
      apply (f_equal len) in Hinv. rewrite len_app in Hinv.
      pose proof (len_nonneg (List.concat (msgParts st))). lia. }
    split.
    + intros HL. apply Forall_app. split.
      * apply (split_reach_fit text L M); [assumption|lia|assumption].
      * constructor; [|constructor].
        destruct (Z.le_gt_cases (len (remainingText st)) L) as [Hs|Hl].
        -- rewrite ClipMessage_short in Eclip by assumption.
           inversion Eclip; subst. exact Hs.
        -- assert (Hfit' : len (remainingText st)
                           + len (effectiveClippingMessage cm)
                           <= GoInt.maxInt) by lia.
           apply Z.lt_gt in Hl.
           destruct (ClipMessage_fits _ _ _ _ Hint Hfit' Hl Eclip)
             as (_ & _ & Hy & _). exact Hy.
    + intros HL Hv Hno Hcm. apply valid_utf8_wf in Hv, Hcm.
      apply Forall_wf_valid.
      assert (Hmax : len text <= GoInt.maxInt) by lia.
      destruct (split_reach_wf text L M st Hint HL Hmax Hv Hno Hr)
        as (Hp & Hw & _).
      apply Forall_app. split; [exact Hp|]. constructor; [|constructor].
      eapply ClipMessage_wf; [|exact Hw|exact Hcm|exact Eclip]. lia.
Qed.

Lemma C1_witness :
  (exists r : list str,
      GetSubLines (bs "The quick brown fox " ++ [xe2; x82; xac]
                   ++ bs " jumps over the lazy dog") 24 [] = Some r
      /\ Forall (fun l => len l <= 24) r
      /\ Forall (fun l => valid_utf8 l = true) r)
  /\ (exists r : list str,
        ClipOrSplitMessage (bs "abc" ++ [xe2; x82; xac; xe2; x82; xac]
                            ++ bs "defghij") 5 (bs "..") 3 = Some r
        /\ Forall (fun l => len l <= 5) r
        /\ Forall (fun l => valid_utf8 l = true) r).
Proof.
  destruct C1_fragments_fit_and_are_valid as [H1 H2]. split.
  - eexists. split; [vm_compute; reflexivity|].
    match goal with
    | |- Forall _ ?r /\ _ =>
        destruct (H1 (bs "The quick brown fox " ++ [xe2; x82; xac]
                      ++ bs " jumps over the lazy dog") 24 [] r) as [Ha Hb]
    end.
    + vm_compute. reflexivity.
    + split.
      * apply Ha.
        -- vm_compute. split; discriminate.
        -- vm_compute. discriminate.
        -- vm_compute. discriminate.
        -- vm_compute. discriminate.
      * apply Hb; vm_compute; reflexivity.
  - eexists. split; [vm_compute; reflexivity|].
    match goal with
    | |- Forall _ ?r /\ _ =>
        destruct (H2 (bs "abc" ++ [xe2; x82; xac; xe2; x82; xac]
                      ++ bs "defghij") 5 (bs "..") 3 r) as [Ha Hb]
    end.
    + vm_compute. reflexivity.
    + vm_compute. split; discriminate.
    + vm_compute. discriminate.
    + split.
      * apply Ha. lia.
      * apply Hb; [vm_compute; discriminate|vm_compute; reflexivity..].
Defined.

(** C1 as stated fails.  With the budget 3 and the default marker of 18
    bytes [GetSubLines] returns fragments of 18 bytes and more; with the
    budget 2 [ClipOrSplitMessage] cuts the valid text of two euro signs
    inside the first one; and with the budget 8 it cuts a text of three
    U+FFFD, whose rune is [RuneError], inside the second one. *)
Lemma C1_counterexample :
  (0 < 3
   /\ GetSubLines (bs "abcdef") 3 []
      = Some [bs " <clipped message>"; bs " <clipped message>";
              bs "a <clipped message>"; bs "b <clipped message>";
              bs "c <clipped message>"; bs "d <clipped message>"; bs "ef"]
   /\ ~ len (bs " <clipped message>") <= 3)
  /\ (0 < 2
      /\ valid_utf8 [xe2; x82; xac; xe2; x82; xac] = true
      /\ ClipOrSplitMessage [xe2; x82; xac; xe2; x82; xac] 2 (bs "_") 3
         = Some [[xe2]; [x82]; bs "_"]
      /\ valid_utf8 [xe2] = false)
  /\ (valid_utf8 (replacementChar ++ replacementChar ++ replacementChar)
      = true
      /\ ClipOrSplitMessage
           (replacementChar ++ replacementChar ++ replacementChar) 8
           (bs "_") 2
         = Some [[xef; xbf; xbd; xef; xbf]; [xbd; xef; xbf; xbd]]
      /\ valid_utf8 [xef; xbf; xbd; xef; xbf] = false).
Proof.
  repeat split; try lia; try (vm_compute; reflexivity);
    vm_compute; congruence.
Qed.

(** ** The boundary back-up *)

(** C3, as amended: on a valid UTF-8 buffer that does not contain U+FFFD,
    at an offset inside the buffer, the back-up loop of [ClipMessage]
    returns the largest index at most the offset at which the buffer ends
    with a complete character, at most 3 positions back; so does the loop
    of [ClipOrSplitMessage] when such an index exists from 1 on, as it
    does for every offset of at least 4. *)
Theorem C3_backUp_largest_boundary (buffer : str) (offset : Z) :
  valid_utf8 buffer = true -> has_replacementChar buffer = false ->
  0 <= offset <= len buffer -> len buffer <= GoInt.maxInt ->
  (exists j : Z,
      backUp_clip buffer offset = Some j
      /\ largest_boundary buffer offset j /\ offset - j <= 3)
  /\ (4 <= offset
      \/ (exists j0 : Z, 1 <= j0 <= offset /\ boundary buffer j0 = true) ->
      exists j : Z,
        backUp_split buffer offset = Some j
        /\ largest_boundary buffer offset j /\ offset - j <= 3).
Proof.
  intros Hv Hno Hoff Hmax. apply valid_utf8_wf in Hv. split.
  - destruct (clip_backup_boundary buffer offset Hv Hoff Hmax)
      as (k & Hk & Ek & _ & Hl).
    destruct (Hl Hno) as [Hlarge Hnear].
    exists k. split; [|split; assumption].
    unfold backUp_clip. rewrite slice_to_Some by lia. cbn [bind].
    rewrite Ek. cbn [bind]. now rewrite len_firstn by lia.
  - intros Hex.
    assert (Hex' : exists j0 : Z, 1 <= j0 <= offset
                                  /\ boundary buffer j0 = true).
    { destruct Hex as [H4|Hex]; [|exact Hex].
      destruct (boundary_near buffer Hv offset Hoff) as (j & _ & Hj & Hw).
      exists j. split; [lia|]. now apply boundary_wf. }
    destruct (chunk_loop_boundary buffer offset Hv Hno Hoff Hmax Hex')
      as (k & Hk1 & Ek & Hlarge & Hnear).
    exists k. split; [|split; assumption].
    unfold backUp_split. rewrite Ek. cbn [bind].
    destruct Hlarge as (Hk & _). now rewrite len_firstn by lia.
Qed.

Lemma C3_witness :
  (exists j : Z,
      backUp_clip (bs "ab" ++ [xe2; x82; xac] ++ bs "cd") 4 = Some j
      /\ largest_boundary (bs "ab" ++ [xe2; x82; xac] ++ bs "cd") 4 j
      /\ 4 - j <= 3)
  /\ (exists j : Z,
        backUp_split (bs "ab" ++ [xe2; x82; xac] ++ bs "cd") 4 = Some j
        /\ largest_boundary (bs "ab" ++ [xe2; x82; xac] ++ bs "cd") 4 j
        /\ 4 - j <= 3).
Proof.
  destruct (C3_backUp_largest_boundary
              (bs "ab" ++ [xe2; x82; xac] ++ bs "cd") 4) as [H1 H2].
  - vm_compute. reflexivity.
  - vm_compute. reflexivity.
  - vm_compute. split; discriminate.
  - vm_compute. discriminate.
  - split; [exact H1|]. apply H2. left. lia.
Defined.

(** C3 as stated fails.  At offset 2 of the euro sign the loop of
    [ClipOrSplitMessage] stops at index 1, inside the character, because it
    never goes below one byte; on a buffer of stray continuation bytes the
    loop of [ClipMessage] steps back 4 positions; and after two U+FFFD,
    whose rune is [RuneError], the loop of [ClipMessage] steps back over
    both although the offset is a boundary. *)
Lemma C3_counterexample :
  (valid_utf8 [xe2; x82; xac] = true
   /\ backUp_split [xe2; x82; xac] 2 = Some 1
   /\ boundary [xe2; x82; xac] 1 = false
   /\ boundary [xe2; x82; xac] 0 = true)
  /\ (backUp_clip (bs "a" ++ [x80; x80; x80; x80]) 5 = Some 1
      /\ ~ 5 - 1 <= 3)
  /\ (valid_utf8 (bs "a" ++ replacementChar ++ replacementChar) = true
      /\ backUp_clip (bs "a" ++ replacementChar ++ replacementChar) 7
         = Some 1
      /\ boundary (bs "a" ++ replacementChar ++ replacementChar) 7 = true).
Proof.
  repeat split; try lia; vm_compute; reflexivity.
Qed.

(** * Further properties *)

(** ** strings.Split *)

Lemma pieces_cons (sep : byte) (s : str) :
  exists (l : str) (ls : list str), pieces sep s = l :: ls.
Proof.
  destruct s as [|b s]; cbn; [now eexists _, _|].
  destruct (Byte.eqb b sep); [now eexists _, _|].
  destruct (pieces sep s); now eexists _, _.
Qed.

Lemma pieces_no_sep (sep : byte) (s : str) :
  strings.IndexByte s sep = None -> pieces sep s = [s].
Proof.
  induction s as [|b s IH]; cbn; [reflexivity|].
  destruct (Byte.eqb b sep); [discriminate|].
  destruct (strings.IndexByte s sep); [discriminate|].
  intros _. now rewrite IH.
Qed.

Lemma pieces_app (sep : byte) (p q : str) :
  strings.IndexByte p sep = None ->
  pieces sep (p ++ sep :: q) = p :: pieces sep q.
Proof.
  induction p as [|b p IH]; cbn.
  - intros _. now rewrite (Byte.byte_dec_lb eq_refl).
  - destruct (Byte.eqb b sep); [discriminate|].
    destruct (strings.IndexByte p sep); [discriminate|].
    intros _. now rewrite IH.
Qed.

Lemma IndexByte_firstn (s : str) (sep : byte) (m : nat) :
  strings.IndexByte s sep = Some m ->
  strings.IndexByte (firstn m s) sep = None.
Proof.
  revert m. induction s as [|b s IH]; intros m; cbn; [discriminate|].
  destruct (Byte.eqb b sep) eqn:E.
  - intros H. inversion H. reflexivity.
  - destruct (strings.IndexByte s sep) as [k|]; [|discriminate].
    cbn. intros H. inversion H. cbn. rewrite E.
    now rewrite (IH k eq_refl).
Qed.

Lemma Count_app (sep : byte) (p q : str) :
  strings.Count (p ++ q) sep = (strings.Count p sep + strings.Count q sep)%nat.
Proof. unfold strings.Count. now rewrite filter_app, length_app. Qed.

Lemma Count_pieces (sep : byte) (s : str) :
  List.length (pieces sep s) = S (strings.Count s sep).
Proof.
  induction s as [|b s IH]; [reflexivity|].
  unfold strings.Count in *. cbn.
  destruct (Byte.eqb b sep); cbn; [now rewrite IH|].
  destruct (pieces_cons sep s) as (l & ls & E). rewrite E in *. exact IH.
Qed.

Lemma Count_IndexByte (sep : byte) (s : str) (m : nat) :
  strings.IndexByte s sep = Some m ->
  strings.Count s sep
  = (strings.Count (firstn m s) sep
     + S (strings.Count (skipn (S m) s) sep))%nat.
Proof.
  intros E. pose proof (IndexByte_Some s sep m E) as Hs.
  rewrite Hs at 1. rewrite Count_app. f_equal.
  unfold strings.Count. cbn. now rewrite (Byte.byte_dec_lb eq_refl).
Qed.

Lemma genSplit_pieces (sep : byte) (n : nat) (s : str) :
  (strings.Count s sep <= n)%nat -> strings.genSplit n s sep = pieces sep s.
Proof.
  revert s. induction n as [|n IH]; intros s Hn; cbn.
  - destruct (strings.IndexByte s sep) as [m|] eqn:E.
    + exfalso. rewrite (Count_IndexByte sep s m E) in Hn. lia.
    + symmetry. now apply pieces_no_sep.
  - destruct (strings.IndexByte s sep) as [m|] eqn:E.
    + pose proof (IndexByte_Some s sep m E) as Hs.
      rewrite Hs at 3. rewrite pieces_app by now apply IndexByte_firstn.
      f_equal. apply IH. rewrite (Count_IndexByte sep s m E) in Hn. lia.
    + symmetry. now apply pieces_no_sep.
Qed.

Lemma Split_pieces (s : str) (sep : byte) :
  strings.Split s sep = pieces sep s.
Proof. apply genSplit_pieces. lia. Qed.

Lemma join_pieces (sep : byte) (s : str) : join sep (pieces sep s) = s.
Proof.
  induction s as [|b s IH]; [reflexivity|]. cbn.
  destruct (Byte.eqb b sep) eqn:E.
  - apply Byte.byte_dec_bl in E. subst b.
    destruct (pieces_cons sep s) as (l & ls & El). rewrite El in *.
    cbn in *. now rewrite IH.
  - destruct (pieces_cons sep s) as (l & ls & El). rewrite El in *.
    cbn in *. now rewrite IH.
Qed.

Lemma pieces_sep_free (sep : byte) (s : str) :
  Forall (fun l => ~ In sep l) (pieces sep s).
Proof.
  induction s as [|b s IH]; cbn; [now repeat constructor|].
  destruct (Byte.eqb b sep) eqn:E; [constructor; [intros []|exact IH]|].
  destruct (pieces_cons sep s) as (l & ls & El). rewrite El in *.
  inversion IH as [|? ? Hl Hls]. subst. constructor; [|assumption].
  intros [->|Hin]; [|now apply Hl].
  now rewrite (Byte.byte_dec_lb eq_refl) in E.
Qed.

Lemma IndexByte_notin (sep : byte) (l : str) :
  ~ In sep l -> strings.IndexByte l sep = None.
Proof.
  induction l as [|b l IH]; [reflexivity|]. cbn. intros Hl.
  destruct (Byte.eqb b sep) eqn:E.
  - apply Byte.byte_dec_bl in E. subst. exfalso. apply Hl. now left.
  - rewrite IH; [reflexivity|]. intros Hin. apply Hl. now right.
Qed.

Lemma pieces_join (sep : byte) (ls : list str) :
  ls <> [] -> Forall (fun l => ~ In sep l) ls ->
  pieces sep (join sep ls) = ls.
Proof.
  intros Hne F. revert Hne.
  induction F as [|l ls Hl F IH]; intros Hne; [now contradiction Hne|].
  destruct ls as [|l' ls].
  - cbn. rewrite app_nil_r. now apply pieces_no_sep, IndexByte_notin.
  - change (join sep (l :: l' :: ls)) with (l ++ sep :: join sep (l' :: ls)).
    rewrite pieces_app by now apply IndexByte_notin.
    rewrite IH; [reflexivity|discriminate].
Qed.

(** X1: strings.Split cuts a string at every occurrence of the separator and
    nowhere else: joining the pieces with the separator gives the string back,
    no piece contains the separator, and there is one piece more than there
    are separators (so always at least one); and a list of strings without the
    separator, joined, is split into itself. *)
Theorem Split_join_roundtrip (s : str) (sep : byte) :
  join sep (strings.Split s sep) = s
  /\ Forall (fun l => ~ In sep l) (strings.Split s sep)
  /\ List.length (strings.Split s sep) = S (strings.Count s sep)
  /\ (forall ls : list str,
         ls <> [] -> Forall (fun l => ~ In sep l) ls ->
         strings.Split (join sep ls) sep = ls).
Proof.
  rewrite Split_pieces. split; [apply join_pieces|].
  split; [apply pieces_sep_free|]. split; [apply Count_pieces|].
  intros ls Hne F. rewrite Split_pieces. now apply pieces_join.
Qed.

(** ** RemoveEmptyNewLines and the lines of a message *)

Section LinesOfMessage.

Local Abbreviation collapse := emptyLineMatcher_ReplaceAllString.
Local Abbreviation sepLines :=
  (fun ls : list str => List.concat (map (cons newline) ls)).

Lemma join_filter_cons (l : str) (ls : list str) :
  l <> [] ->
  join newline (filter nonEmpty (l :: ls))
  = l ++ sepLines (filter nonEmpty ls).
Proof. destruct l; [congruence|reflexivity]. Qed.

Lemma sepLines_join (ls : list str) :
  ls <> [] -> sepLines ls = newline :: join newline ls.
Proof. destruct ls; [congruence|reflexivity]. Qed.

Lemma collapse_pieces (t : str) :
  noTrailingNewline t = true ->
  collapse true t = join newline (filter nonEmpty (pieces newline t))
  /\ (exists (l : str) (ls : list str),
         pieces newline t = l :: ls
         /\ collapse false t = l ++ sepLines (filter nonEmpty ls))
  /\ (t <> [] -> filter nonEmpty (pieces newline t) <> []).
Proof.
  induction t as [|b t IH]; intros Ht.
  - split; [reflexivity|]. split; [now exists [], []|congruence].
  - assert (Ht' : noTrailingNewline t = true)
      by now apply noTrailingNewline_tail in Ht.
    destruct (IH Ht') as (IHa & (l & ls & El & IHb) & IHc).
    cbn [emptyLineMatcher_ReplaceAllString pieces].
    destruct (Byte.eqb b newline) eqn:E.
    + assert (Hne : t <> []).
      { intros ->. apply Byte.byte_dec_bl in E. subst b. discriminate. }
      specialize (IHc Hne). split; [exact IHa|].
      split; [|intros _; exact IHc].
      exists [], (pieces newline t). split; [reflexivity|].
      rewrite IHa, sepLines_join by exact IHc. reflexivity.
    + rewrite El in *. split; [|split].
      * rewrite IHb. now rewrite join_filter_cons.
      * exists (b :: l), ls. split; [reflexivity|]. now rewrite IHb.
      * intros _. discriminate.
Qed.

Lemma pieces_leading (s : str) :
  filter nonEmpty (pieces newline (strings.trimLeftByte s newline))
  = filter nonEmpty (pieces newline s).
Proof.
  induction s as [|b s IH]; [reflexivity|].
  cbn [strings.trimLeftByte pieces].
  destruct (Byte.eqb b newline) eqn:E; [exact IH|].
  cbn [pieces]. now rewrite E.
Qed.

Lemma pieces_snoc (s : str) :
  pieces newline (s ++ [newline]) = pieces newline s ++ [[]].
Proof.
  induction s as [|b s IH]; [reflexivity|]. cbn.
  destruct (Byte.eqb b newline); rewrite IH; [reflexivity|].
  destruct (pieces_cons newline s) as (l & ls & ->). reflexivity.
Qed.

Lemma trimLeftByte_repeat (s : str) :
  exists k : nat, s = repeat newline k ++ strings.trimLeftByte s newline.
Proof.
  induction s as [|b s (k & IH)]; [now exists O|]. cbn.
  destruct (Byte.eqb b newline) eqn:E; [|now exists O].
  apply Byte.byte_dec_bl in E. subst b. exists (S k). cbn. now f_equal.
Qed.

Lemma pieces_trailing (s : str) :
  filter nonEmpty (pieces newline (strings.trimRightByte s newline))
  = filter nonEmpty (pieces newline s).
Proof.
  unfold strings.trimRightByte.
  destruct (trimLeftByte_repeat (rev s)) as (k & E).
  apply (f_equal (@rev byte)) in E.
  rewrite rev_involutive, rev_app_distr, rev_repeat in E.
  rewrite E at 2. generalize (rev (strings.trimLeftByte (rev s) newline)).
  clear. intros t. induction k as [|k IH]; [now rewrite app_nil_r|].
  cbn [repeat]. rewrite repeat_cons, app_assoc, pieces_snoc, filter_app.
  cbn. now rewrite app_nil_r.
Qed.

Lemma RemoveEmptyNewLines_pieces (msg : str) :
  RemoveEmptyNewLines msg
  = join newline (filter nonEmpty (pieces newline msg)).
Proof.
  unfold RemoveEmptyNewLines.
  rewrite <- pieces_trailing, <- pieces_leading.
  fold (strings.Trim msg newline).
  assert (Hl : noLeadingNewline (strings.Trim msg newline) = true)
    by apply trimLeftByte_noLeading.
  assert (Ht : noTrailingNewline (strings.Trim msg newline) = true)
    by apply trimLeftByte_noTrailing, trimRightByte_noTrailing.
  destruct (collapse_pieces _ Ht) as (_ & (l & ls & El & Ec) & _).
  rewrite Ec, El. destruct (strings.Trim msg newline) as [|b t] eqn:ET.
  - cbn in El. inversion El. reflexivity.
  - cbn in Hl. apply negb_true_iff in Hl. cbn [pieces] in El.
    rewrite Hl in El. destruct (pieces_cons newline t) as (l' & ls' & E').
    rewrite E' in El. inversion El. subst. reflexivity.
Qed.

Lemma collapse_withoutNewlines (m : bool) (s : str) :
  withoutNewlines (collapse m s) = withoutNewlines s.
Proof.
  revert m. induction s as [|b s IH]; intros m; [reflexivity|].
  cbn [emptyLineMatcher_ReplaceAllString]. unfold withoutNewlines in *.
  destruct (Byte.eqb b newline) eqn:E.
  - destruct m; cbn; rewrite ?E; cbn; apply IH.
  - cbn. rewrite E. cbn. now rewrite IH.
Qed.

Lemma trimLeftByte_withoutNewlines (s : str) :
  withoutNewlines (strings.trimLeftByte s newline) = withoutNewlines s.
Proof.
  induction s as [|b s IH]; [reflexivity|]. cbn.
  destruct (Byte.eqb b newline) eqn:E; cbn; rewrite ?E; cbn; auto.
Qed.

Lemma withoutNewlines_rev (s : str) :
  withoutNewlines (rev s) = rev (withoutNewlines s).
Proof.
  unfold withoutNewlines. induction s as [|b s IH]; [reflexivity|].
  cbn. rewrite filter_app, IH. cbn.
  destruct (Byte.eqb b newline); cbn; [now rewrite app_nil_r|reflexivity].
Qed.

Lemma RemoveEmptyNewLines_withoutNewlines (s : str) :
  withoutNewlines (RemoveEmptyNewLines s) = withoutNewlines s.
Proof.
  unfold RemoveEmptyNewLines, strings.Trim, strings.trimRightByte.
  rewrite collapse_withoutNewlines, trimLeftByte_withoutNewlines.
  rewrite withoutNewlines_rev, trimLeftByte_withoutNewlines.
  now rewrite withoutNewlines_rev, rev_involutive.
Qed.

Lemma collapse_len (m : bool) (s : str) : len (collapse m s) <= len s.
Proof.
  revert m. induction s as [|b s IH]; intros m; [apply Z.le_refl|].
  cbn [emptyLineMatcher_ReplaceAllString].
  pose proof (IH true). pose proof (IH false).
  destruct (Byte.eqb b newline); [destruct m|]; rewrite ?len_cons; lia.
Qed.

Lemma trimLeftByte_len (s : str) :
  len (strings.trimLeftByte s newline) <= len s.
Proof.
  induction s as [|b s IH]; [apply Z.le_refl|]. cbn [strings.trimLeftByte].
  destruct (Byte.eqb b newline); rewrite ?len_cons; lia.
Qed.

Lemma len_rev (s : str) : len (rev s) = len s.
Proof. unfold len. now rewrite length_rev. Qed.

Lemma RemoveEmptyNewLines_len (s : str) : len (RemoveEmptyNewLines s) <= len s.
Proof.
  unfold RemoveEmptyNewLines, strings.Trim, strings.trimRightByte.
  eapply Z.le_trans; [apply collapse_len|].
  eapply Z.le_trans; [apply trimLeftByte_len|]. rewrite len_rev.
  eapply Z.le_trans; [apply trimLeftByte_len|]. now rewrite len_rev.
Qed.

End LinesOfMessage.

(** X2: RemoveEmptyNewLines returns the non-empty lines of the message, in
    order, with one newline between each two of them. *)
Theorem RemoveEmptyNewLines_joins_nonempty_lines (msg : str) :
  RemoveEmptyNewLines msg
  = join newline (filter nonEmpty (strings.Split msg newline)).
Proof. rewrite Split_pieces. apply RemoveEmptyNewLines_pieces. Qed.

(** X3: RemoveEmptyNewLines removes newlines and nothing else: the other bytes
    are kept, in order, and the result is never longer than the message. It is
    empty exactly when the message has no byte but newlines. *)
Theorem RemoveEmptyNewLines_removes_only_newlines (msg : str) :
  withoutNewlines (RemoveEmptyNewLines msg) = withoutNewlines msg
  /\ len (RemoveEmptyNewLines msg) <= len msg
  /\ (RemoveEmptyNewLines msg = [] <-> withoutNewlines msg = []).
Proof.
  split; [apply RemoveEmptyNewLines_withoutNewlines|].
  split; [apply RemoveEmptyNewLines_len|].
  rewrite <- RemoveEmptyNewLines_withoutNewlines.
  destruct (RemoveEmptyNewLines_shape msg) as (_ & Hl & _).
  destruct (RemoveEmptyNewLines msg) as [|b t]; [tauto|].
  split; [discriminate|]. cbn in Hl. unfold withoutNewlines. cbn.
  now rewrite Hl.
Qed.

(** X4: The texts that RemoveEmptyNewLines leaves unchanged are exactly those
    that have no two newlines in a row and neither begin nor end with a
    newline. *)
Theorem RemoveEmptyNewLines_fixed_points (msg : str) :
  RemoveEmptyNewLines msg = msg
  <-> noDoubleNewline msg = true
      /\ noLeadingNewline msg = true
      /\ noTrailingNewline msg = true.
Proof.
  split.
  - intros E. rewrite <- E. apply RemoveEmptyNewLines_shape.
  - intros (Hd & Hl & Ht). unfold RemoveEmptyNewLines.
    rewrite Trim_fixed by assumption.
    apply collapse_fixed; [assumption|]. intros _. exact Hl.
Qed.

(** ** strings.TrimSpace *)

Lemma TrimLeftFunc_suffix (f : Z -> bool) (s : str) :
  exists p : str, s = p ++ strings.TrimLeftFunc s f.
Proof.
  unfold strings.TrimLeftFunc. destruct (_ =? -1).
  - exists s. now rewrite app_nil_r.
  - eexists. symmetry. apply firstn_skipn.
Qed.

Lemma TrimRightFunc_prefix (f : Z -> bool) (s : str) :
  exists q : str, s = strings.TrimRightFunc s f ++ q.
Proof.
  unfold strings.TrimRightFunc. eexists. symmetry. apply firstn_skipn.
Qed.

Lemma TrimSpace_stop_prefix (t : str) (stop : nat) :
  exists q : str, t = strings.TrimSpace_stop t stop ++ q.
Proof.
  assert (Hf : forall n : nat, exists q : str, t = firstn n t ++ q).
  { intros n. eexists. symmetry. apply firstn_skipn. }
  induction stop as [|stop IH]; cbn [strings.TrimSpace_stop]; [apply Hf|].
  destruct (_ >=? _).
  - destruct (TrimRightFunc_prefix unicode.IsSpace (firstn (S stop) t))
      as (q & Hq).
    destruct (Hf (S stop)) as (q' & Hq').
    exists (q ++ q'). rewrite app_assoc, <- Hq. exact Hq'.
  - destruct (strings.asciiSpace _); [exact IH|apply Hf].
Qed.

Lemma TrimSpace_substring (s : str) : substring_of (strings.TrimSpace s) s.
Proof.
  unfold substring_of.
  induction s as [|c s (p & q & IH)]; [now exists [], []|].
  cbn [strings.TrimSpace]. destruct (_ >=? _).
  - unfold strings.TrimFunc.
    destruct (TrimLeftFunc_suffix unicode.IsSpace (c :: s)) as (p' & Hp).
    destruct (TrimRightFunc_prefix unicode.IsSpace
                (strings.TrimLeftFunc (c :: s) unicode.IsSpace)) as (q' & Hq).
    exists p', q'. rewrite <- Hq. exact Hp.
  - destruct (strings.asciiSpace _).
    + exists (c :: p), q. cbn. now rewrite <- IH.
    + destruct (TrimSpace_stop_prefix (c :: s) (List.length (c :: s)))
        as (q' & Hq).
      exists [], q'. exact Hq.
Qed.

Lemma isASCII_nth (t : str) (n : nat) :
  isASCII t = true -> (n < List.length t)%nat ->
  b2z (nth n t x00) < 0x80.
Proof.
  intros Ha Hn. unfold isASCII in Ha. rewrite forallb_forall in Ha.
  apply Z.ltb_lt, Ha, nth_In, Hn.
Qed.

Lemma TrimSpace_stop_ascii_spec (t : str) (stop : nat) :
  isASCII t = true -> (stop <= List.length t)%nat ->
  exists k : nat,
    (k <= stop)%nat
    /\ strings.TrimSpace_stop t stop = firstn k t
    /\ forallb (fun b => strings.asciiSpace (b2z b))
         (skipn k (firstn stop t)) = true
    /\ (k = O
        \/ strings.asciiSpace (b2z (nth (k - 1) t x00)) = false).
Proof.
  intros Ha. induction stop as [|stop IH]; intros Hs.
  - exists O. repeat split; auto.
  - cbn [strings.TrimSpace_stop]. unfold at_. rewrite Nat2Z.id.
    pose proof (isASCII_nth t stop Ha ltac:(lia)) as Hc.
    destruct (Z.geb_spec (b2z (nth stop t x00)) utf8.RuneSelf) as [Hge|_];
      [unfold utf8.RuneSelf in Hge; lia|].
    destruct (strings.asciiSpace (b2z (nth stop t x00))) eqn:Esp.
    + destruct IH as (k & Hk & Ek & Hsp & Hlast); [lia|].
      exists k. split; [lia|]. split; [exact Ek|]. split; [|exact Hlast].
      rewrite firstn_S_snoc by lia. rewrite skipn_app, forallb_app, Hsp.
      rewrite length_firstn.
      replace (k - Nat.min stop (List.length t))%nat with O by lia.
      cbn. now rewrite Esp.
    + exists (S stop). split; [lia|]. split; [reflexivity|]. split.
      * rewrite skipn_all2; [reflexivity|]. rewrite length_firstn. lia.
      * right. now replace (S stop - 1)%nat with stop by lia.
Qed.

Lemma TrimSpace_ascii_ends (s : str) :
  isASCII s = true ->
  exists p q : str,
    s = p ++ strings.TrimSpace s ++ q
    /\ forallb (fun b => strings.asciiSpace (b2z b)) p = true
    /\ forallb (fun b => strings.asciiSpace (b2z b)) q = true
    /\ (strings.TrimSpace s = []
        \/ exists (first last_ : byte) (t t' : str),
             strings.TrimSpace s = first :: t
             /\ strings.TrimSpace s = t' ++ [last_]
             /\ strings.asciiSpace (b2z first) = false
             /\ strings.asciiSpace (b2z last_) = false).
Proof.
  induction s as [|c s IH]; intros Ha.
  - exists [], []. repeat split. now left.
  - pose proof Ha as Ha'. cbn [isASCII forallb] in Ha'.
    apply andb_true_iff in Ha'. destruct Ha' as [Hc Hs].
    apply Z.ltb_lt in Hc. cbn [strings.TrimSpace].
    destruct (Z.geb_spec (b2z c) utf8.RuneSelf) as [Hge|_];
      [unfold utf8.RuneSelf in Hge; lia|].
    destruct (strings.asciiSpace (b2z c)) eqn:Esp.
    + destruct (IH Hs) as (p & q & E & Hp & Hq & Hends).
      exists (c :: p), q. cbn [app forallb]. rewrite Esp, Hp.
      repeat split; try assumption. now rewrite <- E.
    + destruct (TrimSpace_stop_ascii_spec (c :: s) (List.length (c :: s)) Ha)
        as (k & Hk & Ek & Hsp & Hlast); [lia|].
      rewrite firstn_all in Hsp. rewrite Ek.
      destruct k as [|k].
      { exfalso. cbn in Hsp. rewrite Esp in Hsp. discriminate. }
      destruct Hlast as [Hlast|Hlast]; [discriminate|].
      replace (S k - 1)%nat with k in Hlast by lia.
      exists [], (skipn (S k) (c :: s)). cbn [app forallb].
      rewrite firstn_skipn. repeat split; try assumption.
      right. exists c, (nth k (c :: s) x00), (firstn k s),
               (firstn k (c :: s)).
      repeat split; try assumption.
      apply firstn_S_snoc. lia.
Qed.

(** X5: TrimSpace returns a contiguous part of its argument. On an ASCII
    message what it leaves out, before and after, is ASCII white space only,
    and what it returns neither begins nor ends with white space, so that
    trimming it again changes nothing. *)
Theorem TrimSpace_trims_the_ends (s : str) :
  substring_of (strings.TrimSpace s) s
  /\ (isASCII s = true ->
      (exists p q : str,
          s = p ++ strings.TrimSpace s ++ q
          /\ forallb (fun b => strings.asciiSpace (b2z b)) p = true
          /\ forallb (fun b => strings.asciiSpace (b2z b)) q = true)
      /\ (strings.TrimSpace s = []
          \/ exists (first last_ : byte) (t t' : str),
               strings.TrimSpace s = first :: t
               /\ strings.TrimSpace s = t' ++ [last_]
               /\ strings.asciiSpace (b2z first) = false
               /\ strings.asciiSpace (b2z last_) = false)
      /\ strings.TrimSpace (strings.TrimSpace s) = strings.TrimSpace s).
Proof.
  split; [apply TrimSpace_substring|]. intros Ha.
  destruct (TrimSpace_ascii_ends s Ha) as (p & q & E & Hp & Hq & Hends).
  split; [now exists p, q|]. split; [exact Hends|].
  destruct Hends as [->|(first & last_ & t & t' & E1 & E2 & H1 & H2)];
    [reflexivity|].
  pose proof (TrimSpace_ascii s Ha) as Hta.
  rewrite E1 in *. cbn [strings.TrimSpace].
  pose proof Hta as Hta'. cbn [isASCII forallb] in Hta'.
  apply andb_true_iff in Hta'. destruct Hta' as [Hc _].
  apply Z.ltb_lt in Hc.
  destruct (Z.geb_spec (b2z first) utf8.RuneSelf) as [Hge|_];
    [unfold utf8.RuneSelf in Hge; lia|].
  rewrite H1.
  destruct (TrimSpace_stop_ascii_spec (first :: t)
              (List.length (first :: t)) Hta)
    as (k & Hk & Ek & Hsp & _); [lia|].
  rewrite Ek. rewrite firstn_all in Hsp.
  destruct (Nat.eq_dec k (List.length (first :: t))) as [->|Hne];
    [apply firstn_all|].
  exfalso. rewrite E2 in Hsp, Hk, Hne.
  rewrite length_app in Hk, Hne. cbn [List.length] in Hk, Hne.
  rewrite skipn_app, forallb_app in Hsp.
  apply andb_true_iff in Hsp. destruct Hsp as [_ Hsp].
  replace (k - List.length t')%nat with O in Hsp by lia.
  cbn in Hsp. rewrite H2 in Hsp. discriminate.
Qed.

(** ** The decoders on characters *)

Lemma decode_spec_scalar (c : str) :
  is_char c = true -> scalarOfWidth (fst (decode_spec c)) (len c).
Proof.
  intros Hc. unfold scalarOfWidth.
  char_cases Hc; cbn [decode_spec] in *.
  - rewrite Hc. cbn [fst]. apply Z.ltb_lt in Hc.
    pose proof (b2z_range b). left. unfold len. cbn. lia.
  - destruct (wf2_lead _ _ Hc) as (E1 & _). rewrite E1, Hc. cbn [fst].
    rewrite rune2_eq.
    pose proof (b2z_range b). pose proof (b2z_range b0).
    right. left. unfold len. cbn [List.length Z.of_nat Pos.of_succ_nat].
    split; [reflexivity|]. wf_hyps; Z.div_mod_to_equations; lia.
  - destruct (wf3_lead _ _ _ Hc) as (E1 & E2 & _). rewrite E1, E2, Hc.
    cbn [fst]. rewrite rune3_eq.
    pose proof (b2z_range b). pose proof (b2z_range b0).
    pose proof (b2z_range b1).
    right. right. left. unfold len.
    split; [reflexivity|]. wf_hyps; Z.div_mod_to_equations; lia.
  - destruct (wf4_lead _ _ _ _ Hc) as (E1 & E2 & E3 & _).
    rewrite E1, E2, E3, Hc. cbn [fst]. rewrite rune4_eq.
    pose proof (b2z_range b). pose proof (b2z_range b0).
    pose proof (b2z_range b1). pose proof (b2z_range b2).
    right. right. right. unfold len.
    split; [reflexivity|]. wf_hyps; Z.div_mod_to_equations; lia.
Qed.

(** X6: On a character of UTF-8 (a well-formed sequence of the Unicode
    standard), DecodeRuneInString, at the head of a string, and
    DecodeLastRuneInString, at the end of one, return the same rune and the
    number of bytes of the character as width; the rune is the scalar value
    that takes that many bytes (no overlong form, no surrogate, nothing above
    U+10FFFF), and it is RuneError only for the character U+FFFD. *)
Theorem utf8_decoders_agree_on_characters (p c s : str) :
  is_char c = true ->
  utf8.DecodeRuneInString (c ++ s) = utf8.DecodeLastRuneInString (p ++ c)
  /\ snd (utf8.DecodeRuneInString (c ++ s)) = len c
  /\ scalarOfWidth (fst (utf8.DecodeRuneInString (c ++ s))) (len c)
  /\ (fst (utf8.DecodeRuneInString (c ++ s)) = utf8.RuneError
      <-> c = replacementChar).
Proof.
  intros Hc. rewrite DecodeRune_eq, (DecodeLast_char p c Hc).
  destruct (decode_spec_char c s Hc) as [-> Hw].
  split; [reflexivity|]. split; [exact Hw|].
  split; [now apply decode_spec_scalar|]. split.
  - now apply decode_spec_RuneError.
  - intros ->. reflexivity.
Qed.

Lemma utf8_decoders_agree_on_characters_witness :
  utf8.DecodeRuneInString ([xe2; x82; xac] ++ bs "5")
  = utf8.DecodeLastRuneInString (bs "5" ++ [xe2; x82; xac])
  /\ snd (utf8.DecodeRuneInString ([xe2; x82; xac] ++ bs "5"))
     = len [xe2; x82; xac]
  /\ scalarOfWidth (fst (utf8.DecodeRuneInString ([xe2; x82; xac] ++ bs "5")))
       (len [xe2; x82; xac])
  /\ (fst (utf8.DecodeRuneInString ([xe2; x82; xac] ++ bs "5"))
      = utf8.RuneError
      <-> [xe2; x82; xac] = replacementChar).
Proof.
  apply (utf8_decoders_agree_on_characters (bs "5") [xe2; x82; xac] (bs "5")).
  reflexivity.
Defined.

(** X7: On a string that does not begin with a character of UTF-8, and only on
    such a string, DecodeRuneInString returns RuneError with width 1; on the
    empty string both decoders return RuneError with width 0. *)
Theorem utf8_decode_error_iff_ill_formed (s : str) :
  s <> [] ->
  (utf8.DecodeRuneInString s = (utf8.RuneError, 1)
   <-> forall c q : str, s = c ++ q -> is_char c = false)
  /\ utf8.DecodeRuneInString [] = (utf8.RuneError, 0)
  /\ utf8.DecodeLastRuneInString [] = (utf8.RuneError, 0).
Proof.
  intros Hne. split; [|split; reflexivity]. rewrite DecodeRune_eq. split.
  - intros E c q -> . destruct (is_char c) eqn:Hc; [|reflexivity]. exfalso.
    destruct (decode_spec_char c q Hc) as [E1 Hw].
    pose proof (decode_spec_scalar c Hc) as Hs.
    rewrite E1 in E. rewrite E in Hw, Hs. cbn [fst snd] in *.
    unfold scalarOfWidth, utf8.RuneError in Hs. lia.
  - intros H.
    assert (Hno : forall c q : str, s = c ++ q -> is_char c = true -> False).
    { intros c q E Hc. rewrite (H c q E) in Hc. discriminate. }
    clear H. destruct s as [|b0 t0]; [congruence|]. cbn [decode_spec].
    destruct (b2z b0 <? 0x80) eqn:E0.
    { exfalso. apply (Hno [b0] t0); [reflexivity|exact E0]. }
    destruct t0 as [|b1 t1]; [reflexivity|].
    destruct (wf2 (b2z b0) (b2z b1)) eqn:E1.
    { exfalso. apply (Hno [b0; b1] t1); [reflexivity|exact E1]. }
    destruct t1 as [|b2 t2]; [reflexivity|].
    destruct (wf3 (b2z b0) (b2z b1) (b2z b2)) eqn:E2.
    { exfalso. apply (Hno [b0; b1; b2] t2); [reflexivity|exact E2]. }
    destruct t2 as [|b3 t3]; [reflexivity|].
    destruct (wf4 (b2z b0) (b2z b1) (b2z b2) (b2z b3)) eqn:E3;
      [|reflexivity].
    exfalso. apply (Hno [b0; b1; b2; b3] t3); [reflexivity|exact E3].
Qed.

Lemma utf8_decode_error_iff_ill_formed_witness :
  (utf8.DecodeRuneInString [xe2; x82] = (utf8.RuneError, 1)
   <-> forall c q : str, [xe2; x82] = c ++ q -> is_char c = false)
  /\ utf8.DecodeRuneInString [] = (utf8.RuneError, 0)
  /\ utf8.DecodeLastRuneInString [] = (utf8.RuneError, 0).
Proof.
  apply (utf8_decode_error_iff_ill_formed [xe2; x82]). discriminate.
Defined.

(** ** ClipMessage on arbitrary and on valid texts *)

Lemma sub_small (a b : Z) :
  GoInt.is_int a -> 0 <= b -> GoInt.minInt <= a - b -> GoInt.sub a b = a - b.
Proof.
  intros Ha Hb Hm. apply wrap_small. unfold GoInt.is_int in *. lia.
Qed.

Lemma ends_complete_DecodeLast (s : str) :
  s = [] \/ isRuneError (utf8.DecodeLastRuneInString s) = false ->
  ends_complete s = true.
Proof.
  destruct s as [|b s]; [reflexivity|]. intros [E|E]; [discriminate|].
  apply DecodeLast_ok_inv in E; [|discriminate].
  destruct E as (p & c & -> & Hc). now apply ends_complete_char.
Qed.

Lemma clip_backup_ends_complete (t t' : str) :
  len t <= GoInt.maxInt ->
  clip_backup (List.length t) t = Some t' ->
  ends_complete t' = true /\ exists k : nat, t' = firstn k t.
Proof.
  intros Hmax E.
  destruct (clip_backup_spec (List.length t) t) as (k & _ & Ek & Hok & _);
    [lia|assumption|].
  rewrite Ek in E. inversion E. subst t'. split; [|now exists k].
  apply ends_complete_DecodeLast. destruct Hok as [->|Hok]; auto.
Qed.

(** X8: When ClipMessage clips a text, of any bytes, the result is a proper
    prefix of the text followed by the marker, it fits the budget, and the
    prefix is empty or ends with a complete character: no character is cut,
    even in a text that is not valid UTF-8. *)
Theorem ClipMessage_clipped_shape (text : str) (length : Z) (cm y : str) :
  GoInt.is_int length ->
  len text + len (effectiveClippingMessage cm) <= GoInt.maxInt ->
  len text > length ->
  ClipMessage text length cm = Some y ->
  exists kept dropped : str,
    y = kept ++ effectiveClippingMessage cm
    /\ text = kept ++ dropped
    /\ dropped <> []
    /\ len y <= length
    /\ ends_complete kept = true.
Proof.
  intros Hint Hfit Hlong Hy.
  destruct (ClipMessage_fits text length cm y Hint Hfit Hlong Hy)
    as (t0 & E0 & Hlen & k0 & Ek0).
  destruct (ClipMessage_inv text length cm y Hy)
    as [[Hle _]|(_ & t & t' & Es & Eb & Ey)]; [lia|].
  apply slice_to_Some_inv in Es. destruct Es as [Hk Et].
  pose proof (len_nonneg (effectiveClippingMessage cm)) as Hcm.
  destruct (clip_backup_ends_complete t t') as (Hec & _); [|exact Eb|].
  { subst t. rewrite len_firstn by lia. lia. }
  assert (Et' : t' = firstn k0 text).
  { rewrite <- Ek0. rewrite E0 in Ey. now apply app_inv_tail in Ey. }
  exists t', (skipn k0 text). repeat split; try assumption.
  - rewrite Et'. symmetry. apply firstn_skipn.
  - intros Hnil. rewrite Ey, len_app in Hlen.
    assert (len text = len t').
    { rewrite <- (firstn_skipn k0 text) at 1. rewrite Hnil, app_nil_r.
      now rewrite <- Et'. }
    pose proof (len_pos _ (effectiveClippingMessage_nonempty cm)). lia.
Qed.

Lemma ClipMessage_clipped_shape_witness :
  exists kept dropped : str,
    bs "caf_" = kept ++ effectiveClippingMessage (bs "_")
    /\ bs "caf" ++ [xc3; xc3; xa9; xff; x21] = kept ++ dropped
    /\ dropped <> []
    /\ len (bs "caf_") <= 6
    /\ ends_complete kept = true.
Proof.
  apply (ClipMessage_clipped_shape (bs "caf" ++ [xc3; xc3; xa9; xff; x21]) 6
           (bs "_")).
  - vm_compute. split; discriminate.
  - vm_compute. discriminate.
  - reflexivity.
  - vm_compute. reflexivity.
Defined.

Lemma isASCII_no_replacementChar (s : str) :
  isASCII s = true -> has_replacementChar s = false.
Proof.
  induction s as [|b s IH]; [reflexivity|]. cbn [isASCII forallb].
  intros H. apply andb_true_iff in H. destruct H as [Hb Hs].
  cbn [has_replacementChar]. rewrite (IH Hs), orb_false_r.
  destruct s as [|b1 [|b2 s']]; try reflexivity.
  destruct (Byte.eqb b xef) eqn:E; [|reflexivity].
  apply Byte.byte_dec_bl in E. subst b. discriminate.
Qed.

Lemma DecodeLast_ascii (s : str) :
  isASCII s = true -> s <> [] ->
  isRuneError (utf8.DecodeLastRuneInString s) = false.
Proof.
  intros Hs Hne. destruct (exists_last Hne) as (p & b & ->).
  apply isASCII_app_r in Hs. cbn in Hs. rewrite andb_true_r in Hs.
  rewrite (DecodeLast_char p [b]) by exact Hs.
  unfold isRuneError, decode_spec. rewrite Hs. cbn [fst].
  apply Z.ltb_lt in Hs. apply Z.eqb_neq. unfold utf8.RuneError. lia.
Qed.

(** X9: On a valid text without U+FFFD that is longer than a budget with room
    for the marker, ClipMessage leaves at most 3 bytes of the budget unused;
    on an ASCII text it cuts at the budget less the marker exactly and the
    result has the length of the budget. *)
Theorem ClipMessage_uses_budget (text : str) (length : Z) (cm : str) :
  GoInt.is_int length ->
  len text + len (effectiveClippingMessage cm) <= GoInt.maxInt ->
  len (effectiveClippingMessage cm) <= length < len text ->
  (valid_utf8 text = true -> has_replacementChar text = false ->
   exists y : str,
     ClipMessage text length cm = Some y /\ length - 3 <= len y <= length)
  /\ (isASCII text = true ->
      ClipMessage text length cm
      = Some (firstn (Z.to_nat (length - len (effectiveClippingMessage cm)))
                text ++ effectiveClippingMessage cm)
      /\ len (firstn (Z.to_nat (length - len (effectiveClippingMessage cm)))
                text ++ effectiveClippingMessage cm) = length).
Proof.
  intros Hint Hfit Hlen.
  set (cm' := effectiveClippingMessage cm) in *.
  pose proof (len_nonneg cm') as Hcm.
  pose proof (len_nonneg text) as Htx.
  assert (Hbase : forall (Hwf : wf_utf8 text)
                         (Hrc : has_replacementChar text = false),
             exists k : Z,
               0 <= k <= length - len cm'
               /\ ClipMessage text length cm
                  = Some (firstn (Z.to_nat k) text ++ cm')
               /\ largest_boundary text (length - len cm') k
               /\ length - len cm' - k <= 3).
  { intros Hwf Hrc.
    destruct (clip_backup_boundary text (length - len cm') Hwf)
      as (k & Hk & Ek & _ & Hmax); [lia|lia|].
    destruct (Hmax Hrc) as (Hlb & H3).
    exists k. split; [exact Hk|]. split; [|split; assumption].
    unfold ClipMessage. fold cm'.
    destruct (Z.gtb_spec (len text) length); [|lia].
    rewrite sub_small
      by (unfold GoInt.is_int, GoInt.minInt, GoInt.maxInt, GoInt.intSize in *;
          lia).
    rewrite slice_to_Some by lia. cbn [bind]. rewrite Ek. reflexivity. }
  split.
  - intros Hv Hrc. apply valid_utf8_iff in Hv.
    destruct (Hbase Hv Hrc) as (k & Hk & E & _ & H3).
    eexists. split; [exact E|]. rewrite len_app, len_firstn by lia. lia.
  - intros Ha.
    destruct (Hbase (isASCII_wf text Ha) (isASCII_no_replacementChar text Ha))
      as (k & Hk & E & (_ & _ & Hmax) & _).
    assert (k = length - len cm') as ->.
    { destruct (Z.eq_dec k (length - len cm')) as [|Hne]; [assumption|].
      exfalso. specialize (Hmax (length - len cm') ltac:(lia)).
      assert (boundary text (length - len cm') = true); [|congruence].
      apply boundary_wf; [now apply isASCII_wf|].
      now apply isASCII_wf, isASCII_firstn. }
    split; [exact E|]. rewrite len_app, len_firstn by lia. lia.
Qed.

Lemma ClipMessage_uses_budget_witness :
  (valid_utf8 (bs "na" ++ [xc3; xaf] ++ bs "ve caf" ++ [xc3; xa9]) = true ->
   has_replacementChar (bs "na" ++ [xc3; xaf] ++ bs "ve caf" ++ [xc3; xa9])
   = false ->
   exists y : str,
     ClipMessage (bs "na" ++ [xc3; xaf] ++ bs "ve caf" ++ [xc3; xa9]) 6
       (bs "...") = Some y
     /\ 6 - 3 <= len y <= 6)
  /\ (isASCII (bs "na" ++ [xc3; xaf] ++ bs "ve caf" ++ [xc3; xa9]) = true ->
      ClipMessage (bs "na" ++ [xc3; xaf] ++ bs "ve caf" ++ [xc3; xa9]) 6
        (bs "...")
      = Some (firstn (Z.to_nat (6 - len (effectiveClippingMessage (bs "..."))))
                (bs "na" ++ [xc3; xaf] ++ bs "ve caf" ++ [xc3; xa9])
              ++ effectiveClippingMessage (bs "..."))
      /\ len (firstn
                (Z.to_nat (6 - len (effectiveClippingMessage (bs "..."))))
                (bs "na" ++ [xc3; xaf] ++ bs "ve caf" ++ [xc3; xa9])
              ++ effectiveClippingMessage (bs "...")) = 6).
Proof.
  apply (ClipMessage_uses_budget
           (bs "na" ++ [xc3; xaf] ++ bs "ve caf" ++ [xc3; xa9]) 6 (bs "...")).
  - vm_compute. split; discriminate.
  - vm_compute. discriminate.
  - vm_compute. split; [discriminate|reflexivity].
Defined.

(** ** ClipOrSplitMessage: the sizes of the parts *)

Lemma split_loop_stop (n : nat) (L M : Z) (st : split_state) :
  split_cond L M st = false -> split_loop n L M st = Some st.
Proof. intros E. destruct n; cbn [split_loop]; [|rewrite E]; reflexivity. Qed.

(** X10: A text within the budget is returned as the only fragment, unchanged,
    whatever the marker and the number of parts allowed. *)
Theorem ClipOrSplitMessage_short (text : str) (length : Z) (cm : str)
    (splitMax : Z) :
  len text <= length ->
  ClipOrSplitMessage text length cm splitMax = Some [text].
Proof.
  intros H. unfold ClipOrSplitMessage.
  rewrite split_loop_stop.
  - cbn [bind remainingText msgParts]. now rewrite ClipMessage_short.
  - unfold split_cond. cbn [remainingText].
    destruct (Z.gtb_spec (len text) length); [lia|apply andb_false_r].
Qed.

Lemma ClipOrSplitMessage_short_witness :
  ClipOrSplitMessage (bs "short") 10 (bs "...") 3 = Some [bs "short"].
Proof.
  apply (ClipOrSplitMessage_short (bs "short") 10 (bs "...") 3).
  vm_compute. discriminate.
Defined.

Lemma runeWidthBound_app_r (p q : str) :
  runeWidthBound q <= runeWidthBound (p ++ q).
Proof.
  pose proof (runeWidthBound_range q). unfold runeWidthBound in *.
  destruct (isASCII (p ++ q)) eqn:E; [|lia].
  apply isASCII_app_r in E. rewrite E. lia.
Qed.

Lemma split_body_chunk (L : Z) (st st' : split_state) :
  GoInt.is_int L -> 1 <= L -> len (remainingText st) > L ->
  split_body L st = Some st' ->
  exists chunk : str,
    msgParts st' = msgParts st ++ [chunk]
    /\ remainingText st = chunk ++ remainingText st'
    /\ Z.max (L - (runeWidthBound (remainingText st) - 1)) 1 <= len chunk
    /\ len chunk <= L.
Proof.
  intros Hint HL Hlong Hb.
  destruct (split_body_spec L st Hint Hlong)
    as (chunk & rest & Eb & Er & Ec & _).
  rewrite Eb in Hb. inversion Hb. subst st'. clear Hb.
  exists chunk. cbn [msgParts remainingText].
  split; [reflexivity|]. split; [exact Er|].
  destruct (chunk_loop_spec 5 (remainingText st) L [] 0) as [_ Hgo];
    try assumption; try lia.
  destruct Hgo as (j & Hj & HjL & Ej & Hbad & _); [lia|].
  rewrite Ej in Ec. inversion Ec as [Echunk].
  rewrite len_firstn by lia.
  pose proof (runeWidthBound_range (remainingText st)) as Hw.
  unfold runeWidthBound in *.
  destruct (isASCII (remainingText st)) eqn:Ea; [|lia].
  assert (j = 0); [|lia].
  destruct (Z.eq_dec j 0) as [|Hne]; [assumption|]. exfalso.
  specialize (Hbad 0 ltac:(lia)). rewrite Z.sub_0_r in Hbad.
  rewrite DecodeLast_ascii in Hbad; [discriminate| |].
  - now apply isASCII_firstn.
  - intros Hnil. apply (f_equal len) in Hnil.
    rewrite len_firstn in Hnil by lia. change (len []) with 0 in Hnil. lia.
Qed.

Lemma split_reach_sizes (text : str) (L M : Z) (st : split_state) :
  GoInt.is_int L -> 1 <= L ->
  split_reach text L M st ->
  Forall (fun p => Z.max (L - (runeWidthBound text - 1)) 1 <= len p <= L)
    (msgParts st)
  /\ runeWidthBound (remainingText st) <= runeWidthBound text.
Proof.
  intros Hint HL. induction 1 as [|st st' _ [IHp IHw] Hc Hb].
  - split; [constructor|apply Z.le_refl].
  - unfold split_cond in Hc. apply andb_true_iff in Hc.
    destruct Hc as [_ Hc]. apply Z.gtb_lt in Hc.
    destruct (split_body_chunk L st st' Hint HL ltac:(lia) Hb)
      as (chunk & -> & Er & Hlo & Hhi).
    split.
    + apply Forall_app. split; [exact IHp|]. constructor; [lia|constructor].
    + pose proof (runeWidthBound_app_r chunk (remainingText st')) as Hr.
      rewrite <- Er in Hr. lia.
Qed.


(** X11: The fragments that ClipOrSplitMessage cuts before the last one use
    the budget up to 3 bytes, and fully when the text is ASCII: for a budget
    of at least 1, every fragment but the last has between 1 and length bytes,
    and at least length less the greatest width of a character of the text (1
    for ASCII, 4 otherwise) plus 1. This holds for texts of any bytes. *)
Theorem ClipOrSplitMessage_part_sizes (text : str) (length : Z) (cm : str)
    (splitMax : Z) (r : list str) :
  GoInt.is_int length -> 1 <= length ->
  ClipOrSplitMessage text length cm splitMax = Some r ->
  exists (parts : list str) (last : str),
    r = parts ++ [last]
    /\ Forall (fun p => 1 <= len p <= length
                        /\ length - (runeWidthBound text - 1) <= len p) parts
    /\ (isASCII text = true -> Forall (fun p => len p = length) parts).
Proof.
  intros Hint HL Hr.
  destruct (ClipOrSplitMessage_inv text length cm splitMax r Hr)
    as (st & last & Hloop & _ & ->).
  assert (Hreach : split_reach text length splitMax st).
  { eapply split_loop_reach; [apply reach_init|exact Hloop]. }
  destruct (split_reach_sizes text length splitMax st Hint HL Hreach)
    as (Hsz & _).
  exists (msgParts st), last. split; [reflexivity|]. split.
  - eapply Forall_impl; [|exact Hsz]. cbv beta. intros p Hp. lia.
  - intros Ha. eapply Forall_impl; [|exact Hsz]. cbv beta. intros p Hp.
    unfold runeWidthBound in Hp. rewrite Ha in Hp. lia.
Qed.

Lemma ClipOrSplitMessage_part_sizes_witness :
  exists (parts : list str) (last : str),
    [bs "abcd"; bs "efgh"; bs "ij"] = parts ++ [last]
    /\ Forall (fun p => 1 <= len p <= 4
                        /\ 4 - (runeWidthBound (bs "abcdefghij") - 1) <= len p)
         parts
    /\ (isASCII (bs "abcdefghij") = true ->
        Forall (fun p => len p = 4) parts).
Proof.
  apply (ClipOrSplitMessage_part_sizes (bs "abcdefghij") 4 (bs "_") 3).
  - vm_compute. split; discriminate.
  - lia.
  - reflexivity.
Defined.



Lemma concat_len_upper (m : Z) (ps : list str) :
  Forall (fun p => len p <= m) ps -> len (List.concat ps) <= len ps * m.
Proof.
  induction 1 as [|p ps Hp _ IH]; [apply Z.le_refl|].
  cbn [List.concat]. rewrite len_cons, len_app. lia.
Qed.

(** X13: When the text is longer than splitMax fragments of the budget can
    hold, ClipOrSplitMessage, if it returns, returns exactly splitMax
    fragments, and the last one ends with the marker: the loss of text is
    marked. *)
Theorem ClipOrSplitMessage_overflow_is_marked (text : str) (length : Z)
    (cm : str) (splitMax : Z) (r : list str) :
  GoInt.is_int length -> GoInt.is_int splitMax ->
  1 <= length -> 1 <= splitMax ->
  len text + len (effectiveClippingMessage cm) <= GoInt.maxInt ->
  len text > splitMax * length ->
  ClipOrSplitMessage text length cm splitMax = Some r ->
  len r = splitMax
  /\ exists (parts : list str) (kept : str),
       r = parts ++ [kept ++ effectiveClippingMessage cm]
       /\ len (List.concat parts ++ kept) < len text.
Proof.
  intros Hint HintM HL HM Hfit Hlong Hr.
  destruct (ClipOrSplitMessage_inv text length cm splitMax r Hr)
    as (st & last & Hloop & Hlast & ->).
  assert (Hreach : split_reach text length splitMax st).
  { eapply split_loop_reach; [apply reach_init|exact Hloop]. }
  pose proof (split_loop_exit _ _ _ _ Hloop) as Hexit.
  pose proof (split_reach_invariant _ _ _ _ Hreach) as Hinv.
  pose proof (split_reach_fit text length splitMax st Hint HL Hreach) as Hsz.
  destruct (split_loop_parts _ _ _ _ _ Hloop) as (Hparts & _).
  cbn [msgParts] in Hparts. change (len (@nil str)) with 0 in Hparts.
  assert (Hsub : GoInt.sub splitMax 1 = splitMax - 1).
  { apply sub_small; [assumption|lia|].
    unfold GoInt.is_int, GoInt.minInt, GoInt.intSize in *. lia. }
  unfold split_fuel in Hparts. rewrite Hsub in Hparts.
  pose proof (concat_len_upper length (msgParts st) Hsz) as Hup.
  pose proof (f_equal len Hinv) as Hlen. rewrite len_app in Hlen.
  pose proof (len_nonneg (msgParts st)) as Hnn.
  assert (Hrem : len (remainingText st) > length) by nia.
  assert (Hcount : len (msgParts st) = splitMax - 1).
  { unfold split_cond in Hexit. rewrite Hsub in Hexit.
    apply andb_false_iff in Hexit. destruct Hexit as [Hexit|Hexit].
    - apply Z.ltb_ge in Hexit. lia.
    - destruct (Z.gtb_spec (len (remainingText st)) length);
        [discriminate|lia]. }
  pose proof (len_nonneg (List.concat (msgParts st))) as Hcn.
  destruct (ClipMessage_fits (remainingText st) length cm last)
    as (t & -> & Hy & k & ->); try assumption; try lia.
  split.
  - rewrite len_app. change (len [_]) with 1. lia.
  - eexists _, _. split; [reflexivity|].
    rewrite len_app in *.
    pose proof (len_pos _ (effectiveClippingMessage_nonempty cm)). lia.
Qed.

Lemma ClipOrSplitMessage_overflow_is_marked_witness :
  len [bs "abcd"; bs "efgh"; bs "ijkl"; bs "mn.."] = 4
  /\ exists (parts : list str) (kept : str),
       [bs "abcd"; bs "efgh"; bs "ijkl"; bs "mn.."]
       = parts ++ [kept ++ effectiveClippingMessage (bs "..")]
       /\ len (List.concat parts ++ kept) < len (bs "abcdefghijklmnopqrs").
Proof.
  apply (ClipOrSplitMessage_overflow_is_marked (bs "abcdefghijklmnopqrs") 4
           (bs "..") 4).
  - vm_compute. split; discriminate.
  - vm_compute. split; discriminate.
  - lia.
  - lia.
  - vm_compute. discriminate.
  - reflexivity.
  - reflexivity.
Defined.

(** ** GetSubLines: no text is lost *)

Lemma firstn_skipn_firstn (l : str) (a b : nat) :
  (a <= b)%nat -> firstn a l ++ skipn a (firstn b l) = firstn b l.
Proof.
  intros H. rewrite <- (firstn_skipn a (firstn b l)) at 2.
  rewrite firstn_firstn. now rewrite Nat.min_l.
Qed.

(** The body of the loop over the lines cuts a line that is not empty into
    pieces; [K] is an invariant of the splitting loop on the offset of the
    next iteration, the two positions and the pieces cut so far. *)
Lemma subline_body_cut (K : Z -> Z -> Z -> list str -> Prop)
    (B : Z -> Prop) (W : Z) (M : Z) (cm : str) (lines : list str)
    (line : str) :
  line <> [] ->
  Steps B W 0 (len line) (map fst (range line)) ->
  K 0 0 0 [] ->
  (forall (i w ss prev : Z) (ps : list str),
      B i -> 1 <= w <= W -> i + w <= len line ->
      0 <= ss <= prev -> prev <= i -> K i ss prev ps ->
      if GoInt.sub i ss >? GoInt.sub M (len cm)
      then K (i + w) prev i
             (ps ++ [skipn (Z.to_nat ss) (firstn (Z.to_nat prev) line)])
      else K (i + w) ss i ps) ->
  exists c : cutLine,
    subline_body M cm lines line = Some (lines ++ fragmentsOf cm c)
    /\ lineOf c = line
    /\ ((M = 0 \/ len line <= M) /\ c = ([], line)
        \/ M <> 0 /\ M < len line
           /\ exists ss prev : Z,
                0 <= ss <= prev /\ prev < len line
                /\ K (len line) ss prev (fst c)
                /\ snd c = skipn (Z.to_nat ss) line).
Proof.
  intros Hne Hsteps Hinit Hstep. unfold subline_body.
  destruct line as [|b line']; [congruence|].
  set (line := b :: line') in *.
  destruct ((M =? 0) || (len line <=? M)) eqn:Ec.
  - exists ([], line). repeat split. left. split; [|reflexivity].
    apply orb_true_iff in Ec.
    destruct Ec as [Ec|Ec];
      [left; now apply Z.eqb_eq|right; now apply Z.leb_le].
  - set (st0 := {| sl_lines := lines; splitStart := 0;
                   startOfPreviousRune := 0 |}).
    pose proof (len_nonneg line) as Hlen.
    assert (Hpos0 : 0 < len line).
    { unfold line. rewrite len_cons. pose proof (len_nonneg line'). lia. }
    destruct (subline_loop_inv B W
                (fun i st =>
                   subline_pos (len line) i st
                   /\ exists ps : list str,
                        sl_lines st = lines ++ map (fun p => p ++ cm) ps
                        /\ List.concat ps
                           = firstn (Z.to_nat (splitStart st)) line
                        /\ K i (splitStart st) (startOfPreviousRune st) ps)
                line M cm (len line)) with (idxs := map fst (range line))
                (i := 0) (st := st0) as (st & -> & Hpos & ps & Hl & Hc & HK).
    + intros i w st HB Hw He [Hpos (ps & Hl & Hc & HK)].
      exists (subline_next line M cm st i). split; [|split].
      * apply subline_step_eq; unfold subline_pos in Hpos; lia.
      * apply subline_pos_step; [lia|lia|exact Hpos].
      * specialize (Hstep i w (splitStart st) (startOfPreviousRune st) ps
                      HB Hw He).
        unfold subline_pos in Hpos.
        specialize (Hstep ltac:(lia) ltac:(lia) HK).
        unfold subline_next.
        destruct (_ >? _); cbn [sl_lines splitStart startOfPreviousRune];
          [|exists ps; repeat split; assumption].
        exists (ps ++ [skipn (Z.to_nat (splitStart st))
                         (firstn (Z.to_nat (startOfPreviousRune st)) line)]).
        split; [|split; [|exact Hstep]].
        -- rewrite Hl, map_app, <- app_assoc. reflexivity.
        -- rewrite concat_app, Hc. cbn [List.concat]. rewrite app_nil_r.
           apply firstn_skipn_firstn. lia.
    + exact Hsteps.
    + split; [unfold subline_pos, st0; cbn; lia|].
      exists []. cbn. rewrite app_nil_r. auto.
    + cbn [bind]. unfold subline_pos in Hpos.
      rewrite slice_from_Some by lia.
      cbn [bind]. exists (ps, skipn (Z.to_nat (splitStart st)) line).
      unfold fragmentsOf, lineOf. cbn [fst snd]. split; [|split].
      * now rewrite Hl, <- app_assoc.
      * rewrite Hc. apply firstn_skipn.
      * right. apply orb_false_iff in Ec. destruct Ec as [E0 E1].
        apply Z.eqb_neq in E0. apply Z.leb_gt in E1.
        split; [exact E0|]. split; [exact E1|].
        exists (splitStart st), (startOfPreviousRune st).
        repeat split; try assumption; lia.
Qed.

(** The loop over the lines, for a property [Q] of the cut lines that the
    body establishes on the lines that satisfy [R]. *)
Lemma sublines_of_cut (R : str -> Prop) (Q : cutLine -> Prop) (M : Z)
    (cm : str) :
  (forall (lines : list str) (line : str),
      line <> [] -> R line ->
      exists c : cutLine,
        subline_body M cm lines line = Some (lines ++ fragmentsOf cm c)
        /\ lineOf c = line /\ Q c) ->
  forall ls lines : list str,
    Forall R ls ->
    exists cs : list cutLine,
      sublines_of M cm ls lines
      = Some (lines ++ List.concat (map (fragmentsOf cm) cs))
      /\ map lineOf cs = filter nonEmpty ls
      /\ Forall Q cs.
Proof.
  intros Hbody ls. induction ls as [|line ls IH]; intros lines HR.
  - exists []. cbn. now rewrite app_nil_r.
  - inversion HR as [|? ? Hline HR']. subst.
    cbn [sublines_of filter]. destruct line as [|b line'].
    + cbn [subline_body bind nonEmpty]. now apply IH.
    + destruct (Hbody lines (b :: line')) as (c & -> & Hc & HQ);
        [discriminate|assumption|].
      cbn [bind nonEmpty].
      destruct (IH (lines ++ fragmentsOf cm c) HR') as (cs & -> & Hcs & F).
      exists (c :: cs). split; [|split].
      * cbn [map List.concat]. now rewrite <- app_assoc.
      * cbn [map]. now rewrite Hc, Hcs.
      * constructor; assumption.
Qed.

(** X14: GetSubLines loses no text of the lines: it always returns, and its
    fragments are, line after line of the non-empty lines of the trimmed
    message, consecutive pieces of the line, each piece but the last of a line
    followed by the marker. A line that fits the limit, or any line when the
    limit is 0, is one piece. *)
Theorem GetSubLines_loses_no_text (message : str) (maxLineLength : Z)
    (cm : str) :
  exists cs : list cutLine,
    GetSubLines message maxLineLength cm
    = Some (List.concat
              (map (fragmentsOf (effectiveClippingMessage cm)) cs))
    /\ map lineOf cs = nonEmptyLines message
    /\ Forall (fun c =>
                 maxLineLength = 0 \/ len (lineOf c) <= maxLineLength ->
                 fst c = []) cs.
Proof.
  unfold GetSubLines, nonEmptyLines.
  set (cm' := effectiveClippingMessage cm).
  destruct (sublines_of_cut (fun _ => True)
              (fun c => maxLineLength = 0 \/ len (lineOf c) <= maxLineLength ->
                        fst c = [])
              maxLineLength cm')
    with (ls := strings.Split (strings.TrimSpace message) newline)
         (lines := @nil str) as (cs & E & Hcs & F).
  - intros lines line Hne _.
    destruct (subline_body_cut (fun _ _ _ _ => True) (fun _ => True) 4
                maxLineLength cm' lines line Hne (range_steps line) I)
      as (c & E & Hc & Hcase).
    { intros. now destruct (_ >? _). }
    exists c. split; [exact E|]. split; [exact Hc|]. rewrite Hc.
    destruct Hcase as [[_ ->]|(H0 & H1 & _)]; [reflexivity|]. lia.
  - apply Forall_forall. auto.
  - exists cs. rewrite E. cbn [app]. auto.
Qed.

Lemma sublines_of_fit (M : Z) (cm : str) (ls lines : list str) :
  Forall (fun l => len l <= M) (filter nonEmpty ls) ->
  sublines_of M cm ls lines = Some (lines ++ filter nonEmpty ls).
Proof.
  revert lines. induction ls as [|line ls IH]; intros lines F.
  - cbn. now rewrite app_nil_r.
  - cbn [sublines_of filter] in *. destruct line as [|b line'].
    + cbn [subline_body bind nonEmpty] in *. now apply IH.
    + cbn [nonEmpty] in *. inversion F as [|? ? Hl F']. subst.
      unfold subline_body.
      destruct (Z.leb_spec (len (b :: line')) M); [|lia].
      rewrite orb_true_r. cbn [bind]. rewrite IH by assumption.
      now rewrite <- app_assoc.
Qed.

Lemma TrimSpace_blank (s : str) :
  forallb (fun b => strings.asciiSpace (b2z b)) s = true ->
  strings.TrimSpace s = [].
Proof.
  induction s as [|c s IH]; [reflexivity|]. cbn [forallb strings.TrimSpace].
  intros H. apply andb_true_iff in H. destruct H as [Hc Hs].
  rewrite Hc. rewrite (IH Hs).
  destruct (Z.geb_spec (b2z c) utf8.RuneSelf) as [Hge|]; [|reflexivity].
  exfalso. unfold strings.asciiSpace, utf8.RuneSelf in *.
  repeat (apply orb_true_iff in Hc; destruct Hc as [Hc|Hc]);
    apply Z.eqb_eq in Hc; lia.
Qed.

(** X15: A message whose non-empty lines all fit the limit, and so any message
    that is not longer than the limit, is returned as its non-empty lines,
    unchanged and without marker; a message made of ASCII white space only
    (and so the empty one) gives no fragment at all. *)
Theorem GetSubLines_fitting_lines_unchanged (message : str)
    (maxLineLength : Z) (cm : str) :
  (Forall (fun l => len l <= maxLineLength) (nonEmptyLines message) ->
   GetSubLines message maxLineLength cm = Some (nonEmptyLines message))
  /\ (len message <= maxLineLength ->
      GetSubLines message maxLineLength cm = Some (nonEmptyLines message))
  /\ (forallb (fun b => strings.asciiSpace (b2z b)) message = true ->
      GetSubLines message maxLineLength cm = Some []).
Proof.
  assert (H1 : Forall (fun l => len l <= maxLineLength)
                 (nonEmptyLines message) ->
               GetSubLines message maxLineLength cm
               = Some (nonEmptyLines message)).
  { intros F. unfold GetSubLines. now rewrite sublines_of_fit. }
  split; [exact H1|]. split.
  - intros Hlen. apply H1. unfold nonEmptyLines.
    apply Forall_forall. intros l Hin. apply filter_In in Hin.
    destruct Hin as [Hin _].
    pose proof (GetSubLines_lines_len message) as F.
    rewrite Forall_forall in F. specialize (F l Hin). cbv beta in F. lia.
  - intros Hb. unfold GetSubLines. now rewrite TrimSpace_blank.
Qed.

Lemma GetSubLines_fitting_lines_unchanged_witness :
  GetSubLines (bs "  one" ++ [newline; newline] ++ bs "two  ") 5 (bs "_")
  = Some (nonEmptyLines (bs "  one" ++ [newline; newline] ++ bs "two  "))
  /\ GetSubLines (bs " " ++ [newline; x09]) 5 (bs "_") = Some [].
Proof.
  split.
  - apply (proj1 (GetSubLines_fitting_lines_unchanged
                    (bs "  one" ++ [newline; newline] ++ bs "two  ") 5
                    (bs "_"))).
    vm_compute. repeat constructor; discriminate.
  - apply (proj2 (proj2 (GetSubLines_fitting_lines_unchanged
                           (bs " " ++ [newline; x09]) 5 (bs "_")))).
    reflexivity.
Defined.

(** X16: When the limit leaves room, besides the marker, for the widest
    character of the message (1 byte for ASCII, 4 otherwise), the pieces that
    GetSubLines marks are as long as the limit allows, up to one character:
    with the marker they have more than the limit less that width, and at most
    the limit, bytes. The last piece of a line is not empty and exceeds the
    limit by less than the width of one character. *)
Theorem GetSubLines_piece_sizes (message : str) (maxLineLength : Z)
    (cm : str) :
  GoInt.is_int maxLineLength -> len message <= GoInt.maxInt ->
  runeWidthBound message
  <= maxLineLength - len (effectiveClippingMessage cm) ->
  exists cs : list cutLine,
    GetSubLines message maxLineLength cm
    = Some (List.concat
              (map (fragmentsOf (effectiveClippingMessage cm)) cs))
    /\ map lineOf cs = nonEmptyLines message
    /\ Forall
         (fun c =>
            Forall
              (fun p =>
                 maxLineLength - runeWidthBound message
                 < len (p ++ effectiveClippingMessage cm) <= maxLineLength)
              (fst c)
            /\ 1 <= len (snd c)
            /\ len (snd c)
               <= Z.max maxLineLength
                    (maxLineLength - len (effectiveClippingMessage cm)
                     + runeWidthBound message))
         cs.
Proof.
  unfold GetSubLines, nonEmptyLines.
  set (cm' := effectiveClippingMessage cm). set (M := maxLineLength).
  set (W := runeWidthBound message).
  pose proof (runeWidthBound_range message) as HW. fold W in HW.
  pose proof (len_nonneg cm') as Hcm.
  intros HM Hmsg HD.
  assert (HsubM : GoInt.sub M (len cm') = M - len cm').
  { apply wrap_small.
    unfold GoInt.is_int, GoInt.minInt, GoInt.maxInt, GoInt.intSize in *.
    lia. }
  destruct (sublines_of_cut
              (fun line => len line <= len message /\ runeWidthBound line <= W)
              (fun c =>
                 Forall (fun p => M - W < len (p ++ cm') <= M) (fst c)
                 /\ 1 <= len (snd c)
                 /\ len (snd c) <= Z.max M (M - len cm' + W))
              M cm')
    with (ls := strings.Split (strings.TrimSpace message) newline)
         (lines := @nil str) as (cs & E & Hcs & F).
  - intros lines line Hne [Hline Hbound].
    destruct (subline_body_cut
                (fun i ss prev ps =>
                   Forall (fun p => M - W < len (p ++ cm') <= M) ps
                   /\ prev - ss <= M - len cm' /\ i - prev <= W)
                (fun _ => True) W M cm' lines line Hne)
      as (c & E & Hc & Hcase).
    + apply (Steps_mono _ (runeWidthBound line)); [exact Hbound|].
      apply range_steps_bound.
    + repeat split; [constructor|lia|lia].
    + intros i w ss prev ps _ Hw He Hss Hprev (HF & HK1 & HK2).
      assert (Hsub : GoInt.sub i ss = i - ss).
      { apply wrap_small.
        unfold GoInt.is_int, GoInt.minInt, GoInt.maxInt, GoInt.intSize in *.
        lia. }
      rewrite Hsub, HsubM.
      destruct (Z.gtb_spec (i - ss) (M - len cm')); repeat split;
        try assumption; try lia.
      apply Forall_app. split; [exact HF|]. constructor; [|constructor].
      rewrite len_app, len_slice by lia. lia.
    + exists c. split; [exact E|]. split; [exact Hc|].
      destruct Hcase as [[Hfit ->]|(_ & _ & ss & prev & H1 & H2 & HK & Hs)].
      * cbn [fst snd]. split; [constructor|].
        pose proof (len_pos line Hne). lia.
      * destruct HK as (HF & HK1 & HK2). split; [exact HF|].
        rewrite Hs. unfold len in *. rewrite length_skipn. lia.
  - pose proof (GetSubLines_lines_len message) as H1.
    pose proof (GetSubLines_lines_bound message) as H2.
    rewrite Forall_forall in *. intros l Hl. split; [now apply H1|].
    now apply H2.
  - exists cs. rewrite E. cbn [app]. auto.
Qed.

Lemma GetSubLines_piece_sizes_witness :
  exists cs : list cutLine,
    GetSubLines (bs "abcdefgh") 4 (bs "_")
    = Some (List.concat
              (map (fragmentsOf (effectiveClippingMessage (bs "_"))) cs))
    /\ map lineOf cs = nonEmptyLines (bs "abcdefgh")
    /\ Forall
         (fun c =>
            Forall
              (fun p =>
                 4 - runeWidthBound (bs "abcdefgh")
                 < len (p ++ effectiveClippingMessage (bs "_")) <= 4)
              (fst c)
            /\ 1 <= len (snd c)
            /\ len (snd c)
               <= Z.max 4
                    (4 - len (effectiveClippingMessage (bs "_"))
                     + runeWidthBound (bs "abcdefgh")))
         cs.
Proof.
  apply (GetSubLines_piece_sizes (bs "abcdefgh") 4 (bs "_")).
  - vm_compute. split; discriminate.
  - vm_compute. discriminate.
  - vm_compute. discriminate.
Defined.

(** ** GetSubLines after RemoveEmptyNewLines *)

Section TrimAndCollapse.

Local Abbreviation collapse := emptyLineMatcher_ReplaceAllString.
Local Abbreviation space := (fun b : byte => strings.asciiSpace (b2z b)).

Lemma asciiSpace_ascii (c : Z) : strings.asciiSpace c = true -> c < 0x80.
Proof.
  unfold strings.asciiSpace. intros H.
  repeat (apply orb_true_iff in H; destruct H as [H|H]);
    apply Z.eqb_eq in H; lia.
Qed.

Lemma newline_space (b : byte) :
  Byte.eqb b newline = true -> space b = true.
Proof. intros E. apply Byte.byte_dec_bl in E. now subst. Qed.

Lemma TrimSpace_leading (p s : str) :
  forallb space p = true -> strings.TrimSpace (p ++ s) = strings.TrimSpace s.
Proof.
  induction p as [|c p IH]; [reflexivity|]. cbn [forallb app].
  intros H. apply andb_true_iff in H. destruct H as [Hc Hp].
  cbn [strings.TrimSpace]. rewrite Hc.
  pose proof (asciiSpace_ascii _ Hc).
  destruct (Z.geb_spec (b2z c) utf8.RuneSelf) as [Hge|_];
    [unfold utf8.RuneSelf in Hge; lia|].
  now apply IH.
Qed.

Lemma TrimSpace_stop_app (stop : nat) (u v : str) :
  (stop <= List.length u)%nat ->
  strings.TrimSpace_stop (u ++ v) stop = strings.TrimSpace_stop u stop.
Proof.
  induction stop as [|stop IH]; intros Hs; cbn [strings.TrimSpace_stop].
  - reflexivity.
  - unfold at_. rewrite Nat2Z.id, app_nth1 by lia.
    rewrite firstn_app.
    replace (S stop - List.length u)%nat with O by lia.
    cbn [firstn]. rewrite app_nil_r. rewrite IH by lia. reflexivity.
Qed.

Lemma TrimSpace_stop_spaces (s : str) (stop k : nat) :
  (stop + k <= List.length s)%nat ->
  (forall j : nat, (j < k)%nat -> space (nth (stop + j) s x00) = true) ->
  strings.TrimSpace_stop s (stop + k) = strings.TrimSpace_stop s stop.
Proof.
  induction k as [|k IH]; intros Hk Hsp; [now rewrite Nat.add_0_r|].
  replace (stop + S k)%nat with (S (stop + k)) by lia.
  cbn [strings.TrimSpace_stop]. unfold at_. rewrite Nat2Z.id.
  pose proof (Hsp k ltac:(lia)) as Hc. cbv beta in Hc. rewrite Hc.
  pose proof (asciiSpace_ascii _ Hc).
  destruct (Z.geb_spec (b2z (nth (stop + k) s x00)) utf8.RuneSelf) as [Hge|_];
    [unfold utf8.RuneSelf in Hge; lia|].
  apply IH; [lia|]. intros j Hj. apply Hsp. lia.
Qed.

Lemma TrimSpace_stop_last (t : str) (l : byte) :
  b2z l < 0x80 -> space l = false ->
  strings.TrimSpace_stop (t ++ [l]) (List.length (t ++ [l])) = t ++ [l].
Proof.
  intros Hl Hsp. rewrite length_app. cbn [List.length].
  replace (List.length t + 1)%nat with (S (List.length t)) by lia.
  cbn [strings.TrimSpace_stop]. unfold at_. rewrite Nat2Z.id.
  rewrite app_nth2, Nat.sub_diag by lia. cbn [nth]. cbv beta in Hsp.
  rewrite Hsp.
  destruct (Z.geb_spec (b2z l) utf8.RuneSelf) as [Hge|_];
    [unfold utf8.RuneSelf in Hge; lia|].
  apply firstn_all2. rewrite length_app. cbn. lia.
Qed.

(** [TrimSpace] on white space around a text that begins and ends with
    ASCII characters other than white space. *)
Lemma TrimSpace_core (p q t' : str) (c l : byte) (t : str) :
  forallb space p = true -> forallb space q = true ->
  t = c :: t' -> (exists t'' : str, t = t'' ++ [l]) ->
  b2z c < 0x80 -> space c = false -> b2z l < 0x80 -> space l = false ->
  strings.TrimSpace (p ++ t ++ q) = t.
Proof.
  intros Hp Hq Ec (t'' & El) Hc Hcs Hl Hls.
  rewrite TrimSpace_leading by exact Hp.
  rewrite Ec at 1. cbn [app strings.TrimSpace]. cbv beta in Hcs.
  rewrite Hcs.
  destruct (Z.geb_spec (b2z c) utf8.RuneSelf) as [Hge|_];
    [unfold utf8.RuneSelf in Hge; lia|].
  change (c :: t' ++ q) with ((c :: t') ++ q). rewrite <- Ec.
  rewrite length_app, TrimSpace_stop_spaces.
  - rewrite TrimSpace_stop_app by lia. rewrite El.
    now apply TrimSpace_stop_last.
  - rewrite length_app. lia.
  - intros j Hj. rewrite app_nth2 by lia.
    replace (List.length t + j - List.length t)%nat with j by lia.
    rewrite forallb_forall in Hq. apply Hq, nth_In, Hj.
Qed.

Lemma space_not_newline (b : byte) :
  space b = false -> Byte.eqb b newline = false.
Proof.
  intros H. destruct (Byte.eqb b newline) eqn:E; [|reflexivity].
  apply newline_space in E. cbv beta in *. congruence.
Qed.

Lemma collapse_incl (m : bool) (s : str) (b : byte) :
  In b (collapse m s) -> In b s.
Proof.
  revert m. induction s as [|a s IH]; intros m; [auto|].
  cbn [emptyLineMatcher_ReplaceAllString].
  destruct (Byte.eqb a newline) eqn:E.
  - apply Byte.byte_dec_bl in E. subst a.
    destruct m; cbn [In]; [right; eauto|].
    intros [H|H]; [now left|right; eauto].
  - intros [H|H]; [now left|right; eauto].
Qed.

Lemma trimLeftByte_incl (s : str) (b : byte) :
  In b (strings.trimLeftByte s newline) -> In b s.
Proof.
  induction s as [|a s IH]; [auto|]. cbn [strings.trimLeftByte].
  destruct (Byte.eqb a newline); [right; auto|auto].
Qed.

Lemma trimRightByte_incl (s : str) (b : byte) :
  In b (strings.trimRightByte s newline) -> In b s.
Proof.
  unfold strings.trimRightByte. rewrite <- in_rev. intros H.
  apply trimLeftByte_incl in H. now apply in_rev.
Qed.

Lemma forallb_incl (f : byte -> bool) (s s' : str) :
  (forall b : byte, In b s' -> In b s) ->
  forallb f s = true -> forallb f s' = true.
Proof.
  intros Hi H. rewrite forallb_forall in *. auto.
Qed.

Lemma trimLeftByte_app (p s : str) :
  s <> [] -> noLeadingNewline s = true ->
  strings.trimLeftByte (p ++ s) newline
  = strings.trimLeftByte p newline ++ s.
Proof.
  intros Hne Hl. induction p as [|b p IH]; cbn [app strings.trimLeftByte].
  - now apply trimLeftByte_fixed.
  - destruct (Byte.eqb b newline); [exact IH|reflexivity].
Qed.

Lemma trimRightByte_app (s q : str) :
  s <> [] -> noTrailingNewline s = true ->
  strings.trimRightByte (s ++ q) newline
  = s ++ strings.trimRightByte q newline.
Proof.
  intros Hne Ht. unfold strings.trimRightByte.
  rewrite rev_app_distr, trimLeftByte_app.
  - now rewrite rev_app_distr, rev_involutive.
  - intros E. apply (f_equal (@rev byte)) in E.
    rewrite rev_involutive in E. now apply Hne.
  - exact Ht.
Qed.

Lemma collapse_app_start (m : bool) (a b : str) :
  b <> [] -> noLeadingNewline b = true ->
  collapse m (a ++ b) = collapse m a ++ collapse false b.
Proof.
  intros Hne Hl. revert m.
  induction a as [|x a IH]; intros m;
    cbn [app emptyLineMatcher_ReplaceAllString].
  - destruct b as [|c b]; [congruence|]. cbn in Hl.
    apply negb_true_iff in Hl. cbn [emptyLineMatcher_ReplaceAllString].
    now rewrite Hl.
  - destruct (Byte.eqb x newline); [destruct m|]; now rewrite IH.
Qed.

Lemma collapse_app_any (m : bool) (a b : str) :
  exists m' : bool, collapse m (a ++ b) = collapse m a ++ collapse m' b.
Proof.
  revert m. induction a as [|x a IH]; intros m; [now exists m|].
  cbn [app emptyLineMatcher_ReplaceAllString].
  destruct (Byte.eqb x newline); [destruct m|].
  - destruct (IH true) as (m' & ->). now exists m'.
  - destruct (IH true) as (m' & ->). now exists m'.
  - destruct (IH false) as (m' & ->). now exists m'.
Qed.

Lemma RemoveEmptyNewLines_incl (s : str) (b : byte) :
  In b (RemoveEmptyNewLines s) -> In b s.
Proof.
  unfold RemoveEmptyNewLines, strings.Trim. intros H.
  now apply collapse_incl, trimLeftByte_incl, trimRightByte_incl in H.
Qed.

(** On an ASCII message, trimming the white space and collapsing the
    newlines can be done in either order. *)
Lemma TrimSpace_RemoveEmptyNewLines (m : str) :
  isASCII m = true ->
  strings.TrimSpace (RemoveEmptyNewLines m)
  = RemoveEmptyNewLines (strings.TrimSpace m).
Proof.
  intros Ha.
  destruct (TrimSpace_ascii_ends m Ha) as (p & q & E & Hp & Hq & Hends).
  pose proof (TrimSpace_ascii m Ha) as HTa.
  destruct Hends as [Hnil|(c & l & t' & t'' & Ec & El & Hc & Hl)].
  - rewrite Hnil in *. cbn [app] in E.
    rewrite TrimSpace_blank; [reflexivity|].
    apply (forallb_incl _ m); [apply RemoveEmptyNewLines_incl|].
    rewrite E, forallb_app, Hp, Hq. reflexivity.
  - set (t := strings.TrimSpace m) in *.
    assert (Hcl : Byte.eqb c newline = false) by now apply space_not_newline.
    assert (Hll : Byte.eqb l newline = false) by now apply space_not_newline.
    assert (Hne : t <> []) by (rewrite Ec; discriminate).
    assert (Hlead : noLeadingNewline t = true)
      by (rewrite Ec; cbn; now rewrite Hcl).
    assert (Htrail : noTrailingNewline t = true)
      by (rewrite El, noTrailingNewline_snoc; now rewrite Hll).
    assert (HRt : RemoveEmptyNewLines t = collapse false t).
    { unfold RemoveEmptyNewLines. now rewrite Trim_fixed. }
    assert (HRm : exists P Q : str,
               RemoveEmptyNewLines m = P ++ collapse false t ++ Q
               /\ forallb space P = true /\ forallb space Q = true).
    { unfold RemoveEmptyNewLines, strings.Trim. rewrite E.
      rewrite app_assoc, trimRightByte_app.
      - rewrite <- app_assoc, trimLeftByte_app.
        + rewrite collapse_app_start.
          * destruct (collapse_app_any false t
                        (strings.trimRightByte q newline)) as (m' & ->).
            eexists _, _. split; [reflexivity|]. split.
            -- apply (forallb_incl _ p); [|exact Hp]. intros b Hb.
               now apply collapse_incl, trimLeftByte_incl in Hb.
            -- apply (forallb_incl _ q); [|exact Hq]. intros b Hb.
               now apply collapse_incl, trimRightByte_incl in Hb.
          * intros H. apply app_eq_nil in H. now destruct H.
          * rewrite Ec. cbn. now rewrite Hcl.
        + intros H. apply app_eq_nil in H. now destruct H.
        + rewrite Ec. cbn. now rewrite Hcl.
      - intros H. apply app_eq_nil in H. now destruct H.
      - rewrite El, app_assoc, noTrailingNewline_snoc. now rewrite Hll. }
    destruct HRm as (P & Q & -> & HP & HQ). rewrite HRt.
    assert (Hasc : forall b : byte, In b t -> b2z b < 0x80).
    { intros b Hb. unfold isASCII in HTa. rewrite forallb_forall in HTa.
      now apply Z.ltb_lt, HTa. }
    apply (TrimSpace_core P Q (collapse false t') c l).
    + exact HP.
    + exact HQ.
    + rewrite Ec. cbn [emptyLineMatcher_ReplaceAllString]. now rewrite Hcl.
    + exists (collapse false t''). rewrite El. now apply collapse_snoc.
    + apply Hasc. rewrite Ec. now left.
    + exact Hc.
    + apply Hasc. rewrite El. apply in_or_app. right. now left.
    + exact Hl.
Qed.

End TrimAndCollapse.

Lemma sublines_of_skips_empty (M : Z) (cm : str) (ls lines : list str) :
  sublines_of M cm ls lines = sublines_of M cm (filter nonEmpty ls) lines.
Proof.
  revert lines. induction ls as [|line ls IH]; intros lines; [reflexivity|].
  destruct line as [|b line'].
  - cbn [filter nonEmpty sublines_of subline_body bind]. apply IH.
  - cbn [filter nonEmpty sublines_of].
    destruct (subline_body M cm lines (b :: line')); cbn [bind];
      [apply IH|reflexivity].
Qed.

Lemma filter_nonEmpty_idem (ls : list str) :
  filter nonEmpty (filter nonEmpty ls) = filter nonEmpty ls.
Proof.
  induction ls as [|l ls IH]; [reflexivity|]. cbn [filter].
  destruct (nonEmpty l) eqn:E; [|exact IH]. cbn [filter]. now rewrite E, IH.
Qed.

Lemma RemoveEmptyNewLines_same_lines (x : str) :
  filter nonEmpty (pieces newline (RemoveEmptyNewLines x))
  = filter nonEmpty (pieces newline x).
Proof.
  rewrite RemoveEmptyNewLines_pieces.
  destruct (filter nonEmpty (pieces newline x)) as [|l ls] eqn:E;
    [reflexivity|].
  rewrite pieces_join.
  - rewrite <- E. apply filter_nonEmpty_idem.
  - discriminate.
  - rewrite <- E. apply Forall_forall. intros y Hy.
    apply filter_In in Hy. destruct Hy as [Hy _].
    pose proof (pieces_sep_free newline x) as F.
    rewrite Forall_forall in F. now apply F.
Qed.

(** X17: Collapsing the newlines of an ASCII message first does not change
    what GetSubLines returns, whatever the limit and the marker: the message
    and its collapsed form have the same non-empty lines once trimmed, and
    GetSubLines depends on these only. *)
Theorem GetSubLines_after_RemoveEmptyNewLines (message : str)
    (maxLineLength : Z) (cm : str) :
  isASCII message = true ->
  nonEmptyLines (RemoveEmptyNewLines message) = nonEmptyLines message
  /\ GetSubLines (RemoveEmptyNewLines message) maxLineLength cm
     = GetSubLines message maxLineLength cm.
Proof.
  intros Ha.
  assert (Hl : nonEmptyLines (RemoveEmptyNewLines message)
               = nonEmptyLines message).
  { unfold nonEmptyLines. rewrite !Split_pieces.
    rewrite TrimSpace_RemoveEmptyNewLines by exact Ha.
    apply RemoveEmptyNewLines_same_lines. }
  split; [exact Hl|]. unfold GetSubLines.
  rewrite sublines_of_skips_empty.
  rewrite (sublines_of_skips_empty _ _
             (strings.Split (strings.TrimSpace message) newline)).
  unfold nonEmptyLines in Hl. now rewrite Hl.
Qed.

Lemma GetSubLines_after_RemoveEmptyNewLines_witness :
  nonEmptyLines
    (RemoveEmptyNewLines
       ([newline] ++ bs " one" ++ [newline; newline; newline] ++ bs "two "
        ++ [newline]))
  = nonEmptyLines
      ([newline] ++ bs " one" ++ [newline; newline; newline] ++ bs "two "
       ++ [newline])
  /\ GetSubLines
       (RemoveEmptyNewLines
          ([newline] ++ bs " one" ++ [newline; newline; newline] ++ bs "two "
           ++ [newline])) 3 (bs "_")
     = GetSubLines
         ([newline] ++ bs " one" ++ [newline; newline; newline] ++ bs "two "
          ++ [newline]) 3 (bs "_").
Proof.
  apply (GetSubLines_after_RemoveEmptyNewLines
           ([newline] ++ bs " one" ++ [newline; newline; newline] ++ bs "two "
            ++ [newline]) 3 (bs "_")).
  reflexivity.
Defined.

(** ** The helpers on messages *)

(** *** Maps *)

Lemma byte_eqb_eq (x y : byte) : Byte.eqb x y = true <-> x = y.
Proof.
  split; [apply Byte.byte_dec_bl|apply Byte.byte_dec_lb].
Qed.

Lemma str_eqb_eq (a b : str) : str_eqb a b = true <-> a = b.
Proof.
  revert b. induction a as [|x a IH]; intros [|y b]; cbn;
    try (split; [discriminate|discriminate]); [tauto|].
  rewrite andb_true_iff, byte_eqb_eq, IH. split.
  - intros [-> ->]. reflexivity.
  - intros E. inversion E. auto.
Qed.

Lemma str_eqb_refl (a : str) : str_eqb a a = true.
Proof. now apply str_eqb_eq. Qed.

Lemma str_eqb_neq (a b : str) : a <> b -> str_eqb a b = false.
Proof.
  intros N. destruct (str_eqb a b) eqn:E; [|reflexivity].
  apply str_eqb_eq in E. contradiction.
Qed.

Lemma map_assign_Some {V : Type} (m m' : gomap V) (k : str) (v : V) :
  map_assign m k v = Some m' ->
  m <> None
  /\ map_lookup m' k = Some v
  /\ forall k' : str, k' <> k -> map_lookup m' k' = map_lookup m k'.
Proof.
  destruct m as [kvs|]; [|discriminate]. intros E. inversion E. subst m'.
  split; [discriminate|]. split.
  - cbn. now rewrite str_eqb_refl.
  - intros k' N. cbn. rewrite str_eqb_neq; [reflexivity|congruence].
Qed.

Lemma map_assign_total {V : Type} (m : gomap V) (k : str) (v : V) :
  m <> None -> exists m' : gomap V, map_assign m k v = Some m'.
Proof.
  destruct m as [kvs|]; [|congruence]. intros _. now eexists.
Qed.

Lemma map_index_assign {A : Type} (m m' : gomap (list A)) (k : str)
    (v : list A) :
  map_assign m k v = Some m' ->
  map_index m' k = v
  /\ forall k' : str, k' <> k -> map_index m' k' = map_index m k'.
Proof.
  intros E. apply map_assign_Some in E. destruct E as (_ & E1 & E2).
  unfold map_index. rewrite E1. split; [reflexivity|].
  intros k' N. now rewrite E2.
Qed.

(** *** HandleExtra *)

Section MessageHelpers.

Context {imports : Imports}.

Lemma HandleExtra_loop_spec (msg : config.Message) (general : config.Protocol)
    (fs : list config.any) (rmsg : list config.Message) :
  HandleExtra_loop msg general fs rmsg
  = option_map (fun fis => rmsg ++ map (failureMessage msg general) fis)
      (fileInfos fs).
Proof.
  revert rmsg. induction fs as [|[fi|] fs IH]; intros rmsg; cbn.
  - now rewrite app_nil_r.
  - rewrite IH. destruct (fileInfos fs) as [fis|]; cbn; [|reflexivity].
    now rewrite <- app_assoc.
  - reflexivity.
Qed.

Lemma fileInfos_Some (fs : list config.any) (fis : list config.FileInfo) :
  fileInfos fs = Some fis <-> fs = map config.FileInfoValue fis.
Proof.
  revert fis. induction fs as [|[fi|] fs IH]; intros fis; cbn.
  - split; [intros E; inversion E; reflexivity|].
    destruct fis; [reflexivity|discriminate].
  - destruct (fileInfos fs) as [fis'|] eqn:E; cbn.
    + split.
      * intros H. inversion H. cbn. f_equal. now apply IH.
      * destruct fis as [|fi0 fis]; [discriminate|]. cbn. intros H.
        inversion H. subst. f_equal. f_equal.
        assert (Some fis' = Some fis) as X by now apply IH.
        now inversion X.
    + split; [discriminate|].
      destruct fis as [|fi0 fis]; [discriminate|]. cbn. intros H.
      inversion H. subst. assert (None = Some fis) by now apply IH.
      discriminate.
  - split; [discriminate|]. destruct fis; discriminate.
Qed.

Lemma HandleExtra_Some (msg : config.Message) (general : config.Protocol)
    (r : list config.Message) :
  HandleExtra msg general = Some r <->
  exists fis : list config.FileInfo,
    map_index (config.Extra msg) EventFileFailureSize
    = map config.FileInfoValue fis
    /\ r = map (failureMessage msg general) fis.
Proof.
  unfold HandleExtra. rewrite HandleExtra_loop_spec. split.
  - destruct (fileInfos _) as [fis|] eqn:E; [|discriminate]. cbn.
    intros H. inversion H. exists fis. split; [|reflexivity].
    now apply fileInfos_Some.
  - intros (fis & E & ->). apply fileInfos_Some in E. now rewrite E.
Qed.

(** *** HandleDownloadSize *)

Lemma blackListed_None (entries : list str) (name : str) :
  blackListed entries name = None <->
  forall entry : str, In entry entries -> ~ blocks name entry.
Proof.
  induction entries as [|e entries IH]; cbn.
  - split; [intros _ ? []|reflexivity].
  - destruct e as [|b e].
    + rewrite IH. split.
      * intros H entry [<-|Hin]; [intros [N _]; now apply N|now apply H].
      * intros H entry Hin. apply H. now right.
    + destruct (regexp_Compile (b :: e)) as [re|] eqn:Ec.
      * destruct (MatchString re name) eqn:Em.
        -- split; [discriminate|]. intros H. exfalso.
           apply (H (b :: e)); [now left|]. split; [discriminate|].
           now exists re.
        -- rewrite IH. split.
           ++ intros H entry [<-|Hin]; [|now apply H].
              intros (_ & re' & Ec' & Em'). congruence.
           ++ intros H entry Hin. apply H. now right.
      * rewrite IH. split.
        -- intros H entry [<-|Hin]; [|now apply H].
           intros (_ & re' & Ec' & _). congruence.
        -- intros H entry Hin. apply H. now right.
Qed.

Lemma blackListed_Some (entries : list str) (name err : str) :
  blackListed entries name = Some err ->
  exists (before after : list str) (entry : str),
    entries = before ++ entry :: after
    /\ blocks name entry
    /\ (forall e : str, In e before -> ~ blocks name e)
    /\ err = bs "Matching blacklist " ++ entry ++ bs ". Not downloading "
             ++ name.
Proof.
  induction entries as [|e entries IH]; cbn; [discriminate|].
  assert (Hskip : ~ blocks name e ->
                  blackListed entries name = Some err ->
                  exists (before after : list str) (entry : str),
                    e :: entries = before ++ entry :: after
                    /\ blocks name entry
                    /\ (forall e0 : str, In e0 before -> ~ blocks name e0)
                    /\ err = bs "Matching blacklist " ++ entry
                             ++ bs ". Not downloading " ++ name).
  { intros N H. destruct (IH H) as (before & after & entry & -> & B & F & E).
    exists (e :: before), after, entry. repeat split; try assumption;
      try (now destruct B).
    intros e0 [<-|Hin]; [assumption|now apply F]. }
  destruct e as [|b e].
  - apply Hskip. intros [N _]. now apply N.
  - destruct (regexp_Compile (b :: e)) as [re|] eqn:Ec.
    + destruct (MatchString re name) eqn:Em.
      * intros H. inversion H. exists [], entries, (b :: e).
        repeat split; try discriminate; [now exists re|intros ? []].
      * apply Hskip. intros (_ & re' & Ec' & Em'). congruence.
    + apply Hskip. intros (_ & re' & Ec' & _). congruence.
Qed.

End MessageHelpers.

Section MessageHelperProperties.

Context {imports : Imports}.

(** X18: HandleExtra makes one system message for each failure recorded under
    the key EventFileFailureSize, in order, for the channel and the account of
    the message; it panics exactly when a value under that key is not a
    FileInfo; it returns no message when the key is missing (or the map is
    nil), and in particular for every message that it made itself. *)
Theorem HandleExtra_reports_each_failure (msg : config.Message)
    (general : config.Protocol) :
  ((exists r : list config.Message, HandleExtra msg general = Some r)
   <-> Forall (fun f => exists fi, f = config.FileInfoValue fi)
         (map_index (config.Extra msg) EventFileFailureSize))
  /\ (forall r : list config.Message,
         HandleExtra msg general = Some r ->
         Forall2
           (fun f m =>
              exists fi : config.FileInfo,
                f = config.FileInfoValue fi
                /\ config.Text m
                   = bs "file " ++ config.Name fi
                     ++ bs " too big to download ("
                     ++ fmt_int (config.Size fi) ++ bs " > allowed size: "
                     ++ fmt_int (config.MediaDownloadSize general) ++ bs ")"
                /\ config.Username m = bs "<system> "
                /\ config.Channel m = config.Channel msg
                /\ config.Account m = config.Account msg)
           (map_index (config.Extra msg) EventFileFailureSize) r
         /\ Forall (fun m => HandleExtra m general = Some []) r)
  /\ (map_lookup (config.Extra msg) EventFileFailureSize = None ->
      HandleExtra msg general = Some []).
Proof.
  split; [|split].
  - split.
    + intros (r & Hr). apply HandleExtra_Some in Hr.
      destruct Hr as (fis & -> & _). apply Forall_forall.
      intros f Hin. apply in_map_iff in Hin. destruct Hin as (fi & <- & _).
      now exists fi.
    + intros F.
      assert (exists fis, map_index (config.Extra msg) EventFileFailureSize
                          = map config.FileInfoValue fis) as (fis & E).
      { induction F as [|f fs (fi & ->) _ (fis & ->)];
          [now exists []|now exists (fi :: fis)]. }
      exists (map (failureMessage msg general) fis).
      apply HandleExtra_Some. now exists fis.
  - intros r Hr. apply HandleExtra_Some in Hr. destruct Hr as (fis & -> & ->).
    split.
    + induction fis as [|fi fis IH]; cbn; constructor; [|exact IH].
      exists fi. repeat split.
    + apply Forall_forall. intros m Hin. apply in_map_iff in Hin.
      destruct Hin as (fi & <- & _). reflexivity.
  - intros E. unfold HandleExtra, map_index. now rewrite E.
Qed.

(** X19: GetAvatar returns the empty string exactly when the user has no entry
    in the cache, and otherwise the URL made of the download server, the
    checksum stored for the user and the user's id, which ends in ".png". *)
Theorem GetAvatar_empty_iff_unknown (av : gomap str) (userid : str)
    (general : config.Protocol) :
  (GetAvatar av userid general = [] <-> map_lookup av userid = None)
  /\ (forall sha : str,
         map_lookup av userid = Some sha ->
         GetAvatar av userid general
         = config.MediaServerDownload general ++ bs "/" ++ sha ++ bs "/"
           ++ userid ++ bs ".png")
  /\ (forall (av' : gomap str) (sha : str),
         map_assign av userid sha = Some av' ->
         GetAvatar av' userid general
         = config.MediaServerDownload general ++ bs "/" ++ sha ++ bs "/"
           ++ userid ++ bs ".png"
         /\ forall other : str,
              other <> userid ->
              GetAvatar av' other general = GetAvatar av other general).
Proof.
  split; [|split].
  - unfold GetAvatar. destruct (map_lookup av userid) as [sha|].
    + split; [|discriminate]. intros E. exfalso.
      apply (f_equal (@List.length byte)) in E.
      rewrite !length_app in E. cbn in E. lia.
    + tauto.
  - intros sha E. unfold GetAvatar. now rewrite E.
  - intros av' sha E. apply map_assign_Some in E.
    destruct E as (_ & E1 & E2). unfold GetAvatar. rewrite E1.
    split; [reflexivity|]. intros other N. now rewrite E2.
Qed.

(** X20: HandleDownloadSize returns no error exactly when no entry of the
    blacklist that is not empty and compiles matches the name and the size is
    at most MediaDownloadSize; the message is then left as it was. *)
Theorem HandleDownloadSize_accepts_iff (msg msg' : config.Message)
    (name : str) (size : Z) (general : config.Protocol) :
  HandleDownloadSize msg name size general = Some (msg', None)
  <-> msg' = msg
      /\ size <= config.MediaDownloadSize general
      /\ forall entry : str,
           In entry (config.MediaDownloadBlackList general) ->
           ~ blocks name entry.
Proof.
  unfold HandleDownloadSize.
  destruct (blackListed _ name) as [err|] eqn:Eb.
  - split; [discriminate|]. intros (_ & _ & F).
    apply blackListed_None in F. congruence.
  - pose proof (proj1 (blackListed_None _ _) Eb) as Hb.
    destruct (Z.gtb_spec size (config.MediaDownloadSize general)) as [G|G].
    + split; [|lia].
      destruct (map_assign _ _ _); cbn; discriminate.
    + split.
      * intros E. inversion E. auto.
      * intros (-> & _ & _). reflexivity.
Qed.

(** X21: A name that an entry of the blacklist matches is refused with the
    error of the first such entry, whatever the size: the message is left as
    it was and nothing is recorded, even when its map is nil. Entries that are
    empty or do not compile are passed over. *)
Theorem HandleDownloadSize_blacklist_first (msg : config.Message)
    (name : str) (size : Z) (general : config.Protocol) (entry : str) :
  In entry (config.MediaDownloadBlackList general) ->
  blocks name entry ->
  exists (before after : list str) (first : str),
    config.MediaDownloadBlackList general = before ++ first :: after
    /\ blocks name first
    /\ (forall e : str, In e before -> ~ blocks name e)
    /\ HandleDownloadSize msg name size general
       = Some (msg,
               Some (bs "Matching blacklist " ++ first
                     ++ bs ". Not downloading " ++ name)).
Proof.
  intros Hin Hb. unfold HandleDownloadSize.
  destruct (blackListed _ name) as [err|] eqn:Eb.
  - apply blackListed_Some in Eb.
    destruct Eb as (before & after & first & E & B & F & ->).
    exists before, after, first. auto.
  - exfalso. exact (proj1 (blackListed_None _ _) Eb entry Hin Hb).
Qed.

(** X22: A file that is not blacklisted and is larger than MediaDownloadSize:
    HandleDownloadSize panics when the map Extra of the message is nil;
    otherwise it returns an error, sets the event of the message to
    EventFileFailureSize and appends the file, with its name, its size and the
    text of the message as comment, to the failures under that key, leaving
    the other keys and the other fields as they were. *)
Theorem HandleDownloadSize_too_large (msg : config.Message) (name : str)
    (size : Z) (general : config.Protocol) :
  (forall entry : str,
      In entry (config.MediaDownloadBlackList general) ->
      ~ blocks name entry) ->
  size > config.MediaDownloadSize general ->
  (config.Extra msg = None ->
   HandleDownloadSize msg name size general = None)
  /\ (config.Extra msg <> None ->
      exists (msg' : config.Message) (err : str),
        HandleDownloadSize msg name size general = Some (msg', Some err)
        /\ config.Event msg' = EventFileFailureSize
        /\ map_index (config.Extra msg') EventFileFailureSize
           = map_index (config.Extra msg) EventFileFailureSize
             ++ [config.FileInfoValue
                   {| config.Name := name;
                      config.Data := None;
                      config.Comment := config.Text msg;
                      config.URL := [];
                      config.Size := size;
                      config.Avatar := false;
                      config.NativeID := [] |}]
        /\ (forall k : str,
               k <> EventFileFailureSize ->
               map_lookup (config.Extra msg') k
               = map_lookup (config.Extra msg) k)
        /\ config.Text msg' = config.Text msg
        /\ config.Channel msg' = config.Channel msg
        /\ config.Username msg' = config.Username msg
        /\ config.Account msg' = config.Account msg).
Proof.
  intros F G. apply blackListed_None in F. unfold HandleDownloadSize.
  rewrite F. destruct (Z.gtb_spec size (config.MediaDownloadSize general));
    [|lia].
  cbn [set_Event config.Extra config.Event config.Text]. split.
  - intros ->. reflexivity.
  - intros N.
    destruct (map_assign_total (config.Extra msg) EventFileFailureSize
                (map_index (config.Extra msg) EventFileFailureSize
                 ++ [config.FileInfoValue
                       {| config.Name := name;
                          config.Data := None;
                          config.Comment := config.Text msg;
                          config.URL := [];
                          config.Size := size;
                          config.Avatar := false;
                          config.NativeID := [] |}]) N) as (extra & E).
    rewrite E. cbn [bind]. eexists _, _. split; [reflexivity|].
    cbn [set_Extra set_Event config.Extra config.Event config.Text
         config.Channel config.Username config.Account].
    destruct (map_index_assign _ _ _ _ E) as (E1 & _).
    apply map_assign_Some in E. destruct E as (_ & _ & E2).
    repeat split; auto.
Qed.

End MessageHelperProperties.

Lemma HandleDownloadSize_blacklist_first_witness :
  exists (before after : list str) (first : str),
    config.MediaDownloadBlackList exampleProtocol = before ++ first :: after
    /\ @blocks exampleImports (bs "virus.exe") first
    /\ (forall e : str,
           In e before -> ~ @blocks exampleImports (bs "virus.exe") e)
    /\ @HandleDownloadSize exampleImports exampleMessage (bs "virus.exe") 10
         exampleProtocol
       = Some (exampleMessage,
               Some (bs "Matching blacklist " ++ first
                     ++ bs ". Not downloading " ++ bs "virus.exe")).
Proof.
  apply (@HandleDownloadSize_blacklist_first exampleImports exampleMessage
           (bs "virus.exe") 10 exampleProtocol (bs "virus.exe")).
  - cbn. auto.
  - split; [discriminate|]. exists (bs "virus.exe"). split; reflexivity.
Defined.

Lemma HandleDownloadSize_too_large_witness :
  (config.Extra exampleMessage = None ->
   @HandleDownloadSize exampleImports exampleMessage (bs "film.mkv")
     5000000 exampleProtocol = None)
  /\ (config.Extra exampleMessage <> None ->
      exists (msg' : config.Message) (err : str),
        @HandleDownloadSize exampleImports exampleMessage (bs "film.mkv")
          5000000 exampleProtocol = Some (msg', Some err)
        /\ config.Event msg' = bs "file_failure_size"
        /\ map_index (config.Extra msg') (bs "file_failure_size")
           = map_index (config.Extra exampleMessage) (bs "file_failure_size")
             ++ [config.FileInfoValue
                   {| config.Name := bs "film.mkv";
                      config.Data := None;
                      config.Comment := bs "look at this";
                      config.URL := [];
                      config.Size := 5000000;
                      config.Avatar := false;
                      config.NativeID := [] |}]
        /\ (forall k : str,
               k <> bs "file_failure_size" ->
               map_lookup (config.Extra msg') k
               = map_lookup (config.Extra exampleMessage) k)
        /\ config.Text msg' = bs "look at this"
        /\ config.Channel msg' = bs "#general"
        /\ config.Username msg' = bs "alice"
        /\ config.Account msg' = bs "irc.libera").
Proof.
  apply (@HandleDownloadSize_too_large exampleImports exampleMessage
           (bs "film.mkv") 5000000 exampleProtocol).
  - intros entry [<-|[<-|[<-|[]]]] (N & re & Ec & Em);
      [now apply N|discriminate|].
    cbn in Ec. inversion Ec. subst re. discriminate.
  - reflexivity.
Defined.

Section RecordedFiles.

Context {imports : Imports}.

(** X23: What HandleDownloadSize records is what HandleExtra reports: after
    HandleDownloadSize has refused a file for its size, HandleExtra returns
    the messages it returned before and one more, for the channel and account
    of the message, whose text names the file, its size and the size allowed.
    *)
Theorem HandleDownloadSize_failure_is_reported (msg : config.Message)
    (name : str) (size : Z) (general : config.Protocol)
    (r : list config.Message) :
  (forall entry : str,
      In entry (config.MediaDownloadBlackList general) ->
      ~ blocks name entry) ->
  size > config.MediaDownloadSize general ->
  config.Extra msg <> None ->
  HandleExtra msg general = Some r ->
  exists (msg' : config.Message) (err : str),
    HandleDownloadSize msg name size general = Some (msg', Some err)
    /\ HandleExtra msg' general
       = Some (r ++ [{| config.Text :=
                          bs "file " ++ name ++ bs " too big to download ("
                          ++ fmt_int size ++ bs " > allowed size: "
                          ++ fmt_int (config.MediaDownloadSize general)
                          ++ bs ")";
                        config.Channel := config.Channel msg;
                        config.Username := bs "<system> ";
                        config.Account := config.Account msg;
                        config.Event := [];
                        config.Extra := None |}]).
Proof.
  intros F G N Hr.
  pose proof (proj2 (blackListed_None _ _) F) as Eb.
  apply HandleExtra_Some in Hr. destruct Hr as (fis & Efs & ->).
  unfold HandleDownloadSize. rewrite Eb.
  destruct (Z.gtb_spec size (config.MediaDownloadSize general)); [|lia].
  cbn [set_Event config.Extra config.Event config.Text].
  match goal with
  | |- context [map_assign ?m ?k ?v] =>
      destruct (map_assign_total m k v N) as (extra & E)
  end.
  rewrite E. cbn [bind]. eexists _, _. split; [reflexivity|].
  apply HandleExtra_Some.
  destruct (map_index_assign _ _ _ _ E) as (E1 & _).
  eexists (fis ++ [_]). cbn [set_Extra config.Extra]. split.
  - rewrite E1, Efs, map_app. reflexivity.
  - rewrite map_app. reflexivity.
Qed.

(** X24: HandleDownloadData2 panics exactly when the data pointer or the map
    Extra of the message is nil. Otherwise it appends one file to the values
    under the key "file", made of the name, the id, the comment, the URL and
    the data, and marked as an avatar exactly when the event of the message is
    EventAvatarDownload; the other keys and the other fields of the message
    stay as they were. HandleDownloadData does the same with an empty id. *)
Theorem HandleDownloadData2_appends_file (msg : config.Message)
    (name id comment url : str) (data : option str)
    (general : config.Protocol) :
  (HandleDownloadData2 msg name id comment url data general = None
   <-> data = None \/ config.Extra msg = None)
  /\ (forall msg' : config.Message,
         HandleDownloadData2 msg name id comment url data general
         = Some msg' ->
         (exists avatar : bool,
             (avatar = true <-> config.Event msg = EventAvatarDownload)
             /\ map_index (config.Extra msg') (bs "file")
                = map_index (config.Extra msg) (bs "file")
                  ++ [config.FileInfoValue
                        {| config.Name := name;
                           config.Data := data;
                           config.Comment := comment;
                           config.URL := url;
                           config.Size := 0;
                           config.Avatar := avatar;
                           config.NativeID := id |}])
         /\ (forall k : str,
                k <> bs "file" ->
                map_lookup (config.Extra msg') k
                = map_lookup (config.Extra msg) k)
         /\ config.Text msg' = config.Text msg
         /\ config.Channel msg' = config.Channel msg
         /\ config.Username msg' = config.Username msg
         /\ config.Account msg' = config.Account msg
         /\ config.Event msg' = config.Event msg)
  /\ HandleDownloadData msg name comment url data general
     = HandleDownloadData2 msg name [] comment url data general.
Proof.
  split; [|split; [|reflexivity]].
  - unfold HandleDownloadData2. destruct data as [d|]; cbn [bind].
    + destruct (config.Extra msg) as [kvs|]; cbn.
      * split; [discriminate|]. intros [?|?]; discriminate.
      * split; auto.
    + split; auto.
  - intros msg'. unfold HandleDownloadData2.
    destruct data as [d|]; cbn [bind]; [|discriminate].
    match goal with
    | |- context [map_assign ?m ?k ?v] =>
        destruct (map_assign m k v) as [extra|] eqn:E; [|discriminate]
    end.
    cbn [bind]. intros H. inversion H. subst msg'.
    cbn [set_Extra config.Extra config.Event config.Text config.Channel
         config.Username config.Account].
    destruct (map_index_assign _ _ _ _ E) as (E1 & _).
    apply map_assign_Some in E. destruct E as (_ & _ & E2).
    split; [|repeat split; auto].
    eexists. split; [|exact E1].
    rewrite <- str_eqb_eq.
    destruct (str_eqb (config.Event msg) EventAvatarDownload); tauto.
Qed.

(** X25: Recording a download does not disturb the recorded failures: when the
    key EventFileFailureSize is not "file", HandleExtra returns the same
    messages after HandleDownloadData2 as before. *)
Theorem HandleDownloadData2_keeps_failures (msg msg' : config.Message)
    (name id comment url : str) (data : option str)
    (general : config.Protocol) :
  EventFileFailureSize <> bs "file" ->
  HandleDownloadData2 msg name id comment url data general = Some msg' ->
  HandleExtra msg' general = HandleExtra msg general.
Proof.
  intros N. unfold HandleDownloadData2.
  destruct data as [d|]; cbn [bind]; [|discriminate].
  match goal with
  | |- context [map_assign ?m ?k ?v] =>
      destruct (map_assign m k v) as [extra|] eqn:E; [|discriminate]
  end.
  cbn [bind]. intros H. inversion H. subst msg'.
  destruct (map_index_assign _ _ _ _ E) as (_ & E2).
  unfold HandleExtra. cbn [set_Extra config.Extra]. rewrite (E2 _ N).
  rewrite !HandleExtra_loop_spec.
  destruct (fileInfos _) as [fis|]; reflexivity.
Qed.

End RecordedFiles.

Lemma HandleDownloadSize_failure_is_reported_witness :
  exists (msg' : config.Message) (err : str),
    @HandleDownloadSize exampleImports exampleMessage (bs "film.mkv") 5000000
      exampleProtocol = Some (msg', Some err)
    /\ @HandleExtra exampleImports msg' exampleProtocol
       = Some ([] ++ [{| config.Text :=
                          bs "file " ++ bs "film.mkv"
                          ++ bs " too big to download ("
                          ++ fmt_int 5000000 ++ bs " > allowed size: "
                          ++ fmt_int (config.MediaDownloadSize exampleProtocol)
                          ++ bs ")";
                        config.Channel := config.Channel exampleMessage;
                        config.Username := bs "<system> ";
                        config.Account := config.Account exampleMessage;
                        config.Event := [];
                        config.Extra := None |}]).
Proof.
  apply (@HandleDownloadSize_failure_is_reported exampleImports
           exampleMessage (bs "film.mkv") 5000000 exampleProtocol []).
  - intros entry [<-|[<-|[<-|[]]]] (N & re & Ec & Em);
      [now apply N|discriminate|].
    cbn in Ec. inversion Ec. subst re. discriminate.
  - reflexivity.
  - discriminate.
  - reflexivity.
Defined.

Lemma HandleDownloadData2_keeps_failures_witness :
  @HandleExtra exampleImports
    {| config.Text := bs "look at this";
       config.Channel := bs "#general";
       config.Username := bs "alice";
       config.Account := bs "irc.libera";
       config.Event := [];
       config.Extra :=
         Some [(bs "file",
                [config.FileInfoValue
                   {| config.Name := bs "cat.png";
                      config.Data := Some (bs "PNG");
                      config.Comment := bs "my cat";
                      config.URL := bs "https://example/cat.png";
                      config.Size := 0;
                      config.Avatar := false;
                      config.NativeID := bs "42" |}])] |}
    exampleProtocol
  = @HandleExtra exampleImports exampleMessage exampleProtocol.
Proof.
  apply (@HandleDownloadData2_keeps_failures exampleImports exampleMessage _
           (bs "cat.png") (bs "42") (bs "my cat")
           (bs "https://example/cat.png") (Some (bs "PNG")) exampleProtocol).
  - discriminate.
  - reflexivity.
Defined.

(** ** ParseMarkdown *)






(** ** The download helpers *)



Section DownloadProperties.

Context {network : Network}.

(** X27: With a URL that http.NewRequest refuses, DownloadFile returns the
    error of http.NewRequest and no data, and so does DownloadFileAuth when
    auth is empty; with an auth that is not empty DownloadFileAuth panics, and
    DownloadFileAuthRocket always does, because they add a header to the
    request, which is nil, before they look at the error. *)
Theorem Download_refused_URL (url auth token userID e : str) :
  http_NewRequest_error url = Some e ->
  DownloadFile url = Some (None, Some e)
  /\ (auth = [] -> DownloadFileAuth url auth = Some (None, Some e))
  /\ (auth <> [] -> DownloadFileAuth url auth = None)
  /\ DownloadFileAuthRocket url token userID = None.
Proof.
  intros E.
  unfold DownloadFile, DownloadFileAuth, DownloadFileAuthRocket,
    http_NewRequest.
  rewrite E. repeat split.
  - intros ->. reflexivity.
  - intros N. destruct auth as [|b auth]; [congruence|reflexivity].
Qed.


(** X29: DownloadFileAuthRocket does not look at the status: whenever the URL
    is accepted and the client answers the request, which carries the headers
    X-Auth-Token and X-User-Id, it returns the body that was read, and with it
    the error that ended the reading, if any; when the client fails it returns
    the error of the client and no data. *)
Theorem DownloadFileAuthRocket_ignores_status (url token userID : str) :
  http_NewRequest_error url = None ->
  (forall resp : http.Response,
      client_Do
        {| http.URL := url;
           http.Header :=
             [(bs "X-Auth-Token", token); (bs "X-User-Id", userID)] |}
      = inl resp ->
      DownloadFileAuthRocket url token userID
      = Some (Some (http.Body resp), http.BodyError resp))
  /\ (forall e : str,
         client_Do
           {| http.URL := url;
              http.Header :=
                [(bs "X-Auth-Token", token); (bs "X-User-Id", userID)] |}
         = inr e ->
         DownloadFileAuthRocket url token userID = Some (None, Some e)).
Proof.
  intros Eu. unfold DownloadFileAuthRocket, http_NewRequest.
  rewrite Eu. cbn [Header_Add bind Do http.URL http.Header app].
  split; intros r Ed; rewrite Ed; reflexivity.
Qed.

End DownloadProperties.

Lemma Download_refused_URL_witness :
  @DownloadFile exampleNetwork (bs "://example")
  = Some (None, Some (bs "missing protocol scheme"))
  /\ (bs "secret" = [] ->
      @DownloadFileAuth exampleNetwork (bs "://example") (bs "secret")
      = Some (None, Some (bs "missing protocol scheme")))
  /\ (bs "secret" <> [] ->
      @DownloadFileAuth exampleNetwork (bs "://example") (bs "secret") = None)
  /\ @DownloadFileAuthRocket exampleNetwork (bs "://example") (bs "token")
       (bs "user") = None.
Proof.
  apply (@Download_refused_URL exampleNetwork (bs "://example") (bs "secret")
           (bs "token") (bs "user") (bs "missing protocol scheme")).
  reflexivity.
Defined.


Lemma DownloadFileAuthRocket_ignores_status_witness :
  @DownloadFileAuthRocket exampleNetwork (bs "https://example/dog.png")
    (bs "token") (bs "user")
  = Some (Some (bs "no such file"), None).
Proof.
  apply (proj1 (@DownloadFileAuthRocket_ignores_status exampleNetwork
                  (bs "https://example/dog.png") (bs "token") (bs "user")
                  eq_refl)
           {| http.StatusCode := 404;
              http.Status := bs "404 Not Found";
              http.Body := bs "no such file";
              http.BodyError := None |}).
  reflexivity.
Defined.
